(** * SimpleShell: a Rocq model of [main.cpp]

    The shell is a single C++ file.  Its functions are embedded below as
    trees of library calls ([prog]): a node is a call into the C library or
    the kernel, an access to one of the three globals ([pt], [bgProcIDs],
    [my_argv]), a return, or a memory fault.  A small machine runs such a
    tree against a model of the kernel's view of the shell process (its
    children, the pending SIGCHLD, the terminal), and lets [child_handler]
    preempt the main flow between any two of its steps.

    Conventions of the model, each one written where it is used:
    - a C string is a [string]; a block of memory is the [list ascii] of
      its bytes, and every access to it is checked against its size: a
      string that is looked for in a block and does not end inside it is a
      fault, as is a write past its end;
    - [my_argv] is a list of [ARGS_MAX] slots, each NULL or a block, and
      every access is checked against [ARGS_MAX];
    - the two buffers that [main] obtains from [malloc] when it starts read
      as zero bytes; the blocks that [getArgs] obtains later hold whatever
      the heap has there (a node that [bgProcIDs] released, for one): their
      bytes are a parameter, [heap];
    - an iterator of [bgProcIDs] whose node was erased is dangling, and
      using it is a fault;
    - [signal] installs handlers the BSD way (the file header names Mac OS
      X): a call interrupted by a handler is restarted, and SIGCHLD is held
      back while [child_handler] runs;
    - SIGINT and [interrupt_handler], which only print the prompt, are left
      out of the machine. *)

From Stdlib Require Import ZArith Lia Ascii.
From stdpp Require Import base tactics option list numbers strings gmap.

Local Open Scope Z_scope.

(** ** Constants and global data (lines 17-38) *)

(** [#define CHARS_MAX 100] *)
Definition CHARS_MAX : nat := 100.
(** [#define ARGS_MAX 10] *)
Definition ARGS_MAX : nat := 10.

(** [enum ProcessType {FORE, BACK};] *)
Inductive ProcessType : Type := FORE | BACK.

(** [static const char* prmpt = "[mySHELL]";] *)
Definition prmpt : string := "[mySHELL]".

(** The three mutable globals: [pt], [bgProcIDs] (a [std::list<int>]) and
    the argument array [my_argv]. *)
Record globals : Type := Globals {
  pt : ProcessType;
  bgProcIDs : list Z;
  my_argv : list (option (list ascii))
}.

Definition set_pt (v : ProcessType) (g : globals) : globals :=
  Globals v (bgProcIDs g) (my_argv g).
Definition set_bgProcIDs (f : list Z → list Z) (g : globals) : globals :=
  Globals (pt g) (f (bgProcIDs g)) (my_argv g).
Definition set_my_argv (a : list (option (list ascii))) (g : globals)
  : globals :=
  Globals (pt g) (bgProcIDs g) a.

(** Static storage is zero-initialised: [pt] is [FORE] (the first
    enumerator), the list is empty, every slot of [my_argv] is NULL. *)
Definition globals0 : globals :=
  Globals FORE [] (replicate ARGS_MAX None).

(** [std::list<int>] operations used by the shell. *)
Definition push_back (pid : Z) (l : list Z) : list Z := l ++ [pid].
(** [list::remove(value)] erases every element equal to [value]. *)
Definition list_remove (pid : Z) (l : list Z) : list Z :=
  filter (λ x, x ≠ pid) l.
Definition list_clear (l : list Z) : list Z := [].

(** ** C strings *)

Definition NUL : ascii := "000"%char.
Definition newline : ascii := "010"%char.
Definition space : ascii := " "%char.
Definition ampersand : ascii := "&"%char.
(** [EOF] is [-1]; stored into [char c] it is the byte 255, and a byte 255
    read from the terminal compares equal to [EOF] again where [char] is
    signed (Mac OS X on x86, which the file header names). *)
Definition EOF_char : ascii := "255"%char.

(** [strlen(tok)] *)
Definition strlen (s : string) : nat := String.length s.

(** [tok[strlen(tok)-1]]: the last character; there is none in an empty
    string, where the index wraps around and the read is out of bounds. *)
Definition last_char (tok : string) : option ascii :=
  match strlen tok with
  | O => None
  | S n => String.get n tok
  end.

(** What [strncpy(dst, tok, strlen(tok) - 1)] copies: all but the last
    character. *)
Definition all_but_last (tok : string) : string :=
  String.substring 0 (strlen tok - 1) tok.

(** The tokens that [strtok(input, " ")] followed by repeated
    [strtok(NULL, " ")] returns, in order: the maximal runs of characters
    other than the space, up to the NUL that ends the string.  [tok] is the
    run being read. *)
Fixpoint strtok_from (tok : string) (s : string) : list string :=
  match s with
  | EmptyString => match tok with EmptyString => [] | _ => [tok] end
  | String c s' =>
      if Ascii.eqb c NUL then
        match tok with EmptyString => [] | _ => [tok] end
      else if Ascii.eqb c space then
        match tok with
        | EmptyString => strtok_from EmptyString s'
        | _ => tok :: strtok_from EmptyString s'
        end
      else strtok_from (tok +:+ String c EmptyString) s'
  end.

Definition strtok (input : string) : list string :=
  strtok_from EmptyString input.

(** ** Memory faults *)

Inductive fault : Type :=
| OutOfBounds (array : string) (index : nat)
| NullDereference (pointer : string)
| UseAfterFree (object : string).

(** ** Blocks of memory *)

(** [malloc(n)] at the start of [main]: a block of [n] bytes of a heap
    that was not used yet, read as zeros. *)
Definition malloc (n : nat) : list ascii := replicate n NUL.
(** [malloc(n)] later on: [n] bytes that hold what the heap has there,
    byte [k] being [junk k]. *)
Definition malloc_junk (junk : nat → ascii) (n : nat) : list ascii :=
  junk <$> seq 0 n.
(** [bzero(input, CHARS_MAX)] *)
Definition bzero (b : list ascii) : list ascii := replicate (length b) NUL.

(** Offset of the first NUL of the block, if it holds one: what [strlen]
    returns when the string ends inside the block. *)
Fixpoint buf_strlen (b : list ascii) : option nat :=
  match b with
  | [] => None
  | c :: b' => if decide (c = NUL) then Some O else S <$> buf_strlen b'
  end.

(** The C string held by the block. *)
Fixpoint c_str (b : list ascii) : string :=
  match b with
  | [] => EmptyString
  | c :: b' => if decide (c = NUL) then EmptyString else String c (c_str b')
  end.

(** [input[i] = c], checked against the size of the block. *)
Definition buf_write (i : nat) (c : ascii) (b : list ascii)
  : fault + list ascii :=
  if decide (i < length b)%nat
  then inr (<[i := c]> b)
  else inl (OutOfBounds "input" i).

(** [strncat(input, &c, 1)]: find the end of the string in [input], copy
    [c] there unless it is the NUL, then write the terminating NUL. *)
Definition strncat_char (b : list ascii) (c : ascii) : fault + list ascii :=
  match buf_strlen b with
  | None => inl (OutOfBounds "input" (length b))
  | Some l =>
      if decide (c = NUL) then buf_write l NUL b
      else match buf_write l c b with
           | inl e => inl e
           | inr b' => buf_write (S l) NUL b'
           end
  end.

(** [bzero(b, strlen(b))]: the characters of the string held by [b] are
    zeroed; its terminator and what follows it are left as they are. *)
Definition bzero_string (b : list ascii) : fault + list ascii :=
  match buf_strlen b with
  | None => inl (OutOfBounds "my_argv[argNum]" (length b))
  | Some n => inr (replicate n NUL ++ drop n b)
  end.

(** [strncpy(b, tok, strlen(tok))]: the characters of [tok] are copied
    and no terminator is, the count being the length of [tok]. *)
Definition strncpy (b : list ascii) (tok : string) : fault + list ascii :=
  if decide (strlen tok ≤ length b)%nat
  then inr (String.list_ascii_of_string tok ++ drop (strlen tok) b)
  else inl (OutOfBounds "my_argv[argNum]" (length b)).

(** [strncat(b, "\0", 1)]: the source is the empty string.  The end of
    the string held by [b] is looked for, nothing is copied, and the
    terminator is written where it was found. *)
Definition strncat_empty (b : list ascii) : fault + list ascii :=
  match buf_strlen b with
  | None => inl (OutOfBounds "my_argv[argNum]" (length b))
  | Some _ => inr b
  end.

(** ** The argument parser [getArgs] (lines 73-118) *)

(** What the heap holds where [getArgs] allocates: [h i k] is byte [k]
    of the block that [malloc] returns for [my_argv[i]]. *)
Definition heap : Type := nat → nat → ascii.

(** Lines 85-93 (and 102-109): the slot is read; when it is NULL a block
    of [strlen(copy) + 1] bytes is allocated, otherwise the string of the
    old block is zeroed; then [copy] is copied into the block with
    [strncpy] and the block goes through [strncat].  Outside the array the
    read of the slot is out of bounds. *)
Definition store_arg (junk : nat → ascii) (argNum : nat) (copy : string)
    (argv : list (option (list ascii)))
  : fault + list (option (list ascii)) :=
  if decide (argNum < ARGS_MAX)%nat then
    match
      match argv !! argNum with
      | Some (Some old) => bzero_string old
      | _ => inr (malloc_junk junk (strlen copy + 1))
      end
    with
    | inl e => inl e
    | inr b =>
        match strncpy b copy with
        | inl e => inl e
        | inr b1 =>
            match strncat_empty b1 with
            | inl e => inl e
            | inr b2 => inr (<[argNum := Some b2]> argv)
            end
        end
    end
  else inl (OutOfBounds "my_argv" argNum).

(** The loop of lines 82-115.  [toks] is what [strtok] still has to
    return: its head is [tok], and [tok == NULL] is the empty list.  The
    result is the array and the value assigned to [pt]. *)
Fixpoint getArgs_loop (h : heap) (toks : list string) (argNum : nat)
    (argv : list (option (list ascii)))
  : fault + (list (option (list ascii)) * ProcessType) :=
  match toks with
  | [] =>
      (* tok == NULL: the condition is [tok != NULL || argNum >= ARGS_MAX] *)
      if decide (ARGS_MAX ≤ argNum)%nat
      then inl (NullDereference "tok")
      else inr (argv, FORE)
  | tok :: rest =>
      match last_char tok with
      | None => inl (OutOfBounds "tok" 0)
      | Some c =>
          if decide (c ≠ ampersand) then
            match store_arg (h argNum) argNum tok argv with
            | inl e => inl e
            | inr argv' => getArgs_loop h rest (S argNum) argv'
            end
          else if decide (1 < strlen tok)%nat then
            match store_arg (h argNum) argNum (all_but_last tok) argv with
            | inl e => inl e
            | inr argv' => inr (argv', BACK)
            end
          else inr (argv, BACK)
      end
  end.

(** [getArgs(input)] as a function of the heap and of the globals. *)
Definition getArgs (h : heap) (input : string) (g : globals)
  : fault + globals :=
  match getArgs_loop h (strtok input) 0 (my_argv g) with
  | inl e => inl e
  | inr (argv, mode) => inr (set_pt mode (set_my_argv argv g))
  end.

(** The strings [my_argv] points to, as [execvp] is handed them. *)
Definition arg_strings (a : list (option (list ascii)))
  : list (option string) := (λ slot : option (list ascii), c_str <$> slot) <$> a.

(** The argument vector as [execvp] reads it: the entries before the first
    NULL.  Without a NULL inside the array the reader runs off its end. *)
Fixpoint argv_of (a : list (option (list ascii))) : option (list string) :=
  match a with
  | [] => None
  | None :: _ => Some []
  | Some b :: rest => (c_str b ::.) <$> argv_of rest
  end.

(** What one parsed line hands on: the command ([my_argv[0]], copied into
    [cmd] at line 240), the argument vector and the mode. *)
Definition command_line (g : globals)
  : option (string * list string * ProcessType) :=
  match my_argv g !! 0%nat, argv_of (my_argv g) with
  | Some (Some c), Some v => Some (c_str c, v, pt g)
  | _, _ => None
  end.

(** [resetArgs] (lines 150-160): clear slots up to the first NULL, each
    block being zeroed as far as its string and terminator go; if no slot
    is NULL the loop reads [my_argv[ARGS_MAX]]. *)
Fixpoint resetArgs_loop (i : nat) (a : list (option (list ascii)))
  : fault + list (option (list ascii)) :=
  match a with
  | [] => inl (OutOfBounds "my_argv" i)
  | None :: rest => inr (None :: rest)
  | Some b :: rest =>
      match buf_strlen b with
      | None => inl (OutOfBounds "my_argv[i]" (length b))
      | Some _ =>
          match resetArgs_loop (S i) rest with
          | inl e => inl e
          | inr rest' => inr (None :: rest')
          end
      end
  end.

(** [resetArgs()] as a function of the globals. *)
Definition resetArgs (g : globals) : fault + globals :=
  match resetArgs_loop 0 (my_argv g) with
  | inl e => inl e
  | inr a => inr (set_my_argv a g)
  end.

(** ** Library calls and flows *)

Inductive sig : Type := SIGINT | SIGCHLD.
Inductive disposition : Type :=
| SIG_IGN | to_interrupt_handler | to_child_handler.

(** The calls the shell makes.  Each returns an integer to the caller
    (ignored by the shell for all but [fork], [wait] and [chdir]). *)
Inductive call : Type :=
| fork
| execvp (file : string) (argv : list (option string))
| printf (text : string)
| fflush
| exit (status : Z)
| waitpid (pid : Z) (options : Z)
| wait
| kill (pid : Z) (s : sig)
| usleep (us : Z)
| signal (s : sig) (h : disposition)
| chdir (path : string).

(** A flow of control: what the code does next. *)
Inductive prog (A : Type) : Type :=
| Ret (a : A)                              (* return *)
| Crash (e : fault)                        (* undefined behaviour *)
| Sys (c : call) (k : Z → prog A)          (* a call and what follows it *)
| Get (k : globals → prog A)               (* read the globals *)
| Upd (f : globals → globals) (k : prog A) (* write the globals *).
Arguments Ret {A} a.
Arguments Crash {A} e.
Arguments Sys {A} c k.
Arguments Get {A} k.
Arguments Upd {A} f k.

Fixpoint prog_bind {A B} (q : A → prog B) (p : prog A) : prog B :=
  match p with
  | Ret a => q a
  | Crash e => Crash e
  | Sys c k => Sys c (λ r, prog_bind q (k r))
  | Get k => Get (λ g, prog_bind q (k g))
  | Upd f k => Upd f (prog_bind q k)
  end.

#[global] Instance prog_mret : MRet prog := λ A a, Ret a.
#[global] Instance prog_mbind : MBind prog := λ A B q p, prog_bind q p.

Definition sys (c : call) : prog Z := Sys c Ret.
Definition read : prog globals := Get Ret.
Definition modify (f : globals → globals) : prog unit := Upd f (Ret tt).
Definition lift {A} (r : fault + A) : prog A :=
  match r with inl e => Crash e | inr a => Ret a end.

(** A function of [pt] and [my_argv] run inside a flow; [bgProcIDs] is
    left to whoever wrote it last. *)
Definition on_args (f : globals → fault + globals) : prog unit :=
  g ← read;
  g' ← lift (f g);
  modify (λ g0, set_pt (pt g') (set_my_argv (my_argv g') g0)).

Definition nl : string := String newline EmptyString.

(** ** The functions of the shell *)

(** [prompt] (lines 43-46) *)
Definition prompt : prog unit :=
  _ ← sys (printf (prmpt +:+ " ")); Ret tt.

(** [interrupt_handler] (lines 51-55) *)
Definition interrupt_handler : prog unit :=
  _ ← sys (printf (nl +:+ prmpt +:+ " ")); _ ← sys fflush; Ret tt.

(** [child_handler] (lines 61-67), and its two later stages: about to call
    [wait], and about to remove what [wait] returned. *)
Definition child_handler_remove (pid : Z) : prog unit :=
  modify (set_bgProcIDs (list_remove pid)).

Definition child_handler_reap : prog unit :=
  pid ← sys wait;
  child_handler_remove pid.

Definition child_handler : prog unit :=
  _ ← sys (signal SIGCHLD to_child_handler);
  child_handler_reap.

(** [execute] (lines 125-145): the child's branch, the parent's branch,
    and the function. *)
Definition execute_child (cmd : string) : prog unit :=
  g ← read;
  _ ← sys (execvp cmd (arg_strings (my_argv g)));
  _ ← sys (printf (cmd +:+ ": command not found" +:+ nl));
  _ ← sys (exit 1);
  Ret tt.

Definition execute_wait (pid : Z) : prog unit :=
  _ ← sys (waitpid pid 0); Ret tt.

Definition execute_parent (pid : Z) : prog unit :=
  g ← read;
  match pt g with
  | FORE => execute_wait pid
  | BACK => modify (set_bgProcIDs (push_back pid))
  end.

Definition execute (cmd : string) : prog unit :=
  pid ← sys fork;
  if decide (pid = 0) then execute_child cmd
  else if decide (pid > 0) then execute_parent pid
  else Ret tt.

(** [changeDir] (lines 165-174) *)
Definition changeDir : prog unit :=
  g ← read;
  match my_argv g !! 1%nat with
  | None => Crash (OutOfBounds "my_argv" 1)
  | Some None => Ret tt
  | Some (Some b) =>
      let path := c_str b in
      r ← sys (chdir path);
      if decide (r ≠ 0)
      then _ ← sys (printf ("cd: " +:+ path +:+ ": No such file or directory" +:+ nl));
           Ret tt
      else Ret tt
  end.

(** The loop of [killBgProcs] (lines 184-191).  The iterator walks the
    nodes of the live list, and [child_handler] may run between any two of
    its steps.  While the loop runs nodes are only ever unlinked, by
    [remove] in the handler, which erases every node that holds the value:
    a node is still linked exactly when its value is in the list.
    [nodes] are the nodes the iterator has not left yet, as they were
    linked when the loop started, and [linked] is the list as the last
    [++it] (or [begin()]) found it: the iterator stands on the first of
    [nodes] that was linked then.  [*it] and [++it] read that node; when
    the handler has erased it in between, the node was freed and the read
    is a fault. *)
Fixpoint kill_each (nodes linked : list Z) : prog unit :=
  match nodes with
  | [] => Ret tt                                   (* it == end() *)
  | pid :: rest =>
      if decide (pid ∈ linked) then
        g ← read;                                  (* int pid = *it *)
        if decide (pid ∈ bgProcIDs g) then
          _ ← sys (kill pid SIGINT);
          _ ← sys (usleep 1000);
          g' ← read;                               (* ++it *)
          if decide (pid ∈ bgProcIDs g')
          then kill_each rest (bgProcIDs g')
          else Crash (UseAfterFree "bgProcIDs")
        else Crash (UseAfterFree "bgProcIDs")
      else kill_each rest linked    (* unlinked before the iterator came *)
  end.

(** [killBgProcs] (lines 179-195): [begin()], the loop, [clear()]. *)
Definition killBgProcs : prog unit :=
  g ← read;
  _ ← kill_each (bgProcIDs g) (bgProcIDs g);
  modify (set_bgProcIDs list_clear).

(** The built-in dispatch of lines 244-252. *)
Definition dispatch (cmd : string) : prog unit :=
  if decide (cmd = "cd") then changeDir
  else if decide (cmd = "killbg") then killBgProcs
  else if decide (cmd = "exit") then _ ← sys (exit 0); Ret tt
  else execute cmd.

(** [case '\n'] of the input loop (lines 231-258), up to the [bzero] of
    [input].  [cmd] is a zeroed block that receives the string of
    [my_argv[0]]; [h] is the heap [getArgs] allocates from. *)
Definition on_newline (h : heap) (input : list ascii) : prog unit :=
  match input with
  | [] => Crash (OutOfBounds "input" 0)
  | c :: _ =>
      if decide (c = NUL) then prompt
      else
        _ ← on_args (getArgs h (c_str input));
        g ← read;
        match my_argv g !! 0%nat with
        | Some (Some b) =>
            match buf_strlen b with
            | Some _ =>
                _ ← dispatch (c_str b);
                _ ← on_args resetArgs;
                prompt
            | None => Crash (OutOfBounds "my_argv[0]" (length b))
            end
        | _ => Crash (NullDereference "my_argv[0]")
        end
  end.

(** Lines 271-274: leave the loop, print a newline, [return 0]. *)
Definition finish : prog Z :=
  _ ← sys (printf nl); Ret 0.

(** The heaps of the lines to come: [hs 0] is what [getArgs] allocates
    from at the next newline, [later hs] are the heaps after that. *)
Definition later (hs : nat → heap) : nat → heap := λ n, hs (S n).

(** The input loop (lines 225-269) from the point where [getchar] is
    called.  [stdin] is what the terminal still has to deliver; when it is
    used up [getchar] returns [EOF].  The loop test [c != EOF] is made
    after the character was handled. *)
Fixpoint main_loop (hs : nat → heap) (stdin : list ascii)
    (input : list ascii) : prog Z :=
  match stdin with
  | [] =>
      _ ← lift (strncat_char input EOF_char);
      finish
  | c :: rest =>
      if decide (c = newline) then
        _ ← on_newline (hs 0%nat) input;
        main_loop (later hs) rest (bzero input)
      else
        input' ← lift (strncat_char input c);
        if decide (c = EOF_char) then finish else main_loop hs rest input'
  end.

(** [main] (lines 200-275).  [c0] is the value [c] happens to hold when
    the loop test is first made, before anything was assigned to it. *)
Definition main (hs : nat → heap) (c0 : ascii) (stdin : list ascii)
  : prog Z :=
  _ ← modify (set_pt FORE);
  _ ← sys (signal SIGINT SIG_IGN);
  _ ← sys (signal SIGINT to_interrupt_handler);
  _ ← sys (signal SIGCHLD SIG_IGN);
  _ ← sys (signal SIGCHLD to_child_handler);
  _ ← execute "clear";
  _ ← prompt;
  _ ← sys fflush;
  if decide (c0 = EOF_char) then finish
  else main_loop hs stdin (malloc CHARS_MAX).

(** ** The kernel's view of the shell process *)

(** A child that was forked and not yet waited for is either running or a
    zombie holding its exit status. *)
Inductive pstatus : Type := Running | Zombie (status : Z).

(** What became of the process itself. *)
Inductive life : Type :=
| Alive
| Exited (status : Z)
| Execed (file : string) (argv : list (option string)).

Record os_state : Type := OS {
  children : gmap Z pstatus;     (* forked, not yet waited for *)
  pending : bool;                (* a SIGCHLD is pending *)
  stdout : list string;          (* what was printed, oldest first *)
  signalled : list (Z * sig);    (* the [kill] requests made *)
  in_child : bool;               (* the process is a forked copy *)
  fate : life
}.

Definition set_children (f : gmap Z pstatus → gmap Z pstatus) (o : os_state) :=
  OS (f (children o)) (pending o) (stdout o) (signalled o) (in_child o) (fate o).
Definition set_pending (b : bool) (o : os_state) :=
  OS (children o) b (stdout o) (signalled o) (in_child o) (fate o).
Definition add_stdout (t : string) (o : os_state) :=
  OS (children o) (pending o) (stdout o ++ [t]) (signalled o) (in_child o) (fate o).
Definition add_signalled (p : Z) (s : sig) (o : os_state) :=
  OS (children o) (pending o) (stdout o) (signalled o ++ [(p, s)]) (in_child o) (fate o).
Definition set_fate (l : life) (o : os_state) :=
  OS (children o) (pending o) (stdout o) (signalled o) (in_child o) l.
(** The forked copy: no children of its own, no pending signal, the same
    terminal. *)
Definition as_child (o : os_state) :=
  OS ∅ false (stdout o) (signalled o) true (fate o).

Definition os0 : os_state := OS ∅ false [] [] false Alive.

Definition is_zombie (s : pstatus) : bool :=
  match s with Zombie _ => true | Running => false end.

(** The children that have terminated and wait to be reaped. *)
Definition zombies (o : os_state) : gset Z :=
  dom (filter (λ kv, is_zombie kv.2 = true) (children o)).

(** [os_call o c r]: the state after call [c] returned [r], or [None] when
    [c] cannot return [r] in state [o] (in particular when it blocks).
    - [fork] returns 0 in the copy, a process id that no unreaped child
      holds in the parent, or -1;
    - [execvp] returns -1, or does not return (written as 0);
    - [waitpid(pid, NULL, 0)] returns [pid] once that child is a zombie,
      -1 if there is no such child, and blocks while it runs;
    - [wait(NULL)] returns some zombie, -1 if there is no child at all, and
      blocks while all children run. *)
Definition os_call (o : os_state) (c : call) (r : Z) : option os_state :=
  match c with
  | fork =>
      if decide (r = 0) then Some (as_child o)
      else if decide (0 < r) then
        match children o !! r with
        | None => Some (set_children <[r := Running]> o)
        | Some _ => None
        end
      else if decide (r = -1) then Some o
      else None
  | execvp file argv =>
      if decide (r = -1) then Some o
      else if decide (r = 0) then Some (set_fate (Execed file argv) o)
      else None
  | printf text =>
      if decide (r = Z.of_nat (strlen text)) then Some (add_stdout text o)
      else None
  | fflush => if decide (r = 0) then Some o else None
  | exit status =>
      if decide (r = 0) then Some (set_fate (Exited status) o) else None
  | waitpid pid options =>
      if decide (options = 0) then
        match children o !! pid with
        | Some (Zombie _) =>
            if decide (r = pid) then Some (set_children (delete pid) o)
            else None
        | Some Running => None
        | None => if decide (r = -1) then Some o else None
        end
      else None
  | wait =>
      match children o !! r with
      | Some (Zombie _) => Some (set_children (delete r) o)
      | Some Running => None
      | None =>
          if decide (r = -1 ∧ children o = ∅) then Some o else None
      end
  | kill pid s =>
      if decide (r = 0 ∨ r = -1) then Some (add_signalled pid s o) else None
  | usleep _ => if decide (r = 0 ∨ r = -1) then Some o else None
  | signal _ _ => Some o
  | chdir _ => if decide (r = 0 ∨ r = -1) then Some o else None
  end.

(** ** The machine *)

(** One step of a flow: a call returning [r], an access to the globals, or
    the return of the handler. *)
Inductive action : Type := ASys (r : Z) | AMem | ARet.

(** What can happen next: a running child terminates, the pending SIGCHLD
    is delivered, the main flow steps, the handler steps. *)
Inductive event : Type :=
| EExit (pid status : Z)
| EDeliver
| EMain (a : action)
| EHandler (a : action).

Record config (A : Type) : Type := Config {
  os : os_state;
  mem : globals;
  flow : prog A;                   (* the main flow *)
  handler : option (prog unit)     (* [child_handler], while it runs *)
}.
Arguments Config {A} os mem flow handler.
Arguments os {A} c.
Arguments mem {A} c.
Arguments flow {A} c.
Arguments handler {A} c.

(** A call that ends the process leaves the flow where it is. *)
Definition flow_step {A} (p : prog A) (a : action) (o : os_state) (g : globals)
  : option (prog A * os_state * globals) :=
  match p, a with
  | Sys c k, ASys r =>
      match os_call o c r with
      | Some o' =>
          Some (match fate o' with Alive => k r | _ => p end, o', g)
      | None => None
      end
  | Get k, AMem => Some (k g, o, g)
  | Upd f k, AMem => Some (k, o, f g)
  | _, _ => None
  end.

(** The handler runs to its end before the main flow resumes, and SIGCHLD
    is held back while it runs; several terminations before a delivery
    leave one pending signal. *)
Definition step {A} (c : config A) (e : event) : option (config A) :=
  match fate (os c) with
  | Alive =>
      match e with
      | EExit p st =>
          match children (os c) !! p with
          | Some Running =>
              Some (Config
                      (set_pending true
                         (set_children <[p := Zombie st]> (os c)))
                      (mem c) (flow c) (handler c))
          | _ => None
          end
      | EDeliver =>
          match pending (os c), handler c with
          | true, None =>
              Some (Config (set_pending false (os c)) (mem c) (flow c)
                      (Some child_handler))
          | _, _ => None
          end
      | EMain a =>
          match handler c with
          | None =>
              match flow_step (flow c) a (os c) (mem c) with
              | Some (p, o, g) => Some (Config o g p None)
              | None => None
              end
          | Some _ => None
          end
      | EHandler a =>
          match handler c with
          | Some (Ret _) =>
              match a with
              | ARet => Some (Config (os c) (mem c) (flow c) None)
              | _ => None
              end
          | Some h =>
              match flow_step h a (os c) (mem c) with
              | Some (h', o, g) => Some (Config o g (flow c) (Some h'))
              | None => None
              end
          | None => None
          end
      end
  | _ => None
  end.

Fixpoint run {A} (c : config A) (evs : list event) : option (config A) :=
  match evs with
  | [] => Some c
  | e :: evs' =>
      match step c e with
      | Some c' => run c' evs'
      | None => None
      end
  end.

(** The status the shell process ends with: the argument of [exit], or the
    value [main] returns. *)
Definition exit_code (c : config Z) : option Z :=
  match fate (os c), flow c with
  | Exited s, _ => Some s
  | Alive, Ret v => Some v
  | _, _ => None
  end.

(** The shell about to run [p], nothing else going on. *)
Definition start {A} (o : os_state) (g : globals) (p : prog A) : config A :=
  Config o g p None.

(** ** Histories of jobs *)

(** The events of the life of the job table, each one a run of the
    machine on the code above:
    - a line [cmd &] was executed and [fork] returned [pid];
    - a line [cmd] was executed in the foreground, [fork] returned [pid],
      the child ended with [status] and [waitpid] collected it;
    - the child [pid] terminated;
    - SIGCHLD was delivered and [wait] returned [pid] in [child_handler]. *)
Inductive job_event : Type :=
| Spawned (cmd : string) (pid : Z)
| RanForeground (cmd : string) (pid status : Z)
| ChildExit (pid status : Z)
| Reaped (pid : Z).

(** One invocation of [child_handler] in which [wait] returns [r]. *)
Definition handler_events (r : Z) : list event :=
  [EDeliver; EHandler (ASys 0); EHandler (ASys r); EHandler AMem;
   EHandler ARet].

(** [execute cmd] called with [pt = mode], as [getArgs] left it. *)
Definition call_execute (mode : ProcessType) (cmd : string) (c : config unit)
  : config unit :=
  Config (os c) (set_pt mode (mem c)) (execute cmd) (handler c).

Definition job_step (c : config unit) (j : job_event) : option (config unit) :=
  match j with
  | Spawned cmd pid =>
      run (call_execute BACK cmd c) [EMain (ASys pid); EMain AMem; EMain AMem]
  | RanForeground cmd pid status =>
      run (call_execute FORE cmd c)
        [EMain (ASys pid); EMain AMem; EExit pid status; EMain (ASys pid)]
  | ChildExit pid status => step c (EExit pid status)
  | Reaped pid => run c (handler_events pid)
  end.

Fixpoint job_run (c : config unit) (js : list job_event)
  : option (config unit) :=
  match js with
  | [] => Some c
  | j :: js' =>
      match job_step c j with
      | Some c' => job_run c' js'
      | None => None
      end
  end.

(** The shell at start-up, idle. *)
Definition shell0 : config unit := start os0 globals0 (Ret tt).


(** Three background jobs, all of which terminated before the one pending
    SIGCHLD was delivered. *)
Definition three_exits : list job_event :=
  [Spawned "a" 3; Spawned "b" 4; Spawned "c" 5;
   ChildExit 3 0; ChildExit 4 0; ChildExit 5 0].

Definition three_zombies : config unit :=
  Config
    (OS (<[5 := Zombie 0]> (<[4 := Zombie 0]> (<[3 := Zombie 0]> ∅)))
       true [] [] false Alive)
    (Globals BACK [3; 4; 5] (replicate ARGS_MAX None))
    (Ret tt) None.

(** The [input] buffer holding the line [s]. *)
Definition buffer_of (s : string) : list ascii :=
  take CHARS_MAX (String.list_ascii_of_string s ++ malloc CHARS_MAX).

(** The termination requests of [killBgProcs] on the table [l], and the
    state of the kernel once they are made. *)
Definition requests (l : list Z) : list (Z * sig) := (λ p, (p, SIGINT)) <$> l.
Definition requested (l : list Z) (o : os_state) : os_state :=
  foldl (λ o p, add_signalled p SIGINT o) o l.

(** The events of an uninterrupted loop of [killBgProcs] in which every
    [kill] and every [usleep] returns 0: for each node [*it], [kill],
    [usleep] and [++it]. *)
Definition kill_events (l : list Z) : list event :=
  l ≫= λ _, [EMain AMem; EMain (ASys 0); EMain (ASys 0); EMain AMem].



(** ** Notions used in the statements *)

Definition is_main (e : event) : Prop :=
  match e with EMain _ => True | _ => False end.

(** The stages [child_handler] goes through. *)
Definition handler_stage (h : option (prog unit)) : Prop :=
  match h with
  | None => True
  | Some p =>
      p = child_handler ∨ p = child_handler_reap ∨
      (∃ r, p = child_handler_remove r) ∨ p = Ret tt
  end.

(** No entry of the job table is stale: each one is a child that was not
    waited for yet. *)
Definition no_stale {A} (c : config A) : Prop :=
  ∀ h, h ∈ bgProcIDs (mem c) → is_Some (children (os c) !! h).


(** The steps the main flow took in a sequence of events. *)
Definition main_actions (evs : list event) : list action :=
  omap (λ e, match e with EMain a => Some a | _ => None end) evs.

(** Invariant of a foreground [execute] after [fork] returned [p]; [seen]
    are the events since then.  Until [waitpid] has returned the child
    runs or its termination was seen; afterwards it is reaped. *)
Definition fg_inv (p : Z) (seen : list event) (c : config unit) : Prop :=
  handler_stage (handler c) ∧ pt (mem c) = FORE ∧
  (((flow c = execute_parent p ∨ flow c = execute_wait p) ∧
    (children (os c) !! p = Some Running ∨ ∃ st, EExit p st ∈ seen))
   ∨ (flow c = Ret tt ∧ children (os c) !! p = None ∧
      ∃ st, EExit p st ∈ seen)).

(** Invariant of a background [execute] after [fork] returned [p]. *)
Definition bg_inv (p : Z) (seen : list event) (c : config unit) : Prop :=
  handler_stage (handler c) ∧ pt (mem c) = BACK ∧
  ((flow c = execute_parent p ∧ main_actions seen = [])
   ∨ (flow c = modify (set_bgProcIDs (push_back p)) ∧
      main_actions seen = [AMem])
   ∨ (flow c = Ret tt ∧ main_actions seen = [AMem; AMem])).

(** Every entry of the job table is an unreaped child, except the one the
    handler is about to remove. *)
Definition stale_only_in_removal {A} (c : config A) : Prop :=
  ∀ x, x ∈ bgProcIDs (mem c) →
       is_Some (children (os c) !! x) ∨
       handler c = Some (child_handler_remove x).

(** Invariant of a background [execute] once [p] is registered: what the
    handler is about to remove was reaped, and [p] is in the table as long
    as it is an unreaped child. *)
Definition registered_inv (p : Z) (c : config unit) : Prop :=
  handler_stage (handler c) ∧ flow c = Ret tt ∧
  stale_only_in_removal c ∧
  (∀ r, handler c = Some (child_handler_remove r) →
        children (os c) !! r = None) ∧
  (is_Some (children (os c) !! p) → p ∈ bgProcIDs (mem c)).



(** A character of a line of text: not the NUL, not the newline that ends
    the line, not the byte that reads as [EOF]. *)
Definition text_char (c : ascii) : Prop :=
  c ≠ NUL ∧ c ≠ newline ∧ c ≠ EOF_char.

(** A token that does not end in the background marker. *)
Definition plain (tok : string) : Prop := last_char tok ≠ Some ampersand.

(** The block that holds the string [s] and its terminator, and nothing
    else. *)
Definition str_block (s : string) : list ascii :=
  String.list_ascii_of_string s ++ [NUL].

(** The heap is clean for the arguments [args]: the block allocated for
    each of them has the NUL where the terminator of the argument goes. *)
Definition clean (h : heap) (args : list string) : Prop :=
  ∀ i a, args !! i = Some a → h i (strlen a) = NUL.

(** A heap that was not used yet. *)
Definition zeroed : heap := λ _ _, NUL.

(** A heap of recycled blocks, none of whose bytes is zero: what [malloc]
    hands out again after the nodes of [bgProcIDs] were released. *)
Definition recycled : heap := λ _ _, "005"%char.

(** A string that memory can hold as a C string: no NUL inside. *)
Definition c_string (s : string) : Prop :=
  NUL ∉ String.list_ascii_of_string s.


(** ** Further notions *)

(** [my_argv] with every slot NULL, as static initialisation and
    [resetArgs] leave it. *)
Definition no_args : list (option (list ascii)) := replicate ARGS_MAX None.

(** [my_argv] holding [args] in its first slots and NULL in the others. *)
Definition holding (args : list string) : list (option (list ascii)) :=
  (Some ∘ str_block <$> args) ++ replicate (ARGS_MAX - length args) None.

(** The arguments a marker token [body&] contributes. *)
Definition marker_arg (body : string) : list string :=
  if decide (body = EmptyString) then [] else [body].

(** What a line of tokens asks for: as arguments the tokens before the
    first one that ends in '&', then that token without its marker unless
    it is the marker alone; and the mode. *)
Fixpoint line_args (toks : list string) : list string * ProcessType :=
  match toks with
  | [] => ([], FORE)
  | t :: rest =>
      if decide (last_char t = Some ampersand)
      then (marker_arg (all_but_last t), BACK)
      else (t :: (line_args rest).1, (line_args rest).2)
  end.

(** The configuration [c] when what its main flow runs is followed by
    [K]. *)
Definition followed_by {A B} (K : A → prog B) (c : config A) : config B :=
  Config (os c) (mem c) (prog_bind K (flow c)) (handler c).

(** What follows [dispatch] in the newline case: lines 254-255. *)
Definition after_dispatch : unit → prog unit :=
  λ _, _ ← on_args resetArgs; prompt.

(** The names of the built-in commands. *)
Definition builtin (cmd : string) : Prop :=
  cmd = "cd" ∨ cmd = "killbg" ∨ cmd = "exit".

(** The steps of the newline case up to the dispatch: [getArgs] reads and
    writes the globals, then [my_argv[0]] is read. *)
Definition parse_events : list event := [EMain AMem; EMain AMem; EMain AMem].

(** The steps after the dispatch: [resetArgs] reads and writes the
    globals, [prompt] prints. *)
Definition wrapup_events : list event :=
  [EMain AMem; EMain AMem; EMain (ASys (Z.of_nat (strlen (prmpt +:+ " "))))].

(** What [changeDir] prints when [chdir] fails. *)
Definition cd_failed (path : string) : string :=
  "cd: " +:+ path +:+ ": No such file or directory" +:+ nl.

(** The call the main flow makes when the event [e] happens in [c]. *)
Definition call_at {A} (c : config A) (e : event) : list call :=
  match e, handler c, flow c with
  | EMain (ASys _), None, Sys cl _ => [cl]
  | _, _, _ => []
  end.

(** The calls the main flow makes along a run, in order. *)
Fixpoint calls_made {A} (c : config A) (evs : list event) : list call :=
  match evs with
  | [] => []
  | e :: evs' =>
      match step c e with
      | Some c' => call_at c e ++ calls_made c' evs'
      | None => []
      end
  end.

(** Every call [p] makes satisfies [P]: in the process that called [p]
    and, when [everywhere] is set, in its forked copies too. *)
Fixpoint calls {A} (everywhere : bool) (P : call → Prop) (p : prog A) : Prop :=
  match p with
  | Ret _ => True
  | Crash _ => True
  | Sys c k =>
      P c ∧
      match c with
      | exit _ => True
      | fork => ∀ r, everywhere = true ∨ r ≠ 0 → calls everywhere P (k r)
      | _ => ∀ r, calls everywhere P (k r)
      end
  | Get k => ∀ g, calls everywhere P (k g)
  | Upd _ k => calls everywhere P k
  end.

Definition is_kill (c : call) : Prop :=
  match c with kill _ _ => True | _ => False end.
Definition is_execvp (c : call) : Prop :=
  match c with execvp _ _ => True | _ => False end.
Definition is_fork (c : call) : Prop :=
  match c with fork => True | _ => False end.

(** Invariant of a run whose main flow makes calls in [P] only, for a
    property [I] of the kernel's state. *)
Definition calls_inv {A} (everywhere : bool) (P : call → Prop)
    (I : os_state → Prop) (c : config A) : Prop :=
  (everywhere = false ∧ in_child (os c) = true) ∨
  (handler_stage (handler c) ∧ calls everywhere P (flow c) ∧ I (os c)).

(** The process still runs the program it was started with. *)
Definition image_kept (o : os_state) : Prop :=
  match fate o with Execed _ _ => False | _ => True end.

(** No child has terminated without being waited for. *)
Definition none_reapable (o : os_state) : Prop :=
  ∀ p st, children o !! p ≠ Some (Zombie st).

(** The steps of [main] up to the first test of the loop: [pt] is set,
    the four dispositions are installed, [clear] is run in the foreground
    as child [p] ending with [st] and collected by [waitpid], its SIGCHLD
    is delivered as [waitpid] returns and [child_handler] finds no child
    to wait for, the prompt is printed and flushed. *)
Definition startup_events (p st : Z) : list event :=
  [EMain AMem; EMain (ASys 0); EMain (ASys 0); EMain (ASys 0);
   EMain (ASys 0); EMain (ASys p); EMain AMem; EExit p st; EMain (ASys p)] ++
  handler_events (-1) ++
  [EMain (ASys (Z.of_nat (strlen (prmpt +:+ " ")))); EMain (ASys 0)].

(** The same steps in the forked copy, up to the return of [execvp]. *)
Definition startup_child_events : list event :=
  [EMain AMem; EMain (ASys 0); EMain (ASys 0); EMain (ASys 0);
   EMain (ASys 0); EMain (ASys 0); EMain AMem; EMain (ASys 0)].

(** * Properties *)

(** ** Strings and tokens *)

Section strings.
Implicit Types (s tok : string) (c : ascii).

Lemma strlen_snoc s c : strlen (s +:+ String c EmptyString) = S (strlen s).
Proof.
  unfold strlen. induction s as [|a s IH]; [done|].
  change (String a s +:+ String c EmptyString)
    with (String a (s +:+ String c EmptyString)).
  cbn [String.length]. by rewrite IH.
Qed.

Lemma get_snoc s c :
  String.get (strlen s) (s +:+ String c EmptyString) = Some c.
Proof.
  unfold strlen. induction s as [|a s IH]; [done|].
  change (String a s +:+ String c EmptyString)
    with (String a (s +:+ String c EmptyString)).
  cbn [String.length String.get]. exact IH.
Qed.

Lemma last_char_snoc s c : last_char (s +:+ String c EmptyString) = Some c.
Proof. unfold last_char. rewrite strlen_snoc. apply get_snoc. Qed.

Lemma all_but_last_snoc s c : all_but_last (s +:+ String c EmptyString) = s.
Proof.
  unfold all_but_last. rewrite strlen_snoc.
  replace (S (strlen s) - 1)%nat with (strlen s) by lia.
  unfold strlen. induction s as [|a s IH]; [done|].
  change (String a s +:+ String c EmptyString)
    with (String a (s +:+ String c EmptyString)).
  cbn [String.length String.substring]. by rewrite IH.
Qed.

Lemma last_char_nonempty tok : tok ≠ EmptyString → is_Some (last_char tok).
Proof.
  unfold last_char, strlen. intros Hne.
  assert (∀ s a, is_Some (String.get (String.length s) (String a s))) as H.
  { intros s. induction s as [|b s IH]; intros a; [by eexists|].
    cbn [String.length]. apply (IH b). }
  destruct tok as [|a s]; [done|]. cbn [String.length]. apply H.
Qed.

(** [strtok] never returns an empty token. *)
Lemma strtok_from_nonempty s tok t :
  t ∈ strtok_from tok s → t ≠ EmptyString.
Proof.
  revert tok. induction s as [|a s IH]; intros tok; cbn [strtok_from].
  - destruct tok; [by intros ?%elem_of_nil|].
    intros ->%list_elem_of_singleton. done.
  - destruct (Ascii.eqb a NUL).
    { destruct tok; [by intros ?%elem_of_nil|].
      intros ->%list_elem_of_singleton. done. }
    destruct (Ascii.eqb a space).
    + destruct tok; [apply IH|].
      intros [->|?]%elem_of_cons; [done|by eapply IH].
    + intros Ht. eapply IH, Ht.
Qed.

Lemma strtok_last_char input t :
  t ∈ strtok input → is_Some (last_char t).
Proof. intros H. eapply last_char_nonempty, strtok_from_nonempty, H. Qed.
End strings.

(** ** The argument parser *)

Section parser.
Context (h : heap).
Implicit Types (toks pre rest : list string) (t : string).
Implicit Types (argv filled : list (option (list ascii))).

Lemma list_ascii_snoc t c :
  String.list_ascii_of_string (t +:+ String c EmptyString) =
    String.list_ascii_of_string t ++ [c].
Proof. induction t as [|a t IH]; [done|]. cbn. by rewrite <-IH. Qed.

Lemma list_ascii_length t :
  length (String.list_ascii_of_string t) = strlen t.
Proof. unfold strlen. induction t as [|a t IH]; [done|]. cbn. by rewrite IH. Qed.

Lemma c_string_snoc t c : c_string t → c ≠ NUL → c_string (t +:+ String c EmptyString).
Proof.
  unfold c_string. rewrite list_ascii_snoc. intros Ht Hc Hin.
  apply elem_of_app in Hin as [?|Hin]; [done|].
  apply list_elem_of_singleton in Hin. by apply Hc.
Qed.

(** [strtok] returns strings without NUL. *)
Lemma strtok_from_c_string s tok t :
  c_string tok → t ∈ strtok_from tok s → c_string t.
Proof.
  revert tok. induction s as [|a s IH]; intros tok Htok; cbn [strtok_from].
  - destruct tok; [by intros ?%elem_of_nil|].
    by intros ->%list_elem_of_singleton.
  - destruct (Ascii.eqb_spec a NUL) as [->|Ha].
    { destruct tok; [by intros ?%elem_of_nil|].
      by intros ->%list_elem_of_singleton. }
    assert (c_string EmptyString) as He by (by intros ?%elem_of_nil).
    destruct (Ascii.eqb a space).
    + destruct tok; [by apply IH|].
      intros [->|?]%elem_of_cons; [done|by eapply IH].
    + apply IH. by apply c_string_snoc.
Qed.

Lemma strtok_c_string input t : t ∈ strtok input → c_string t.
Proof. apply strtok_from_c_string. by intros ?%elem_of_nil. Qed.

(** A string without NUL at the head of a block. *)
Lemma buf_strlen_c_string t (tl : list ascii) :
  c_string t →
  buf_strlen (String.list_ascii_of_string t ++ tl) =
    (λ k, strlen t + k)%nat <$> buf_strlen tl.
Proof.
  unfold c_string, strlen. induction t as [|a t IH]; intros Ht.
  - cbn. by destruct (buf_strlen tl).
  - cbn in *. apply not_elem_of_cons in Ht as [Ha Ht].
    rewrite decide_False by done. rewrite IH by done.
    by destruct (buf_strlen tl).
Qed.

Lemma c_str_c_string t (tl : list ascii) :
  c_string t →
  c_str (String.list_ascii_of_string t ++ tl) = t +:+ c_str tl.
Proof.
  unfold c_string. induction t as [|a t IH]; intros Ht; [done|].
  cbn in *. apply not_elem_of_cons in Ht as [Ha Ht].
  rewrite decide_False by done. by rewrite IH.
Qed.

Lemma buf_strlen_str_block t :
  c_string t → buf_strlen (str_block t) = Some (strlen t).
Proof.
  intros Ht. unfold str_block. rewrite buf_strlen_c_string by done.
  cbn. rewrite decide_True by done. cbn. f_equal. lia.
Qed.

Lemma append_empty t : t +:+ EmptyString = t.
Proof.
  induction t as [|a t IH]; [done|].
  change (String a t +:+ EmptyString) with (String a (t +:+ EmptyString)).
  by rewrite IH.
Qed.

Lemma c_str_str_block t : c_string t → c_str (str_block t) = t.
Proof.
  intros Ht. unfold str_block. rewrite c_str_c_string by done.
  cbn. rewrite decide_True by done. apply append_empty.
Qed.

Lemma malloc_junk_last (junk : nat → ascii) n :
  drop n (malloc_junk junk (n + 1)) = [junk n].
Proof.
  unfold malloc_junk. rewrite seq_app, fmap_app, drop_app_length'.
  - done.
  - by rewrite length_fmap, length_seq.
Qed.

(** Storing into a slot that is NULL: the block is allocated with room for
    the string and its terminator, the string is copied, and the byte
    that ends the block is the one the heap had there.  When it is not the
    NUL the string does not end inside the block. *)
Lemma store_arg_fresh junk n t argv :
  (n < ARGS_MAX)%nat → argv !! n = Some None → c_string t →
  store_arg junk n t argv =
    if decide (junk (strlen t) = NUL)
    then inr (<[n := Some (str_block t)]> argv)
    else inl (OutOfBounds "my_argv[argNum]" (S (strlen t))).
Proof.
  intros Hn Hslot Ht. unfold store_arg. rewrite decide_True by done.
  rewrite Hslot. unfold strncpy.
  assert (length (malloc_junk junk (strlen t + 1)) = S (strlen t)) as Hlen.
  { unfold malloc_junk. rewrite length_fmap, length_seq. lia. }
  rewrite decide_True by lia. rewrite malloc_junk_last.
  unfold strncat_empty. rewrite buf_strlen_c_string by done. cbn.
  case_decide as Hj.
  - cbn. unfold str_block. by rewrite Hj.
  - cbn. by rewrite length_app, list_ascii_length, Nat.add_1_r.
Qed.

Lemma store_arg_outside junk n t argv :
  (ARGS_MAX ≤ n)%nat →
  store_arg junk n t argv = inl (OutOfBounds "my_argv" n).
Proof. intros. unfold store_arg. rewrite decide_False; [done|lia]. Qed.

(** The faults of a store: the slot is outside the array, or the string
    of a block does not end inside it, or the block is too small. *)
Lemma store_arg_faults junk n t argv e :
  store_arg junk n t argv = inl e →
  ((ARGS_MAX ≤ n)%nat ∧ e = OutOfBounds "my_argv" n)
  ∨ ((n < ARGS_MAX)%nat ∧ ∃ k, e = OutOfBounds "my_argv[argNum]" k).
Proof.
  unfold store_arg. case_decide as Hn; [|intros [= <-]; left; split; [lia|done]].
  intros He. right. split; [done|].
  unfold bzero_string, strncpy, strncat_empty in He.
  repeat (case_match; simplify_eq); by eexists.
Qed.

Lemma store_arg_inside junk n t argv argv' :
  store_arg junk n t argv = inr argv' → (n < ARGS_MAX)%nat.
Proof. unfold store_arg. by case_decide. Qed.

(** A plain token is stored and the loop goes on with the next one. *)
Lemma getArgs_loop_plain_cons t rest n argv :
  is_Some (last_char t) → plain t →
  getArgs_loop h (t :: rest) n argv =
    match store_arg (h n) n t argv with
    | inl e => inl e
    | inr argv' => getArgs_loop h rest (S n) argv'
    end.
Proof.
  intros [c Hc] Hp. cbn [getArgs_loop]. rewrite Hc.
  rewrite decide_True; [done|]. intros ->. by apply Hp.
Qed.

(** Plain tokens stored into slots that are NULL, on a heap that is clean
    for them. *)
Lemma getArgs_loop_plain filled pre rest k :
  Forall (λ t, is_Some (last_char t) ∧ plain t ∧ c_string t) pre →
  (length pre ≤ k)%nat → (length filled + length pre ≤ ARGS_MAX)%nat →
  (∀ i a, pre !! i = Some a → h (length filled + i)%nat (strlen a) = NUL) →
  getArgs_loop h (pre ++ rest) (length filled) (filled ++ replicate k None) =
    getArgs_loop h rest (length filled + length pre)
      ((filled ++ (Some ∘ str_block <$> pre))
         ++ replicate (k - length pre) None).
Proof.
  revert filled k. induction pre as [|t pre IH]; intros filled k Hpre Hk Hlen Hh.
  - cbn. by rewrite !app_nil_r, Nat.add_0_r, Nat.sub_0_r.
  - apply Forall_cons in Hpre as [(Ht1 & Ht2 & Ht3) Hpre].
    cbn [length] in Hk, Hlen. destruct k as [|k]; [lia|].
    rewrite <-app_comm_cons, getArgs_loop_plain_cons by done.
    rewrite store_arg_fresh; [|lia| |done].
    2:{ rewrite lookup_app_r, Nat.sub_diag by lia. done. }
    pose proof (Hh 0%nat t eq_refl) as H0. rewrite Nat.add_0_r in H0.
    rewrite decide_True by done.
    replace (<[length filled := Some (str_block t)]>
               (filled ++ replicate (S k) None))
      with ((filled ++ [Some (str_block t)]) ++ replicate k None).
    2:{ rewrite insert_app_r_alt by lia. rewrite Nat.sub_diag. cbn.
        by rewrite <-app_assoc. }
    replace (S (length filled)) with (length (filled ++ [Some (str_block t)]))
      by (rewrite length_app; cbn; lia).
    rewrite IH; [|done|lia|rewrite length_app; cbn; lia|].
    + rewrite length_app. cbn [length fmap list_fmap].
      rewrite <-!app_assoc. cbn [app Nat.sub]. f_equal. lia.
    + intros i a Hi. rewrite length_app. cbn [length].
      replace (length filled + 1 + i)%nat with (length filled + S i)%nat by lia.
      by apply Hh.
Qed.

(** The first plain token whose block the heap left without NUL at the
    place of the terminator: its string runs past the block. *)
Lemma getArgs_loop_dirty filled t rest k :
  is_Some (last_char t) → plain t → c_string t →
  (length filled < ARGS_MAX)%nat →
  h (length filled) (strlen t) ≠ NUL →
  getArgs_loop h (t :: rest) (length filled) (filled ++ replicate (S k) None) =
    inl (OutOfBounds "my_argv[argNum]" (S (strlen t))).
Proof.
  intros Ht1 Ht2 Ht3 Hlen Hh. rewrite getArgs_loop_plain_cons by done.
  rewrite store_arg_fresh; [|lia| |done].
  - by rewrite decide_False.
  - rewrite lookup_app_r, Nat.sub_diag by lia. done.
Qed.

Lemma argv_of_terminated toks (tail : list (option (list ascii))) :
  Forall c_string toks →
  argv_of ((Some ∘ str_block <$> toks) ++ None :: tail) = Some toks.
Proof.
  induction 1 as [|t toks Ht _ IH]; [done|]. cbn.
  by rewrite IH, c_str_str_block.
Qed.

Lemma strtok_plain_prefix input pre rest :
  strtok input = pre ++ rest → Forall plain pre →
  Forall (λ t, is_Some (last_char t) ∧ plain t ∧ c_string t) pre.
Proof.
  intros Htok Hp. apply Forall_forall. intros t Ht.
  assert (t ∈ strtok input) as Hin by (rewrite Htok; apply elem_of_app; by left).
  split; [by apply (strtok_last_char input)|]. split.
  - rewrite Forall_forall in Hp. by apply Hp.
  - by apply (strtok_c_string input).
Qed.

Lemma getArgs_loop_marker body post n argv :
  getArgs_loop h ((body +:+ "&") :: post) n argv =
    if decide (body = EmptyString) then inr (argv, BACK)
    else match store_arg (h n) n body argv with
         | inl e => inl e
         | inr argv' => inr (argv', BACK)
         end.
Proof.
  cbn [getArgs_loop]. rewrite last_char_snoc.
  rewrite decide_False by (intros H; by apply H).
  rewrite strlen_snoc, all_but_last_snoc.
  destruct body as [|a body]; [done|].
  rewrite decide_True by (unfold strlen; cbn; lia). by rewrite decide_False.
Qed.

(** However the stores fare, more than [ARGS_MAX - n] plain tokens from
    slot [n] on end in a fault. *)
Lemma getArgs_loop_over toks : ∀ n argv,
  (n ≤ ARGS_MAX)%nat →
  Forall (λ t, is_Some (last_char t) ∧ plain t)
    (take (S (ARGS_MAX - n)) toks) →
  (ARGS_MAX - n < length toks)%nat →
  getArgs_loop h toks n argv = inl (OutOfBounds "my_argv" ARGS_MAX)
  ∨ ∃ k, getArgs_loop h toks n argv = inl (OutOfBounds "my_argv[argNum]" k).
Proof.
  induction toks as [|t toks IH]; intros n argv Hn Hp Hlen.
  { cbn [length] in Hlen. lia. }
  cbn [take] in Hp. apply Forall_cons in Hp as [[Ht1 Ht2] Hp].
  rewrite getArgs_loop_plain_cons by done.
  destruct (store_arg (h n) n t argv) as [e|argv'] eqn:Hs.
  - apply store_arg_faults in Hs as [[Hge ->]|[_ [k ->]]]; [left|right; by eexists].
    by replace n with ARGS_MAX by lia.
  - apply store_arg_inside in Hs. cbn [length] in Hlen.
    apply IH; [lia| |lia].
    by replace (S (ARGS_MAX - S n)) with (ARGS_MAX - n)%nat by lia.
Qed.

(** And exactly [ARGS_MAX - n] of them too. *)
Lemma getArgs_loop_full toks : ∀ n argv,
  (n ≤ ARGS_MAX)%nat →
  Forall (λ t, is_Some (last_char t) ∧ plain t) toks →
  length toks = (ARGS_MAX - n)%nat →
  getArgs_loop h toks n argv = inl (NullDereference "tok")
  ∨ ∃ k, getArgs_loop h toks n argv = inl (OutOfBounds "my_argv[argNum]" k).
Proof.
  induction toks as [|t toks IH]; intros n argv Hn Hp Hlen.
  { cbn [length] in Hlen. left. cbn [getArgs_loop].
    rewrite decide_True; [done|lia]. }
  apply Forall_cons in Hp as [[Ht1 Ht2] Hp]. cbn [length] in Hlen.
  rewrite getArgs_loop_plain_cons by done.
  destruct (store_arg (h n) n t argv) as [e|argv'] eqn:Hs.
  - apply store_arg_faults in Hs as [[Hge ->]|[_ [k ->]]]; [lia|right; by eexists].
  - apply IH; [lia|done|lia].
Qed.
End parser.

Section holding.
Context (h : heap).
Implicit Types (toks pre post args : list string).

Lemma holding_nil : holding [] = no_args.
Proof. done. Qed.

Lemma holding_free args :
  (length args < ARGS_MAX)%nat → holding args !! length args = Some None.
Proof.
  intros H. unfold holding.
  rewrite lookup_app_r by (rewrite length_fmap; lia).
  rewrite length_fmap, Nat.sub_diag.
  by destruct (ARGS_MAX - length args)%nat eqn:Hk; [lia|].
Qed.

Lemma holding_snoc args t :
  (length args < ARGS_MAX)%nat →
  <[length args := Some (str_block t)]> (holding args) = holding (args ++ [t]).
Proof.
  intros H. unfold holding.
  replace (ARGS_MAX - length (args ++ [t]))%nat
    with (pred (ARGS_MAX - length args))
    by (rewrite length_app; cbn [length]; lia).
  destruct (ARGS_MAX - length args)%nat as [|k] eqn:Hk; [lia|].
  rewrite insert_app_r_alt by (rewrite length_fmap; lia).
  rewrite length_fmap, Nat.sub_diag, fmap_app. cbn.
  by rewrite <-app_assoc.
Qed.

(** Storing one more argument after the ones held. *)
Lemma store_arg_holding junk args t :
  (length args < ARGS_MAX)%nat → c_string t →
  store_arg junk (length args) t (holding args) =
    if decide (junk (strlen t) = NUL) then inr (holding (args ++ [t]))
    else inl (OutOfBounds "my_argv[argNum]" (S (strlen t))).
Proof.
  intros H Ht. rewrite store_arg_fresh by (done || by apply holding_free).
  by rewrite holding_snoc.
Qed.

Lemma argv_of_holding args :
  Forall c_string args →
  argv_of (holding args) =
    if decide (length args < ARGS_MAX)%nat then Some args else None.
Proof.
  intros Hc. unfold holding. case_decide as Hlen.
  - destruct (ARGS_MAX - length args)%nat as [|k] eqn:Hk; [lia|].
    by apply argv_of_terminated.
  - replace (ARGS_MAX - length args)%nat with 0%nat by lia.
    rewrite app_nil_r. clear Hlen Hc.
    induction args as [|a args IH]; [done|]. cbn. by rewrite IH.
Qed.

Lemma strtok_all_c_string input : Forall c_string (strtok input).
Proof. apply Forall_forall. intros t Ht. by eapply strtok_c_string. Qed.

Lemma c_string_body body : c_string (body +:+ "&") → c_string body.
Proof.
  unfold c_string. rewrite list_ascii_snoc. intros H Hin. apply H.
  apply elem_of_app. by left.
Qed.

Lemma marker_arg_c_string body :
  c_string (body +:+ "&") → Forall c_string (marker_arg body).
Proof.
  intros H. unfold marker_arg. case_decide; [done|].
  constructor; [by apply c_string_body|done].
Qed.

(** Plain tokens stored from an empty array. *)
Lemma getArgs_loop_plain_start pre rest :
  Forall (λ t, is_Some (last_char t) ∧ plain t ∧ c_string t) pre →
  (length pre ≤ ARGS_MAX)%nat → clean h pre →
  getArgs_loop h (pre ++ rest) 0 no_args =
    getArgs_loop h rest (length pre) (holding pre).
Proof.
  intros Hp Hlen Hh.
  exact (getArgs_loop_plain h [] pre rest ARGS_MAX Hp Hlen Hlen Hh).
Qed.

(** The result of [getArgs] on a line without marker, on a heap that is
    clean for its tokens. *)
Lemma getArgs_plain_line input g :
  my_argv g = no_args → Forall plain (strtok input) →
  (length (strtok input) < ARGS_MAX)%nat → clean h (strtok input) →
  getArgs h input g =
    inr (set_pt FORE (set_my_argv (holding (strtok input)) g)).
Proof.
  intros Hg Hplain Hlen Hh.
  pose proof (strtok_plain_prefix input (strtok input) []) as Hp.
  rewrite app_nil_r in Hp. specialize (Hp eq_refl Hplain).
  unfold getArgs. rewrite Hg, <-(app_nil_r (strtok input)) at 1.
  rewrite getArgs_loop_plain_start by (done || lia).
  cbn [getArgs_loop]. by rewrite decide_False by lia.
Qed.

(** The result of [getArgs] on a line whose first marker token is
    [body&], on a heap that is clean for its arguments. *)
Lemma getArgs_marker_line input g pre body post :
  my_argv g = no_args →
  strtok input = pre ++ (body +:+ "&") :: post →
  Forall plain pre →
  (length (pre ++ marker_arg body) ≤ ARGS_MAX)%nat →
  clean h (pre ++ marker_arg body) →
  getArgs h input g =
    inr (set_pt BACK (set_my_argv (holding (pre ++ marker_arg body)) g)).
Proof.
  intros Hg Htok Hplain Hlen Hh.
  pose proof (strtok_plain_prefix _ _ _ Htok Hplain) as Hp.
  assert (c_string (body +:+ "&")) as Hbody.
  { apply (strtok_c_string input). rewrite Htok. apply elem_of_app.
    right. by left. }
  rewrite length_app in Hlen.
  unfold getArgs. rewrite Hg, Htok.
  rewrite getArgs_loop_plain_start; [|done|lia|].
  2:{ intros i a Hi. apply Hh. by apply lookup_app_l_Some. }
  rewrite getArgs_loop_marker. unfold marker_arg in *. case_decide.
  - by rewrite app_nil_r.
  - cbn [length] in Hlen.
    rewrite store_arg_holding by (lia || by apply c_string_body).
    rewrite decide_True; [done|]. apply (Hh (length pre)).
    by rewrite lookup_app_r, Nat.sub_diag by lia.
Qed.

(** The result of [getArgs] on a line whose first token is plain, when the
    block of [my_argv[0]] does not have the NUL where the terminator
    goes. *)
Lemma getArgs_dirty_line input g t rest :
  my_argv g = no_args → strtok input = t :: rest → plain t →
  h 0%nat (strlen t) ≠ NUL →
  getArgs h input g = inl (OutOfBounds "my_argv[argNum]" (S (strlen t))).
Proof.
  intros Hg Htok Hplain Hh.
  assert (t ∈ strtok input) as Hin by (rewrite Htok; by left).
  unfold getArgs. rewrite Hg, Htok.
  assert (getArgs_loop h (t :: rest) 0 no_args =
          inl (OutOfBounds "my_argv[argNum]" (S (strlen t)))) as ->; [|done].
  apply (getArgs_loop_dirty h [] t rest (pred ARGS_MAX)); try done.
  - by apply (strtok_last_char input).
  - by apply (strtok_c_string input).
  - cbn [length]. unfold ARGS_MAX. lia.
Qed.
End holding.

(** C7.  The arguments are not stored as the tokens they were read from:
    [strncpy] is given the length of the token and copies no terminator,
    and [strncat] is given an empty string and appends nothing, so the
    string stored ends where the block happens to hold a NUL.
    - On a heap of recycled blocks the line "ls -l &" is not parsed into
      the vector [ls; -l]: the string of [my_argv[0]] runs past its
      block of 3 bytes.  So does the first argument of any line whose
      block has no NUL in its last byte.
    - On a heap that is clean for the arguments, parsing "ls -l &" gives
      the command ls, the argument vector [ls; -l] and the mode BACK, and
      parsing "ls -l" gives the same command and vector with the mode
      FORE.  In general, when the first token that ends in '&' is
      [body&], the mode is BACK and the argument vector is made of the
      tokens before it followed by [body] (by nothing when the token is
      the marker alone): the marker is stripped. *)
Theorem getArgs_background_marker :
  getArgs recycled "ls -l &" globals0 = inl (OutOfBounds "my_argv[argNum]" 3)
  ∧ (∀ h input g t rest,
       my_argv g = no_args → strtok input = t :: rest → plain t →
       h 0%nat (strlen t) ≠ NUL →
       getArgs h input g = inl (OutOfBounds "my_argv[argNum]" (S (strlen t))))
  ∧ (∀ h, clean h ["ls"; "-l"] →
       (∃ g, getArgs h "ls -l &" globals0 = inr g ∧
             command_line g = Some ("ls", ["ls"; "-l"], BACK))
       ∧ (∃ g, getArgs h "ls -l" globals0 = inr g ∧
               command_line g = Some ("ls", ["ls"; "-l"], FORE)))
  ∧ ∀ h input g pre body post,
      my_argv g = no_args →
      strtok input = pre ++ (body +:+ "&") :: post →
      Forall plain pre →
      (S (length pre) < ARGS_MAX)%nat →
      clean h (pre ++ marker_arg body) →
      ∃ g', getArgs h input g = inr g' ∧ pt g' = BACK ∧
            argv_of (my_argv g') = Some (pre ++ marker_arg body).
Proof.
  split; [done|]. split; [apply getArgs_dirty_line|]. split.
  - intros h Hh. split.
    + eexists. split.
      * apply (getArgs_marker_line h "ls -l &" globals0 ["ls"; "-l"] "" []);
          try done.
        -- unfold plain. compute_done.
        -- vm_compute. lia.
      * done.
    + eexists. split.
      * apply (getArgs_plain_line h "ls -l" globals0); try done.
        -- unfold plain. compute_done.
        -- vm_compute. lia.
      * done.
  - intros h input g pre body post Hg Htok Hpre Hlen Hh.
    assert (length (marker_arg body) ≤ 1)%nat as Hm.
    { unfold marker_arg. case_decide; cbn; lia. }
    eexists. split; [apply (getArgs_marker_line h _ _ _ _ _ Hg Htok Hpre)|].
    + rewrite length_app. lia.
    + done.
    + split; [done|]. cbn [my_argv set_pt set_my_argv].
      rewrite argv_of_holding.
      * rewrite decide_True; [done|]. rewrite length_app. lia.
      * pose proof (strtok_all_c_string input) as Hc. rewrite Htok in Hc.
        apply Forall_app in Hc as [Hc1 Hc2]. apply Forall_app. split; [done|].
        apply marker_arg_c_string. exact (Forall_inv Hc2).
Qed.

Lemma getArgs_background_marker_witness :
  ∃ g', getArgs zeroed "cc -c x& y" globals0 = inr g' ∧ pt g' = BACK ∧
        argv_of (my_argv g') = Some ["cc"; "-c"; "x"].
Proof.
  destruct getArgs_background_marker as (_ & _ & _ & H).
  apply (H zeroed "cc -c x& y" globals0 ["cc"; "-c"] "x" ["y"]).
  - reflexivity.
  - reflexivity.
  - unfold plain. compute_done.
  - vm_compute. lia.
  - by intros i a _.
Defined.

(** C9.  [getArgs] stays inside [my_argv] only for lines of at most
    ARGS_MAX tokens.  For a line none of whose first ARGS_MAX + 1 tokens
    ends in '&', on any heap and in any state of [my_argv]: with more than
    ARGS_MAX tokens the parser accesses [my_argv[ARGS_MAX]], past the end
    of the array, unless a store into one of the blocks has faulted
    before; with exactly ARGS_MAX tokens it enters the loop body with
    [tok == NULL], with the same proviso; so a run without fault means at
    most ARGS_MAX tokens.  From an empty [my_argv] and on a heap that is
    clean for the tokens no store faults, and the fault is the access to
    [my_argv[ARGS_MAX]], respectively the dereference of NULL.  And
    whenever [tok] is NULL while [argNum >= ARGS_MAX], the loop condition
    holds and [tok] is dereferenced. *)
Theorem getArgs_overruns_my_argv :
  (∀ h input g,
     Forall plain (take (S ARGS_MAX) (strtok input)) →
     ((ARGS_MAX < length (strtok input))%nat →
        (getArgs h input g = inl (OutOfBounds "my_argv" ARGS_MAX)
         ∨ ∃ k, getArgs h input g = inl (OutOfBounds "my_argv[argNum]" k))
        ∧ (my_argv g = no_args → clean h (take ARGS_MAX (strtok input)) →
           getArgs h input g = inl (OutOfBounds "my_argv" ARGS_MAX)))
     ∧ (length (strtok input) = ARGS_MAX →
        (getArgs h input g = inl (NullDereference "tok")
         ∨ ∃ k, getArgs h input g = inl (OutOfBounds "my_argv[argNum]" k))
        ∧ (my_argv g = no_args → clean h (strtok input) →
           getArgs h input g = inl (NullDereference "tok")))
     ∧ ((∃ g', getArgs h input g = inr g') →
        (length (strtok input) ≤ ARGS_MAX)%nat))
  ∧ (∀ h argNum argv,
       (ARGS_MAX ≤ argNum)%nat →
       getArgs_loop h [] argNum argv = inl (NullDereference "tok")).
Proof.
  assert (∀ h input g,
    Forall plain (take (S ARGS_MAX) (strtok input)) →
    (ARGS_MAX < length (strtok input))%nat →
    getArgs h input g = inl (OutOfBounds "my_argv" ARGS_MAX)
    ∨ ∃ k, getArgs h input g = inl (OutOfBounds "my_argv[argNum]" k)) as Hover.
  { intros h input g Hplain Hlen. unfold getArgs.
    destruct (getArgs_loop_over h (strtok input) 0 (my_argv g)) as [->|[k ->]];
      [lia| |rewrite Nat.sub_0_r; lia|by left|right; by eexists].
    rewrite Nat.sub_0_r. apply Forall_forall. intros t Ht. split.
    - apply (strtok_last_char input). by eapply subseteq_take.
    - rewrite Forall_forall in Hplain. by apply Hplain. }
  split.
  - intros h input g Hplain. split; [|split].
    + intros Hlen. split; [by apply Hover|]. intros Hg Hh.
      destruct (lookup_lt_is_Some_2 (strtok input) ARGS_MAX Hlen) as [t Ht].
      pose proof (take_drop_middle _ _ _ Ht) as Hsplit.
      assert (Forall plain (take ARGS_MAX (strtok input)) ∧ plain t)
        as [Hp Hpt].
      { rewrite (take_S_r _ _ _ Ht) in Hplain.
        apply Forall_app in Hplain as [H1 H2]. split; [exact H1|].
        exact (Forall_inv H2). }
      pose proof (strtok_plain_prefix _ _ _ (eq_sym Hsplit) Hp) as Hp'.
      unfold getArgs. rewrite Hg, <-Hsplit.
      rewrite getArgs_loop_plain_start; [|done|rewrite length_take; lia|done].
      rewrite length_take, Nat.min_l by lia.
      rewrite getArgs_loop_plain_cons; [|eapply strtok_last_char|exact Hpt].
      * by rewrite store_arg_outside.
      * rewrite <-Hsplit. apply elem_of_app. right. by left.
    + intros Hlen. rewrite take_ge in Hplain by lia. split.
      * unfold getArgs.
        destruct (getArgs_loop_full h (strtok input) 0 (my_argv g))
          as [->|[k ->]]; [lia| |lia|by left|right; by eexists].
        apply Forall_forall. intros t Ht. split.
        -- by apply (strtok_last_char input).
        -- rewrite Forall_forall in Hplain. by apply Hplain.
      * intros Hg Hh.
        pose proof (strtok_plain_prefix input (strtok input) []) as Hp'.
        rewrite app_nil_r in Hp'. specialize (Hp' eq_refl Hplain).
        unfold getArgs. rewrite Hg, <-(app_nil_r (strtok input)) at 1.
        rewrite getArgs_loop_plain_start by (done || lia).
        cbn [getArgs_loop]. rewrite Hlen.
        by rewrite decide_True.
    + intros [g' Hg']. destruct (decide (ARGS_MAX < length (strtok input))%nat)
        as [Hlt|]; [|lia].
      destruct (Hover h input g Hplain Hlt) as [He|[k He]];
        rewrite He in Hg'; done.
  - intros h argNum argv H. cbn. by rewrite decide_True.
Qed.

Lemma getArgs_overruns_my_argv_witness :
  getArgs zeroed "a b c d e f g h i j k" globals0
    = inl (OutOfBounds "my_argv" ARGS_MAX).
Proof.
  destruct getArgs_overruns_my_argv as [H _].
  apply (H zeroed "a b c d e f g h i j k" globals0).
  - unfold plain. compute_done.
  - vm_compute. lia.
  - reflexivity.
  - by intros i a _.
Defined.

(** ** The input buffer *)

Section input_buffer.
Context (hs : nat → heap).
Implicit Types (line rest filled : list ascii) (c : ascii).

Lemma buf_strlen_filled filled k :
  Forall (λ c, c ≠ NUL) filled →
  buf_strlen (filled ++ replicate (S k) NUL) = Some (length filled).
Proof.
  induction 1 as [|c filled Hc _ IH]; cbn.
  - by rewrite decide_True.
  - rewrite decide_False by done. cbn in IH. by rewrite IH.
Qed.

Lemma c_str_filled filled k :
  Forall (λ c, c ≠ NUL) filled →
  c_str (filled ++ replicate k NUL) = String.string_of_list_ascii filled.
Proof.
  induction 1 as [|c filled Hc _ IH]; cbn.
  - destruct k; [done|]. cbn. by rewrite decide_True.
  - rewrite decide_False by done. by rewrite IH.
Qed.

(** Appending a character while at least two bytes are free. *)
Lemma strncat_char_fits filled k c :
  Forall (λ c, c ≠ NUL) filled → c ≠ NUL →
  strncat_char (filled ++ replicate (S (S k)) NUL) c =
    inr ((filled ++ [c]) ++ replicate (S k) NUL).
Proof.
  intros Hf Hc. unfold strncat_char. rewrite buf_strlen_filled by done.
  rewrite decide_False by done. unfold buf_write.
  rewrite decide_True by (rewrite length_app, length_replicate; lia).
  rewrite length_insert.
  rewrite decide_True by (rewrite length_app, length_replicate; lia).
  f_equal. rewrite insert_app_r_alt, Nat.sub_diag by lia. cbn.
  rewrite (insert_app_r_alt _ _ (S (length filled))) by lia.
  replace (S (length filled) - length filled)%nat with 1%nat by lia. cbn.
  by rewrite <-app_assoc.
Qed.

(** Appending a character when only the terminator's byte is free: the
    character lands on the last byte and the new terminator past it. *)
Lemma strncat_char_full filled c :
  Forall (λ c, c ≠ NUL) filled → c ≠ NUL →
  strncat_char (filled ++ replicate 1 NUL) c =
    inl (OutOfBounds "input" (S (length filled))).
Proof.
  intros Hf Hc. unfold strncat_char. rewrite buf_strlen_filled by done.
  rewrite decide_False by done. unfold buf_write.
  rewrite decide_True by (rewrite length_app, length_replicate; lia).
  rewrite length_insert.
  rewrite decide_False by (rewrite length_app, length_replicate; lia). done.
Qed.

Lemma main_loop_text c rest input :
  text_char c →
  main_loop hs (c :: rest) input =
    match strncat_char input c with
    | inl e => Crash e
    | inr input' => main_loop hs rest input'
    end.
Proof.
  intros (_ & Hnl & Heof). cbn [main_loop]. rewrite decide_False by done.
  destruct (strncat_char input c) as [e|input']; cbn; [done|].
  by rewrite decide_False.
Qed.

(** Reading a line into a buffer that holds [filled] and has [S k] bytes
    left. *)
Lemma main_loop_line line : ∀ rest filled k,
  Forall text_char line → Forall (λ c, c ≠ NUL) filled →
  main_loop hs (line ++ rest) (filled ++ replicate (S k) NUL) =
    if decide (length line ≤ k)%nat
    then main_loop hs rest ((filled ++ line) ++ replicate (S k - length line) NUL)
    else Crash (OutOfBounds "input" (length filled + S k)).
Proof.
  induction line as [|c line IH]; intros rest filled k Hline Hfilled.
  - cbn [app length]. rewrite decide_True by lia.
    by rewrite app_nil_r, Nat.sub_0_r.
  - apply Forall_cons in Hline as [Hc Hline].
    rewrite <-app_comm_cons, main_loop_text by done.
    destruct k as [|k].
    + rewrite strncat_char_full by (done || apply Hc).
      cbn [length]. rewrite decide_False by lia. do 2 f_equal. lia.
    + rewrite strncat_char_fits by (done || apply Hc).
      rewrite IH; [|done|].
      2:{ apply Forall_app. split; [done|]. constructor; [apply Hc|done]. }
      cbn [length]. destruct (decide (length line ≤ k)%nat).
      * rewrite decide_True by lia. rewrite <-!app_assoc. cbn.
        by replace (S (S k) - S (length line))%nat
             with (S k - length line)%nat by lia.
      * rewrite decide_False by lia. rewrite length_app. cbn.
        do 2 f_equal. lia.
Qed.
End input_buffer.

(** C10.  The input loop stays inside the 100-byte buffer [input] only for
    lines shorter than CHARS_MAX characters.  Starting from the zeroed
    buffer, a line of fewer than CHARS_MAX text characters is stored as it
    is and the loop goes on with what follows it; a line of CHARS_MAX or
    more text characters makes [strncat] write at [input[CHARS_MAX]], one
    past the end, before the newline is reached. *)
Theorem input_line_overflow hs (line rest : list ascii) :
  Forall text_char line →
  ((length line < CHARS_MAX)%nat →
     ∃ input, length input = CHARS_MAX ∧
              c_str input = String.string_of_list_ascii line ∧
              main_loop hs (line ++ rest) (malloc CHARS_MAX) = main_loop hs rest input)
  ∧ ((CHARS_MAX ≤ length line)%nat →
     main_loop hs (line ++ rest) (malloc CHARS_MAX) =
       Crash (OutOfBounds "input" CHARS_MAX)).
Proof.
  intros Hline.
  assert (Forall (λ c, c ≠ NUL) line) as Hnn.
  { eapply Forall_impl; [exact Hline|]. by intros c [? _]. }
  pose proof (main_loop_line hs line rest [] (pred CHARS_MAX) Hline) as H.
  cbn [app length Nat.add] in H. specialize (H (Forall_nil_2 _)).
  change (replicate (S (pred CHARS_MAX)) NUL) with (malloc CHARS_MAX) in H.
  split; intros Hlen.
  - rewrite decide_True in H by (unfold CHARS_MAX in *; cbn; lia).
    eexists. split; [|split; [|exact H]].
    + rewrite length_app, length_replicate. unfold CHARS_MAX in *. cbn. lia.
    + by apply c_str_filled.
  - rewrite decide_False in H by (unfold CHARS_MAX in *; cbn; lia). exact H.
Qed.

Lemma input_line_overflow_witness :
  main_loop (λ _, zeroed) (replicate 100 "a"%char ++ [newline])
    (malloc CHARS_MAX) =
    Crash (OutOfBounds "input" CHARS_MAX).
Proof.
  apply (input_line_overflow (λ _, zeroed) (replicate 100 "a"%char)
           [newline]).
  - apply Forall_replicate. repeat split; discriminate.
  - vm_compute. lia.
Defined.

(** ** The machine *)

Section machine.
Context {A : Type}.
Implicit Types (c : config A) (o : os_state) (g : globals) (e : event).

Lemma run_app c evs1 evs2 :
  run c (evs1 ++ evs2) =
    match run c evs1 with Some c1 => run c1 evs2 | None => None end.
Proof.
  revert c. induction evs1 as [|e evs1 IH]; intros c; [done|].
  cbn. destruct (step c e); [apply IH|done].
Qed.

Lemma run_snoc c evs e c' :
  run c (evs ++ [e]) = Some c' ↔
  ∃ c1, run c evs = Some c1 ∧ step c1 e = Some c'.
Proof.
  rewrite run_app. destruct (run c evs) as [c1|]; cbn.
  - destruct (step c1 e) eqn:He; naive_solver.
  - split; [done|]. by intros (? & ? & ?).
Qed.

Lemma flow_step_inv (p : prog A) a o g p' o' g' :
  flow_step p a o g = Some (p', o', g') →
  (∃ cl k r, p = Sys cl k ∧ a = ASys r ∧ os_call o cl r = Some o' ∧ g' = g ∧
             p' = match fate o' with Alive => k r | _ => p end)
  ∨ (∃ k, p = Get k ∧ a = AMem ∧ p' = k g ∧ o' = o ∧ g' = g)
  ∨ (∃ f k, p = Upd f k ∧ a = AMem ∧ p' = k ∧ o' = o ∧ g' = f g).
Proof.
  destruct p as [v|err|cl k|k|f k], a as [r| |]; cbn; try done.
  - destruct (os_call o cl r) as [o1|] eqn:Hc; [|done].
    intros [= <- <- <-]. left. by exists cl, k, r.
  - intros [= <- <- <-]. right. left. by exists k.
  - intros [= <- <- <-]. right. right. by exists f, k.
Qed.

(** What each kind of event does. *)
Lemma step_inv c e c' :
  step c e = Some c' →
  fate (os c) = Alive ∧
  match e with
  | EExit p st =>
      children (os c) !! p = Some Running ∧
      c' = Config (set_pending true (set_children <[p := Zombie st]> (os c)))
             (mem c) (flow c) (handler c)
  | EDeliver =>
      pending (os c) = true ∧ handler c = None ∧
      c' = Config (set_pending false (os c)) (mem c) (flow c)
             (Some child_handler)
  | EMain a =>
      handler c = None ∧
      ∃ p o g, flow_step (flow c) a (os c) (mem c) = Some (p, o, g) ∧
               c' = Config o g p None
  | EHandler a =>
      ∃ h, handler c = Some h ∧
           ((∃ v, h = Ret v ∧ a = ARet ∧
                  c' = Config (os c) (mem c) (flow c) None)
            ∨ (∃ h' o g, flow_step h a (os c) (mem c) = Some (h', o, g) ∧
                         c' = Config o g (flow c) (Some h')))
  end.
Proof.
  unfold step. destruct (fate (os c)) eqn:Hf; [|done..]. split; [done|].
  destruct e as [p st| |a|a].
  - destruct (children (os c) !! p) as [[]|]; naive_solver.
  - destruct (pending (os c)), (handler c); naive_solver.
  - destruct (handler c); [done|].
    destruct (flow_step (flow c) a (os c) (mem c)) as [[[p o] g]|]; naive_solver.
  - destruct (handler c) as [h|]; [|done]. exists h. split; [done|].
    destruct h as [v|err|cl k|k|f k].
    + destruct a; naive_solver.
    + cbn in H. destruct a; done.
    + destruct (flow_step (Sys cl k) a (os c) (mem c)) as [[[h' o] g]|];
        naive_solver.
    + destruct (flow_step (Get k) a (os c) (mem c)) as [[[h' o] g]|];
        naive_solver.
    + destruct (flow_step (Upd f k) a (os c) (mem c)) as [[[h' o] g]|];
        naive_solver.
Qed.
End machine.

(** The steps of [child_handler]. *)
Lemma handler_step_inv h a o g h' o' g' :
  handler_stage (Some h) → fate o = Alive →
  flow_step h a o g = Some (h', o', g') →
  (∃ s, h = child_handler ∧ a = ASys s ∧ h' = child_handler_reap ∧
        o' = o ∧ g' = g)
  ∨ (∃ r, h = child_handler_reap ∧ a = ASys r ∧
          h' = child_handler_remove r ∧ g' = g ∧
          ((∃ st, children o !! r = Some (Zombie st) ∧
                  o' = set_children (delete r) o)
           ∨ (r = -1 ∧ children o = ∅ ∧ o' = o)))
  ∨ (∃ r, h = child_handler_remove r ∧ a = AMem ∧ h' = Ret tt ∧ o' = o ∧
          g' = set_bgProcIDs (list_remove r) g).
Proof.
  intros Hst Hal Hstep.
  destruct Hst as [->|[->|[[r ->]| ->]]].
  - left. destruct a as [r| |]; cbn in Hstep; try done.
    rewrite Hal in Hstep. injection Hstep as <- <- <-. by exists r.
  - right. left. destruct a as [r| |]; cbn in Hstep; try done.
    exists r. destruct (children o !! r) as [[|st]|] eqn:Hr; cbn in Hstep.
    + done.
    + rewrite Hal in Hstep. injection Hstep as <- <- <-.
      repeat split; try done. left. by exists st.
    + destruct (decide (r = -1 ∧ children o = ∅)) as [[-> He]|]; [|done].
      rewrite Hal in Hstep. injection Hstep as <- <- <-.
      repeat split; try done. right. done.
  - right. right. exists r. destruct a; cbn in Hstep; try done.
    by injection Hstep as <- <- <-.
  - destruct a; done.
Qed.

(** An event of the handler, as a change of the configuration. *)
Lemma step_handler_inv {A} (c : config A) a c' :
  handler_stage (handler c) →
  step c (EHandler a) = Some c' →
  fate (os c) = Alive ∧
  ((handler c = Some child_handler ∧ (∃ s, a = ASys s) ∧
    c' = Config (os c) (mem c) (flow c) (Some child_handler_reap))
   ∨ (∃ r st, handler c = Some child_handler_reap ∧ a = ASys r ∧
        children (os c) !! r = Some (Zombie st) ∧
        c' = Config (set_children (delete r) (os c)) (mem c) (flow c)
               (Some (child_handler_remove r)))
   ∨ (handler c = Some child_handler_reap ∧ a = ASys (-1) ∧
      children (os c) = ∅ ∧
      c' = Config (os c) (mem c) (flow c) (Some (child_handler_remove (-1))))
   ∨ (∃ r, handler c = Some (child_handler_remove r) ∧ a = AMem ∧
        c' = Config (os c) (set_bgProcIDs (list_remove r) (mem c)) (flow c)
               (Some (Ret tt)))
   ∨ (handler c = Some (Ret tt) ∧ a = ARet ∧
      c' = Config (os c) (mem c) (flow c) None)).
Proof.
  intros Hst Hstep. apply step_inv in Hstep as (Hal & h & Hh & Hcase).
  split; [done|]. rewrite Hh in Hst.
  destruct Hcase as [([] & -> & -> & ->)|(h' & o' & g' & Hfs & ->)].
  { by do 4 right. }
  apply handler_step_inv in Hfs; [|done..].
  destruct Hfs as [(s & -> & -> & -> & -> & ->)|
                   [(r & -> & -> & -> & -> & Hw)|
                    (r & -> & -> & -> & -> & ->)]].
  - left. split; [done|]. split; [by exists s|done].
  - destruct Hw as [(st & Hr & ->)|(-> & He & ->)].
    + right. left. by exists r, st.
    + do 2 right. by left.
  - do 3 right. left. by exists r.
Qed.

Lemma handler_stage_step {A} (c : config A) e c' :
  handler_stage (handler c) → step c e = Some c' →
  handler_stage (handler c').
Proof.
  intros Hst Hstep. destruct e as [p st| |a|a].
  - apply step_inv in Hstep as (_ & _ & ->). done.
  - apply step_inv in Hstep as (_ & _ & _ & ->). by left.
  - apply step_inv in Hstep as (_ & _ & ? & ? & ? & _ & ->). done.
  - apply step_handler_inv in Hstep as (_ & Hc); [|done].
    destruct Hc as [(_ & _ & ->)|[(r & st & _ & _ & _ & ->)|[(_ & _ & _ & ->)|
                   [(r & _ & _ & ->)|(_ & _ & ->)]]]]; cbn; eauto.
Qed.

(** Events other than steps of the main flow leave the flow, [pt] and
    [my_argv] as they are. *)
Lemma step_not_main {A} (c : config A) e c' :
  handler_stage (handler c) → ¬ is_main e → step c e = Some c' →
  flow c' = flow c ∧ pt (mem c') = pt (mem c) ∧
  my_argv (mem c') = my_argv (mem c).
Proof.
  intros Hst Hnm Hstep. destruct e as [p st| |a|a].
  - apply step_inv in Hstep as (_ & _ & ->). done.
  - apply step_inv in Hstep as (_ & _ & _ & ->). done.
  - by destruct Hnm.
  - apply step_handler_inv in Hstep as (_ & Hc); [|done].
    destruct Hc as [(_ & _ & ->)|[(r & st & _ & _ & _ & ->)|[(_ & _ & _ & ->)|
                   [(r & _ & _ & ->)|(_ & _ & ->)]]]]; done.
Qed.

Lemma run_not_main {A} (c : config A) evs c' :
  handler_stage (handler c) → Forall (λ e, ¬ is_main e) evs →
  run c evs = Some c' →
  flow c' = flow c ∧ pt (mem c') = pt (mem c) ∧
  my_argv (mem c') = my_argv (mem c) ∧ handler_stage (handler c').
Proof.
  revert c. induction evs as [|e evs IH]; intros c Hst Hnm Hrun.
  - by injection Hrun as <-.
  - apply Forall_cons in Hnm as [He Hnm]. cbn in Hrun.
    destruct (step c e) as [c1|] eqn:Hstep; [|done].
    destruct (step_not_main _ _ _ Hst He Hstep) as (Hf & Hp & Ha).
    destruct (IH c1) as (Hf' & Hp' & Ha' & Hst'); [|done..|].
    { by eapply handler_stage_step. }
    repeat split; [congruence..|done].
Qed.

(** [fork] returning [p > 0] in [execute]. *)
Lemma step_execute_fork cmd (c : config unit) p c' :
  flow c = execute cmd → 0 < p →
  step c (EMain (ASys p)) = Some c' →
  handler c = None ∧ children (os c) !! p = None ∧
  c' = Config (set_children <[p := Running]> (os c)) (mem c)
         (execute_parent p) None.
Proof.
  intros Hflow Hp Hstep.
  apply step_inv in Hstep as (Hal & Hh & q & o & g & Hfs & ->).
  split; [done|]. rewrite Hflow in Hfs. cbn in Hfs.
  rewrite decide_False, decide_True in Hfs by lia.
  destruct (children (os c) !! p) eqn:Hc; [done|]. cbn in Hfs. rewrite Hal in Hfs.
  injection Hfs as <- <- <-. split; [done|].
  rewrite decide_False, decide_True by lia. done.
Qed.

(** Steps of the main flow, forwards. *)
Lemma step_main_get {A} (c : config A) k :
  fate (os c) = Alive → handler c = None → flow c = Get k →
  step c (EMain AMem) = Some (Config (os c) (mem c) (k (mem c)) None).
Proof. intros Hal Hh Hfl. unfold step. by rewrite Hal, Hh, Hfl. Qed.

Lemma step_main_upd {A} (c : config A) f k :
  fate (os c) = Alive → handler c = None → flow c = Upd f k →
  step c (EMain AMem) = Some (Config (os c) (f (mem c)) k None).
Proof. intros Hal Hh Hfl. unfold step. by rewrite Hal, Hh, Hfl. Qed.

Lemma step_main_sys {A} (c : config A) cl k r o' :
  fate (os c) = Alive → handler c = None → flow c = Sys cl k →
  os_call (os c) cl r = Some o' → fate o' = Alive →
  step c (EMain (ASys r)) = Some (Config o' (mem c) (k r) None).
Proof.
  intros Hal Hh Hfl Hcall Hal'. unfold step. rewrite Hal, Hh, Hfl. cbn.
  by rewrite Hcall, Hal'.
Qed.

Lemma step_child_exit {A} (c : config A) p st :
  fate (os c) = Alive → children (os c) !! p = Some Running →
  step c (EExit p st)
    = Some (Config (set_pending true (set_children <[p := Zombie st]> (os c)))
              (mem c) (flow c) (handler c)).
Proof. intros Hal Hc. unfold step. by rewrite Hal, Hc. Qed.

Lemma step_deliver {A} (c : config A) :
  fate (os c) = Alive → pending (os c) = true → handler c = None →
  step c EDeliver
    = Some (Config (set_pending false (os c)) (mem c) (flow c)
              (Some child_handler)).
Proof. intros Hal Hp Hh. unfold step. by rewrite Hal, Hp, Hh. Qed.

Lemma step_handler_sys {A} (c : config A) cl k r o' :
  fate (os c) = Alive → handler c = Some (Sys cl k) →
  os_call (os c) cl r = Some o' → fate o' = Alive →
  step c (EHandler (ASys r)) = Some (Config o' (mem c) (flow c) (Some (k r))).
Proof.
  intros Hal Hh Hcall Hal'. unfold step. rewrite Hal, Hh. cbn.
  by rewrite Hcall, Hal'.
Qed.

Lemma step_handler_upd {A} (c : config A) f k :
  fate (os c) = Alive → handler c = Some (Upd f k) →
  step c (EHandler AMem) = Some (Config (os c) (f (mem c)) (flow c) (Some k)).
Proof. intros Hal Hh. unfold step. by rewrite Hal, Hh. Qed.

Lemma step_handler_ret {A} (c : config A) v :
  fate (os c) = Alive → handler c = Some (Ret v) →
  step c (EHandler ARet) = Some (Config (os c) (mem c) (flow c) None).
Proof. intros Hal Hh. unfold step. by rewrite Hal, Hh. Qed.

(** One whole invocation of [child_handler] in which [wait] returns the
    terminated child [r]. *)
Lemma run_handler_reaps {A} (c : config A) r st :
  fate (os c) = Alive → handler c = None → pending (os c) = true →
  children (os c) !! r = Some (Zombie st) →
  run c (handler_events r)
    = Some (Config (set_children (delete r) (set_pending false (os c)))
              (set_bgProcIDs (list_remove r) (mem c)) (flow c) None).
Proof.
  intros Hal Hh Hp Hr. unfold handler_events. cbn [run].
  rewrite step_deliver by done.
  erewrite (step_handler_sys _ (signal SIGCHLD to_child_handler) _ 0
              (set_pending false (os c))); [|done|reflexivity|done|done].
  cbn [os mem flow handler].
  erewrite (step_handler_sys _ wait _ r
              (set_children (delete r) (set_pending false (os c))));
    [|done|reflexivity|cbn; by rewrite Hr|done].
  cbn [os mem flow handler].
  erewrite step_handler_upd; [|done|reflexivity].
  cbn [os mem flow handler].
  by erewrite step_handler_ret; [|done|reflexivity].
Qed.

(** ** The wait policy of [execute] *)

Lemma main_actions_snoc evs e :
  main_actions (evs ++ [e]) =
    main_actions evs ++ match e with EMain a => [a] | _ => [] end.
Proof. unfold main_actions. rewrite omap_app. by destruct e. Qed.

Lemma fg_inv_step p seen c e c' :
  fg_inv p seen c → step c e = Some c' → fg_inv p (seen ++ [e]) c'.
Proof.
  intros (Hst & Hpt & Hcase) Hstep.
  assert (∀ st, EExit p st ∈ seen → ∃ st', EExit p st' ∈ seen ++ [e]) as Hseen.
  { intros st ?. exists st. apply elem_of_app. by left. }
  split; [by eapply handler_stage_step|].
  destruct e as [q st| |a|a].
  - apply step_inv in Hstep as (_ & Hq & ->). split; [done|].
    cbn [os mem flow handler set_pending set_children children].
    destruct (decide (q = p)) as [->|Hne].
    + assert (∃ st', EExit p st' ∈ seen ++ [EExit p st]) as Hnow.
      { exists st. apply elem_of_app. right. by left. }
      destruct Hcase as [[Hfl _]|(_ & Hnone & _)]; [|congruence].
      left. split; [done|]. by right.
    + rewrite lookup_insert_ne by done.
      destruct Hcase as [[Hfl [Hr|[st' Hs]]]|(Hfl & Hnone & st' & Hs)].
      * left. split; [done|]. by left.
      * left. split; [done|]. right. by eapply Hseen.
      * right. repeat split; [done..|]. by eapply Hseen.
  - apply step_inv in Hstep as (_ & _ & _ & ->). split; [done|].
    cbn [os mem flow handler set_pending children].
    destruct Hcase as [[Hfl [Hr|[st' Hs]]]|(Hfl & Hnone & st' & Hs)].
    + left. split; [done|]. by left.
    + left. split; [done|]. right. by eapply Hseen.
    + right. repeat split; [done..|]. by eapply Hseen.
  - apply step_inv in Hstep as (Hal & Hh & q & o & g & Hfs & ->).
    cbn [os mem flow handler].
    destruct Hcase as [[[Hfl|Hfl] Hchild]|(Hfl & _)]; rewrite Hfl in Hfs.
    + destruct a; cbn in Hfs; try done. injection Hfs as <- <- <-.
      split; [done|]. rewrite Hpt. left. split; [by right|].
      destruct Hchild as [?|[st' Hs]]; [by left|right; by eapply Hseen].
    + destruct a as [r| |]; cbn in Hfs; try done.
      destruct (children (os c) !! p) as [[|st]|] eqn:Hp; cbn in Hfs.
      * done.
      * destruct (decide (r = p)) as [->|]; [|done].
        rewrite decide_True in Hfs by done. cbn in Hfs. rewrite Hal in Hfs.
        injection Hfs as <- <- <-. split; [done|]. right.
        split; [done|]. split; [apply lookup_delete_eq|].
        destruct Hchild as [?|[st' Hs]]; [done|by eapply Hseen].
      * destruct (decide (r = -1)) as [->|]; [|done].
        rewrite decide_True in Hfs by done. cbn in Hfs. rewrite Hal in Hfs.
        injection Hfs as <- <- <-. split; [done|]. right.
        split; [done|]. split; [done|].
        destruct Hchild as [?|[st' Hs]]; [congruence|by eapply Hseen].
    + destruct a; done.
  - apply step_handler_inv in Hstep as (_ & Hc); [|done].
    destruct Hc as [(_ & _ & ->)|[(r & st & _ & _ & Hr & ->)|[(_ & _ & _ & ->)|
                   [(r & _ & _ & ->)|(_ & _ & ->)]]]]; cbn; (split; [done|]).
    2:{ destruct (decide (r = p)) as [->|Hne].
        - destruct Hcase as [[Hfl [?|[st' Hs]]]|(Hfl & Hnone & _)];
            [congruence| |congruence].
          left. split; [done|]. right. by eapply Hseen.
        - rewrite lookup_delete_ne by done.
          destruct Hcase as [[Hfl [Hr'|[st' Hs]]]|(Hfl & Hnone & st' & Hs)].
          + left. split; [done|]. by left.
          + left. split; [done|]. right. by eapply Hseen.
          + right. repeat split; [done..|]. by eapply Hseen. }
    all: destruct Hcase as [[Hfl [Hr'|[st' Hs]]]|(Hfl & Hnone & st' & Hs)];
      [ left; split; [done|]; by left
      | left; split; [done|]; right; by eapply Hseen
      | right; repeat split; [done..|]; by eapply Hseen ].
Qed.

Lemma fg_inv_run p evs : ∀ seen c c',
  fg_inv p seen c → run c evs = Some c' → fg_inv p (seen ++ evs) c'.
Proof.
  induction evs as [|e evs IH]; intros seen c c' Hinv Hrun.
  - injection Hrun as <-. by rewrite app_nil_r.
  - cbn in Hrun. destruct (step c e) as [c1|] eqn:Hstep; [|done].
    replace (seen ++ e :: evs) with ((seen ++ [e]) ++ evs)
      by (by rewrite <-app_assoc).
    eapply IH; [|done]. by eapply fg_inv_step.
Qed.

Lemma bg_inv_step p seen c e c' :
  bg_inv p seen c → step c e = Some c' → bg_inv p (seen ++ [e]) c'.
Proof.
  intros (Hst & Hpt & Hcase) Hstep.
  split; [by eapply handler_stage_step|]. rewrite main_actions_snoc.
  destruct e as [q st| |a|a].
  - apply step_inv in Hstep as (_ & Hq & ->). by rewrite app_nil_r.
  - apply step_inv in Hstep as (_ & _ & _ & ->). by rewrite app_nil_r.
  - apply step_inv in Hstep as (Hal & Hh & q & o & g & Hfs & ->). cbn.
    destruct Hcase as [[Hfl Hm]|[[Hfl Hm]|[Hfl Hm]]];
      rewrite Hfl in Hfs; rewrite Hm.
    + destruct a; cbn in Hfs; try done. injection Hfs as <- <- <-.
      split; [done|]. rewrite Hpt. right. by left.
    + destruct a; cbn in Hfs; try done. injection Hfs as <- <- <-.
      split; [done|]. right. by right.
    + destruct a; done.
  - rewrite app_nil_r.
    apply step_handler_inv in Hstep as (_ & Hc); [|done].
    destruct Hc as [(_ & _ & ->)|[(r & st & _ & _ & Hr & ->)|[(_ & _ & _ & ->)|
                   [(r & _ & _ & ->)|(_ & _ & ->)]]]]; done.
Qed.

Lemma bg_inv_run p evs : ∀ seen c c',
  bg_inv p seen c → run c evs = Some c' → bg_inv p (seen ++ evs) c'.
Proof.
  induction evs as [|e evs IH]; intros seen c c' Hinv Hrun.
  - injection Hrun as <-. by rewrite app_nil_r.
  - cbn in Hrun. destruct (step c e) as [c1|] eqn:Hstep; [|done].
    replace (seen ++ e :: evs) with ((seen ++ [e]) ++ evs)
      by (by rewrite <-app_assoc).
    eapply IH; [|done]. by eapply bg_inv_step.
Qed.

(** From the call of [execute] to the return of [fork] with [p > 0]. *)
Lemma run_to_fork cmd o g pre p c2 :
  Forall (λ e, ¬ is_main e) pre → 0 < p →
  run (start o g (execute cmd)) (pre ++ [EMain (ASys p)]) = Some c2 →
  ∃ c1, run (start o g (execute cmd)) pre = Some c1 ∧
        pt (mem c1) = pt g ∧ handler c1 = None ∧
        children (os c1) !! p = None ∧ fate (os c1) = Alive ∧
        c2 = Config (set_children <[p := Running]> (os c1)) (mem c1)
               (execute_parent p) None.
Proof.
  intros Hpre Hp Hrun. apply run_snoc in Hrun as (c1 & Hrun & Hstep).
  exists c1. split; [done|].
  apply run_not_main in Hrun as (Hfl & Hpt & _ & Hst); [|done..].
  pose proof (step_inv _ _ _ Hstep) as [Hal _].
  apply (step_execute_fork cmd) in Hstep as (Hh & Hc & ->); done.
Qed.

(** A background [execute] after [fork]: the child runs, and two memory
    steps register it and return. *)
Lemma execute_background_register cmd o g pre p c1 :
  pt g = BACK → Forall (λ e, ¬ is_main e) pre → 0 < p →
  run (start o g (execute cmd)) (pre ++ [EMain (ASys p)]) = Some c1 →
  children (os c1) !! p = Some Running
  ∧ run c1 [EMain AMem; EMain AMem] =
      Some (Config (os c1) (set_bgProcIDs (push_back p) (mem c1))
              (Ret tt) None)
  ∧ ∀ post c', run c1 post = Some c' → flow c' = Ret tt →
               main_actions post = [AMem; AMem].
Proof.
  intros Hpt Hpre Hp Hrun.
  apply run_to_fork in Hrun as (c0 & _ & Hpt0 & Hh & Hc & Hal & ->);
    [|done..].
  rewrite Hpt in Hpt0. split; [cbn; apply lookup_insert_eq|]. split.
  - cbn [run]. erewrite step_main_get; [|done..]. cbn [mem]. rewrite Hpt0.
    erewrite step_main_upd; done.
  - intros post c' Hrun Hret.
    eapply (bg_inv_run p post []) in Hrun.
    + destruct Hrun as (_ & _ & [[Hfl _]|[[Hfl _]|[_ Hm]]]);
        [rewrite Hfl in Hret; done..|]. done.
    + split; [done|]. split; [done|]. by left.
Qed.

(** C5.  In the parent, once [fork] has returned the child [p]:
    - with [pt = FORE], in every interleaving with the handler and with the
      children's terminations, [execute] has returned only if the
      termination of [p] occurred after the fork and [p] is no longer an
      unreaped child (its status was collected, by [waitpid] or by the
      handler's [wait]);
    - with [pt = BACK], the child is running when [fork] returns, the two
      remaining steps of [execute] read [pt] and write [bgProcIDs], which
      is then the table as it was with [p] added at its end, the other
      globals and the state of the kernel being untouched; and in every
      interleaving the main flow makes exactly these two memory steps
      before it returns: no call at all, so no wait on the child. *)
Theorem execute_wait_policy :
  (∀ cmd o g pre p post c',
     pt g = FORE → Forall (λ e, ¬ is_main e) pre → 0 < p →
     run (start o g (execute cmd)) (pre ++ EMain (ASys p) :: post) = Some c' →
     flow c' = Ret tt →
     children (os c') !! p = None ∧ ∃ st, EExit p st ∈ post)
  ∧ (∀ cmd o g pre p c1,
       pt g = BACK → Forall (λ e, ¬ is_main e) pre → 0 < p →
       run (start o g (execute cmd)) (pre ++ [EMain (ASys p)]) = Some c1 →
       children (os c1) !! p = Some Running
       ∧ run c1 [EMain AMem; EMain AMem] =
           Some (Config (os c1)
                   (Globals BACK (bgProcIDs (mem c1) ++ [p])
                      (my_argv (mem c1)))
                   (Ret tt) None)
       ∧ ∀ post c', run c1 post = Some c' → flow c' = Ret tt →
                    main_actions post = [AMem; AMem]).
Proof.
  split.
  - intros cmd o g pre p post c' Hpt Hpre Hp Hrun Hret.
    replace (pre ++ EMain (ASys p) :: post)
      with ((pre ++ [EMain (ASys p)]) ++ post) in Hrun
      by (by rewrite <-app_assoc).
    rewrite run_app in Hrun.
    destruct (run _ (pre ++ [EMain (ASys p)])) as [c2|] eqn:Hfork; [|done].
    apply run_to_fork in Hfork as (c1 & _ & Hpt1 & Hh & Hc & Hal & ->);
      [|done..].
    eapply (fg_inv_run p post []) in Hrun.
    + destruct Hrun as (_ & _ & [[[Hfl|Hfl] _]|(_ & Hnone & Hseen)]);
        [rewrite Hfl in Hret; done..|]. done.
    + split; [done|]. split; [cbn; congruence|]. left.
      split; [by left|]. left. cbn. apply lookup_insert_eq.
  - intros cmd o g pre p c1 Hpt Hpre Hp Hrun.
    destruct (execute_background_register cmd o g pre p c1 Hpt Hpre Hp Hrun)
      as (Hchild & Hreg & Hsteps).
    split; [done|]. split; [|done]. rewrite Hreg. do 2 f_equal.
    apply run_to_fork in Hrun as (c0 & _ & Hpt0 & _ & _ & _ & ->); [|done..].
    cbn. unfold set_bgProcIDs. f_equal. congruence.
Qed.

Lemma execute_wait_policy_witness :
  (∃ st, EExit 7 st ∈ [EMain AMem; EExit 7 0; EMain (ASys 7)])
  ∧ run (Config (set_children <[8 := Running]> os0) (set_pt BACK globals0)
           (execute_parent 8) None) [EMain AMem; EMain AMem] =
      Some (Config (set_children <[8 := Running]> os0)
              (Globals BACK (bgProcIDs (set_pt BACK globals0) ++ [8])
                 (my_argv (set_pt BACK globals0)))
              (Ret tt) None).
Proof.
  split.
  - eapply (proj1 execute_wait_policy "ls" os0 globals0 [] 7
              [EMain AMem; EExit 7 0; EMain (ASys 7)]).
    + reflexivity.
    + constructor.
    + lia.
    + vm_compute. reflexivity.
    + reflexivity.
  - eapply (proj2 execute_wait_policy "ls" os0 (set_pt BACK globals0) [] 8).
    + reflexivity.
    + constructor.
    + lia.
    + vm_compute. reflexivity.
Defined.

(** ** Registration and removal *)

Lemma elem_of_list_remove r x (l : list Z) :
  x ∈ list_remove r l ↔ x ≠ r ∧ x ∈ l.
Proof. unfold list_remove. by rewrite list_elem_of_filter. Qed.

Lemma child_handler_remove_inj x r :
  child_handler_remove x = child_handler_remove r → x = r.
Proof.
  intros H. injection H as H.
  assert (bgProcIDs (set_bgProcIDs (list_remove x) (Globals FORE [x] [])) =
          bgProcIDs (set_bgProcIDs (list_remove r) (Globals FORE [x] [])))
    as Heq by (by rewrite H).
  cbn in Heq. unfold list_remove in Heq. cbn in Heq.
  rewrite decide_False in Heq by (intros Hn; by apply Hn).
  destruct (decide (x ≠ r)) as [|Hn]; [done|].
  by apply dec_stable in Hn.
Qed.

Lemma stale_step_not_main {A} (c : config A) e c' :
  handler_stage (handler c) → ¬ is_main e →
  stale_only_in_removal c → step c e = Some c' →
  stale_only_in_removal c'.
Proof.
  intros Hst Hnm Hinv Hstep x. destruct e as [q st| |a|a].
  - apply step_inv in Hstep as (_ & Hq & ->). cbn. intros Hx.
    destruct (Hinv x Hx) as [Hs|Hh]; [|by right]. left.
    destruct (decide (q = x)) as [->|]; [by rewrite lookup_insert_eq|].
    by rewrite lookup_insert_ne.
  - apply step_inv in Hstep as (_ & _ & Hh & ->). cbn. intros Hx.
    destruct (Hinv x Hx) as [Hs|Hh']; [by left|congruence].
  - by destruct Hnm.
  - apply step_handler_inv in Hstep as (_ & Hc); [|done].
    destruct Hc as [(Hh & _ & ->)|[(r & st & Hh & _ & Hr & ->)|
                   [(Hh & _ & He & ->)|[(r & Hh & _ & ->)|(Hh & _ & ->)]]]]; cbn; intros Hx.
    + destruct (Hinv x Hx) as [Hs|Hh']; [by left|]. by rewrite Hh in Hh'.
    + destruct (decide (x = r)) as [->|]; [by right|]. left.
      rewrite lookup_delete_ne by done.
      destruct (Hinv x Hx) as [Hs|Hh']; [done|]. by rewrite Hh in Hh'.
    + destruct (Hinv x Hx) as [Hs|Hh']; [by left|]. by rewrite Hh in Hh'.
    + apply elem_of_list_remove in Hx as [Hne Hx]. left.
      destruct (Hinv x Hx) as [Hs|Hh']; [done|].
      assert (child_handler_remove r = child_handler_remove x) as Heq
        by congruence.
      by apply child_handler_remove_inj in Heq.
    + destruct (Hinv x Hx) as [Hs|Hh']; [by left|]. by rewrite Hh in Hh'.
Qed.

Lemma stale_run_not_main {A} (c : config A) evs c' :
  handler_stage (handler c) → Forall (λ e, ¬ is_main e) evs →
  stale_only_in_removal c → run c evs = Some c' →
  stale_only_in_removal c'.
Proof.
  revert c. induction evs as [|e evs IH]; intros c Hst Hnm Hinv Hrun.
  - by injection Hrun as <-.
  - apply Forall_cons in Hnm as [He Hnm]. cbn in Hrun.
    destruct (step c e) as [c1|] eqn:Hstep; [|done].
    eapply (IH c1); [by eapply handler_stage_step|done| |done].
    by eapply stale_step_not_main.
Qed.

Lemma registered_inv_step p c e c' :
  registered_inv p c → step c e = Some c' → registered_inv p c'.
Proof.
  intros (Hst & Hfl & Hstale & Hrem & Hreg) Hstep.
  assert (¬ is_main e) as Hnm.
  { destruct e as [| |a|]; try by intros [].
    apply step_inv in Hstep as (_ & _ & q & o & g & Hfs & _).
    rewrite Hfl in Hfs. by destruct a. }
  split; [by eapply handler_stage_step|].
  split; [by destruct (step_not_main _ _ _ Hst Hnm Hstep) as (-> & _)|].
  split; [by eapply stale_step_not_main|].
  destruct e as [q st| |a|a].
  - apply step_inv in Hstep as (_ & Hq & ->). cbn. split.
    + intros r Hh. rewrite lookup_insert_ne; [by apply Hrem|].
      intros ->. rewrite (Hrem r Hh) in Hq. done.
    + intros Hp. apply Hreg.
      destruct (decide (q = p)) as [->|]; [by rewrite Hq|].
      by rewrite lookup_insert_ne in Hp.
  - apply step_inv in Hstep as (_ & _ & Hh & ->). cbn. split; [|done].
    intros r Hr. done.
  - by destruct Hnm.
  - apply step_handler_inv in Hstep as (_ & Hc); [|done].
    destruct Hc as [(Hh & _ & ->)|[(r & st & Hh & _ & Hr & ->)|
                   [(Hh & _ & He & ->)|[(r & Hh & _ & ->)|(Hh & _ & ->)]]]]; cbn.
    + split; [|done]. intros r Hr. done.
    + split.
      * intros r' Hr'.
        assert (child_handler_remove r = child_handler_remove r') as Heq
          by congruence.
        apply child_handler_remove_inj in Heq as <-. apply lookup_delete_eq.
      * intros Hp. apply Hreg.
        destruct (decide (r = p)) as [->|]; [by rewrite Hr|].
        by rewrite lookup_delete_ne in Hp.
    + split; [|done]. intros r' _. by rewrite He.
    + split; [intros r' Hr'; done|].
      intros Hp. apply elem_of_list_remove. split; [|by apply Hreg].
      intros ->. rewrite (Hrem r Hh) in Hp. by destruct Hp.
    + split; [|done]. intros r Hr. done.
Qed.

Lemma registered_inv_run p evs : ∀ c c',
  registered_inv p c → run c evs = Some c' → registered_inv p c'.
Proof.
  induction evs as [|e evs IH]; intros c c' Hinv Hrun.
  - by injection Hrun as <-.
  - cbn in Hrun. destruct (step c e) as [c1|] eqn:Hstep; [|done].
    eapply IH; [|done]. by eapply registered_inv_step.
Qed.

(** C6, as the code has it.  Take a background [execute] from a table
    without stale entries, in any interleaving with the children's
    terminations and with the handler: any events before [fork] returns
    [p], any events between that and the reading of [pt], any events
    between that and the [push_back].  If the child is still unreaped
    when the [push_back] has run (it may have terminated already, and
    the handler may have run for other children in between), then from
    there on, whenever the handler is not running, the table holds no
    stale entry, and it holds [p] exactly as long as [p] is an unreaped
    child: the registration is in place before the handler can remove
    it. *)
Theorem registration_before_removal cmd o g pre p w1 w2 c2 post c' :
  pt g = BACK →
  no_stale (start o g (execute cmd)) →
  0 < p →
  Forall (λ e, ¬ is_main e) pre →
  Forall (λ e, ¬ is_main e) w1 →
  Forall (λ e, ¬ is_main e) w2 →
  run (start o g (execute cmd))
      ((pre ++ [EMain (ASys p)]) ++ w1 ++ [EMain AMem] ++ w2 ++ [EMain AMem])
    = Some c2 →
  is_Some (children (os c2) !! p) →
  run c2 post = Some c' →
  handler c' = None →
  flow c' = Ret tt ∧ no_stale c' ∧
  (p ∈ bgProcIDs (mem c') ↔ is_Some (children (os c') !! p)).
Proof.
  intros Hpt Hns Hp Hpre Hw1 Hw2 Hrun Hchild Hpost Hquiet.
  rewrite run_app in Hrun.
  destruct (run _ (pre ++ [EMain (ASys p)])) as [cA|] eqn:Hfork; [|done].
  apply run_to_fork in Hfork as (c1 & Hrun1 & Hpt1 & Hh1 & Hc1 & Hal1 & ->);
    [|done..].
  assert (stale_only_in_removal c1) as Hstale1.
  { eapply stale_run_not_main; [| | |exact Hrun1]; [done..|].
    intros x Hx. left. by apply Hns. }
  rewrite run_app in Hrun.
  destruct (run _ w1) as [cB|] eqn:HrunB; [|done].
  pose proof HrunB as HnmB.
  apply run_not_main in HnmB as (HflB & HptB & _ & HstB); [|done..].
  assert (stale_only_in_removal cB) as HstaleB.
  { eapply stale_run_not_main; [| | |exact HrunB]; [done..|].
    intros x Hx. left. cbn in *.
    destruct (Hstale1 x Hx) as [Hs|Hh']; [|congruence].
    destruct (decide (p = x)) as [->|]; [by rewrite lookup_insert_eq|].
    by rewrite lookup_insert_ne. }
  cbn [flow mem] in HflB, HptB.
  change (w2 ++ [EMain AMem]) with (w2 ++ [EMain AMem] ++ []) in Hrun.
  cbn [app run] in Hrun.
  destruct (step cB (EMain AMem)) as [cC|] eqn:HstepC; [|done].
  pose proof (step_inv _ _ _ HstepC) as (HalB & HhB & _).
  erewrite step_main_get in HstepC; [|done|done|exact HflB].
  injection HstepC as <-.
  rewrite HptB, Hpt1, Hpt in Hrun.
  rewrite run_app in Hrun.
  destruct (run _ w2) as [cD|] eqn:HrunD; [|done].
  pose proof HrunD as HnmD.
  apply run_not_main in HnmD as (HflD & _ & _ & HstD); [|done..].
  assert (stale_only_in_removal cD) as HstaleD.
  { eapply stale_run_not_main; [| | |exact HrunD]; [done..|].
    intros x Hx. left. cbn in *.
    destruct (HstaleB x Hx) as [Hs|Hh']; [done|congruence]. }
  cbn [flow] in HflD. cbn [run] in Hrun.
  destruct (step cD (EMain AMem)) as [cE|] eqn:HstepE; [|done].
  injection Hrun as ->.
  pose proof (step_inv _ _ _ HstepE) as (HalD & HhD & _).
  erewrite step_main_upd in HstepE; [|done|done|exact HflD].
  injection HstepE as <-.
  eapply registered_inv_run in Hpost.
  - destruct Hpost as (_ & Hfl & Hstale & _ & Hreg').
    split; [done|]. split.
    + intros x Hx. destruct (Hstale x Hx) as [?|Hh']; [done|congruence].
    + split; [|done]. intros Hx.
      destruct (Hstale p Hx) as [?|Hh']; [done|congruence].
  - split; [done|]. split; [done|]. split; [|split].
    + intros x Hx. cbn in Hx. apply elem_of_app in Hx as [Hx|Hx].
      * left. cbn. destruct (HstaleD x Hx) as [Hs|Hh']; [done|congruence].
      * apply list_elem_of_singleton in Hx as ->. by left.
    + intros r Hr. done.
    + intros _. cbn. apply elem_of_app. right. by left.
Qed.

Lemma registration_before_removal_witness :
  let c' := Config os0
              (set_bgProcIDs (λ _, []) (set_pt BACK globals0)) (Ret tt) None in
  flow c' = Ret tt ∧ no_stale c' ∧
  (4 ∈ bgProcIDs (mem c') ↔ is_Some (children (os c') !! 4)).
Proof.
  apply (registration_before_removal "true" os0 (set_pt BACK globals0) [] 4
           [EExit 4 0] []
           (Config (set_pending true (set_children <[4 := Zombie 0]> os0))
              (set_bgProcIDs (λ _, [4]) (set_pt BACK globals0)) (Ret tt) None)
           (handler_events 4)).
  - reflexivity.
  - intros h Hh. vm_compute in Hh. by apply elem_of_nil in Hh.
  - lia.
  - constructor.
  - repeat constructor. by intros [].
  - constructor.
  - vm_compute. reflexivity.
  - by exists (Zombie 0).
  - vm_compute. reflexivity.
  - reflexivity.
Defined.

(** C6, as the claim states it, fails: between the return of [fork] and
    the [push_back] the child can exit and the handler can run; its
    [remove] finds nothing, and the [push_back] then leaves the reaped
    process in the table for good. *)
Lemma registration_race_counterexample :
  ¬ (∀ evs c',
       run (start os0 (set_pt BACK globals0) (execute "true")) evs = Some c' →
       flow c' = Ret tt → handler c' = None → no_stale c').
Proof.
  intros H.
  specialize (H [EMain (ASys 5); EExit 5 0; EDeliver; EHandler (ASys 0);
                 EHandler (ASys 5); EHandler AMem; EHandler ARet;
                 EMain AMem; EMain AMem] _ eq_refl eq_refl eq_refl 5).
  assert (is_Some ((∅ : gmap Z pstatus) !! 5)) as [s Hs].
  { apply H. cbn. by left. }
  by rewrite lookup_empty in Hs.
Qed.

(** ** The job table along a history *)





(** One invocation of [child_handler], from the delivery of the signal to
    its return: [wait] is called once, and what it returned is removed
    from the table. *)
Lemma handler_invocation {A} (c : config A) a1 a2 a3 a4 c' :
  run c [EDeliver; EHandler a1; EHandler a2; EHandler a3; EHandler a4]
    = Some c' →
  pending (os c) = true ∧ handler c = None ∧
  ∃ r, a2 = ASys r ∧
    ((∃ st, children (os c) !! r = Some (Zombie st) ∧
        c' = Config (set_children (delete r) (set_pending false (os c)))
               (set_bgProcIDs (list_remove r) (mem c)) (flow c) None)
     ∨ (r = -1 ∧ children (os c) = ∅ ∧
        c' = Config (set_pending false (os c))
               (set_bgProcIDs (list_remove (-1)) (mem c)) (flow c) None)).
Proof.
  cbn [run]. intros H.
  destruct (step c EDeliver) as [c1|] eqn:H1; [|done].
  destruct (step c1 (EHandler a1)) as [c2|] eqn:H2; [|done].
  destruct (step c2 (EHandler a2)) as [c3|] eqn:H3; [|done].
  destruct (step c3 (EHandler a3)) as [c4|] eqn:H4; [|done].
  destruct (step c4 (EHandler a4)) as [c5|] eqn:H5; [|done].
  injection H as <-.
  apply step_inv in H1 as (_ & Hpend & Hh & ->). do 2 (split; [done|]).
  apply step_handler_inv in H2 as (_ & Hc); [|by left].
  destruct Hc as [(_ & _ & ->)|[(r & st & Hh' & _)|[(Hh' & _)|
                 [(r & Hh' & _)|(Hh' & _)]]]]; try done.
  apply step_handler_inv in H3 as (_ & Hc); [|by right; left].
  destruct Hc as [(Hh' & _)|[(r & st & _ & -> & Hr & ->)|[(_ & -> & He & ->)|
                 [(r & Hh' & _)|(Hh' & _)]]]]; try done.
  - exists r. split; [done|]. left. exists st. split; [done|].
    apply step_handler_inv in H4 as (_ & Hc); [|right; right; left; by exists r].
    destruct Hc as [(Hh' & _)|[(r' & st' & Hh' & _)|[(Hh' & _)|
                   [(r' & Hh' & _ & ->)|(Hh' & _)]]]]; try done.
    assert (child_handler_remove r = child_handler_remove r') as Heq
      by (cbn in Hh'; congruence).
    apply child_handler_remove_inj in Heq as <-.
    apply step_handler_inv in H5 as (_ & Hc); [|by do 3 right].
    destruct Hc as [(Hh'' & _)|[(r' & st' & Hh'' & _)|[(Hh'' & _)|
                   [(r' & Hh'' & _)|(_ & _ & ->)]]]]; done.
  - exists (-1). split; [done|]. right. do 2 (split; [done|]).
    apply step_handler_inv in H4 as (_ & Hc);
      [|right; right; left; by exists (-1)].
    destruct Hc as [(Hh' & _)|[(r' & st' & Hh' & _)|[(Hh' & _)|
                   [(r' & Hh' & _ & ->)|(Hh' & _)]]]]; try done.
    assert (child_handler_remove (-1) = child_handler_remove r') as Heq
      by (cbn in Hh'; congruence).
    apply child_handler_remove_inj in Heq as <-.
    apply step_handler_inv in H5 as (_ & Hc); [|by do 3 right].
    destruct Hc as [(Hh'' & _)|[(r' & st' & Hh'' & _)|[(Hh'' & _)|
                   [(r' & Hh'' & _)|(_ & _ & ->)]]]]; done.
Qed.





(** ** What one invocation of the handler reaps *)

Lemma elem_of_zombies o r :
  r ∈ zombies o ↔ ∃ st, children o !! r = Some (Zombie st).
Proof.
  unfold zombies. rewrite elem_of_dom. unfold is_Some.
  setoid_rewrite map_lookup_filter_Some. cbn. split.
  - intros ([|st] & Hr & Hz); [done|]. by exists st.
  - intros [st Hr]. by exists (Zombie st).
Qed.

Lemma zombies_delete o r :
  zombies (set_children (delete r) (set_pending false o)) = zombies o ∖ {[r]}.
Proof.
  apply set_eq. intros x.
  rewrite elem_of_difference, !elem_of_zombies, elem_of_singleton. cbn.
  setoid_rewrite lookup_delete_Some. naive_solver.
Qed.

Example three_exits_run : job_run shell0 three_exits = Some three_zombies.
Proof. vm_compute. reflexivity. Qed.

(** C2, as the code has it.  An invocation of [child_handler] at a moment
    when some children are reapable calls [wait] once: it reaps exactly one
    of them, chosen by the kernel, and removes that one handle from the
    table; the other reapable children stay zombies and their handles stay
    in the table. *)
Theorem child_handler_reaps_one (c : config unit) a1 a2 a3 a4 c' :
  zombies (os c) ≠ ∅ →
  run c [EDeliver; EHandler a1; EHandler a2; EHandler a3; EHandler a4]
    = Some c' →
  ∃ r, a2 = ASys r ∧ r ∈ zombies (os c) ∧
       children (os c') = delete r (children (os c)) ∧
       zombies (os c') = zombies (os c) ∖ {[r]} ∧
       size (zombies (os c')) = (size (zombies (os c)) - 1)%nat ∧
       bgProcIDs (mem c') = list_remove r (bgProcIDs (mem c)) ∧
       handler c' = None.
Proof.
  intros Hz Hrun.
  apply handler_invocation in Hrun as (_ & _ & r & -> & Hcase).
  exists r. split; [done|].
  destruct Hcase as [(st & Hr & ->)|(-> & He & ->)].
  - assert (r ∈ zombies (os c)) as Hin by (apply elem_of_zombies; by exists st).
    split; [done|]. split; [done|]. cbn [os mem handler].
    rewrite zombies_delete. split; [done|]. split; [|done].
    rewrite size_difference by set_solver. by rewrite size_singleton.
  - exfalso. apply Hz. apply set_eq. intros x.
    rewrite elem_of_zombies, He. setoid_rewrite lookup_empty.
    split; [by intros [? ?]|by intros ?%elem_of_empty].
Qed.

Lemma child_handler_reaps_one_witness :
  ∃ r, ASys 4 = ASys r ∧ r ∈ zombies (os three_zombies) ∧
       children (os (Config
          (OS (<[5 := Zombie 0]> (<[3 := Zombie 0]> ∅)) false [] [] false Alive)
          (Globals BACK [3; 5] (replicate ARGS_MAX None)) (Ret tt) None))
         = delete r (children (os three_zombies)) ∧
       zombies (OS (<[5 := Zombie 0]> (<[3 := Zombie 0]> ∅))
                  false [] [] false Alive)
         = zombies (os three_zombies) ∖ {[r]} ∧
       size (zombies (OS (<[5 := Zombie 0]> (<[3 := Zombie 0]> ∅))
                        false [] [] false Alive))
         = (size (zombies (os three_zombies)) - 1)%nat ∧
       [3; 5] = list_remove r (bgProcIDs (mem three_zombies)) ∧
       @None (prog unit) = None.
Proof.
  apply (child_handler_reaps_one three_zombies (ASys 0) (ASys 4) AMem ARet
           (Config
              (OS (<[5 := Zombie 0]> (<[3 := Zombie 0]> ∅)) false [] [] false
                 Alive)
              (Globals BACK [3; 5] (replicate ARGS_MAX None)) (Ret tt) None)).
  - intros H. assert (3 ∈ zombies (os three_zombies)) as Hin.
    { apply elem_of_zombies. by exists 0. }
    rewrite H in Hin. by apply elem_of_empty in Hin.
  - vm_compute. reflexivity.
Defined.

(** C2, as the claim states it, fails.  Three background children have
    exited and one SIGCHLD is pending.  The invocation of the handler
    reaps child 3 only: 4 and 5 are still zombies and still in the table. *)
Lemma coalesced_exits_counterexample :
  ¬ (∀ (c : config unit) a1 a2 a3 a4 c',
       zombies (os c) ≠ ∅ →
       run c [EDeliver; EHandler a1; EHandler a2; EHandler a3; EHandler a4]
         = Some c' →
       zombies (os c') = ∅ ∧
       ∀ h, h ∈ zombies (os c) → h ∉ bgProcIDs (mem c')).
Proof.
  intros H.
  assert (∀ h, h ∈ [3; 4; 5] → h ∈ zombies (os three_zombies)) as Hz.
  { intros h Hh. apply elem_of_zombies. exists 0.
    repeat (apply elem_of_cons in Hh as [->|Hh]; [done|]).
    by apply elem_of_nil in Hh. }
  destruct (H three_zombies (ASys 0) (ASys 3) AMem ARet
              (Config
                 (OS (<[5 := Zombie 0]> (<[4 := Zombie 0]> ∅)) false [] []
                    false Alive)
                 (Globals BACK [4; 5] (replicate ARGS_MAX None)) (Ret tt)
                 None)) as [_ Hgone].
  - intros He.
    assert (3 ∈ zombies (os three_zombies)) as H3 by (apply Hz; by left).
    rewrite He in H3. by apply elem_of_empty in H3.
  - vm_compute. reflexivity.
  - apply (Hgone 4).
    + apply Hz. right. by left.
    + cbn. by left.
Qed.

(** ** Failure of [fork] *)

(** C4, as the code has it.  When [fork] fails in [execute] (it returns
    -1, the only negative value it returns), [execute] returns at once:
    nothing is printed, nothing is waited for, the globals and the state
    of the process are as before, and the shell goes on with whatever
    follows the call ([K]).  The failure does not end the interpreter; it
    is not reported. *)
Theorem execute_fork_failure {B} cmd (K : unit → prog B) o g :
  fate o = Alive →
  step (start o g (prog_bind K (execute cmd))) (EMain (ASys (-1)))
    = Some (start o g (K tt))
  ∧ ∀ r c', r < 0 →
      step (start o g (prog_bind K (execute cmd))) (EMain (ASys r)) = Some c' →
      c' = start o g (K tt).
Proof.
  intros Hal. split.
  - unfold step, start. cbn. rewrite Hal. cbn.
    rewrite !(decide_False (P := -1 = 0)) by lia.
    rewrite (decide_False (P := 0 < -1)) by lia.
    rewrite (decide_False (P := -1 > 0)) by lia.
    rewrite decide_True by done. by rewrite Hal.
  - intros r c' Hr Hstep.
    apply step_inv in Hstep as (_ & _ & q & o' & g' & Hfs & ->).
    cbn in Hal, Hfs. rewrite !(decide_False (P := r = 0)) in Hfs by lia.
    rewrite (decide_False (P := 0 < r)) in Hfs by lia.
    rewrite (decide_False (P := r > 0)) in Hfs by lia.
    destruct (decide (r = -1)) as [->|]; [|done].
    rewrite Hal in Hfs. by injection Hfs as <- <- <-.
Qed.

Lemma execute_fork_failure_witness :
  step (start os0 globals0 (prog_bind (λ _, prompt) (execute "ls")))
       (EMain (ASys (-1)))
    = Some (start os0 globals0 prompt).
Proof.
  apply (execute_fork_failure "ls" (λ _, prompt) os0 globals0). reflexivity.
Defined.

(** C4, as the claim states it, fails: [execute "ls"] with a failing
    [fork] returns without having printed anything. *)
Lemma fork_failure_counterexample :
  ¬ (∀ cmd o g r c',
       r < 0 →
       step (start o g (execute cmd)) (EMain (ASys r)) = Some c' →
       stdout (os c') ≠ stdout o).
Proof.
  intros H.
  by apply (H "ls" os0 globals0 (-1) (start os0 globals0 (Ret tt))).
Qed.

(** The same on a whole line: the shell reads "ls", [fork] fails, and all
    the user sees is the next prompt. *)
Example fork_failure_line :
  run (start os0 globals0 (on_newline zeroed (buffer_of "ls")))
      [EMain AMem; EMain AMem; EMain AMem; EMain (ASys (-1));
       EMain AMem; EMain AMem; EMain (ASys 10)]
    = Some (start (add_stdout "[mySHELL] " os0) globals0 (Ret tt)).
Proof. vm_compute. reflexivity. Qed.

(** ** [killBgProcs] *)

Section killbg.
Context {B : Type}.
Implicit Types (K : unit → prog B) (l nodes : list Z).

Lemma requested_fields l o :
  children (requested l o) = children o ∧
  pending (requested l o) = pending o ∧
  stdout (requested l o) = stdout o ∧
  fate (requested l o) = fate o ∧
  signalled (requested l o) = signalled o ++ requests l.
Proof.
  revert o. induction l as [|p l IH]; intros o.
  - cbn. by rewrite app_nil_r.
  - change (requested (p :: l) o) with (requested l (add_signalled p SIGINT o)).
    destruct (IH (add_signalled p SIGINT o)) as (-> & -> & -> & -> & ->).
    cbn. by rewrite <-app_assoc.
Qed.

(** One turn of the loop on a node that is linked, up to the [kill]. *)
Lemma run_kill_node K p nodes linked o g :
  fate o = Alive → p ∈ linked → p ∈ bgProcIDs g →
  run (Config o g (prog_bind K (kill_each (p :: nodes) linked)) None)
      [EMain AMem; EMain (ASys 0)]
    = Some (Config (add_signalled p SIGINT o) g
              (prog_bind K
                 (_ ← sys (usleep 1000);
                  g' ← read;
                  if decide (p ∈ bgProcIDs g')
                  then kill_each nodes (bgProcIDs g')
                  else Crash (UseAfterFree "bgProcIDs")))
              None).
Proof.
  intros Hal Hl Hg. cbn [kill_each]. rewrite decide_True by done.
  cbn [run]. erewrite step_main_get; [|done|done|reflexivity].
  cbn [os mem]. rewrite decide_True by done.
  erewrite (step_main_sys _ (kill p SIGINT) _ 0 (add_signalled p SIGINT o));
    [|done|done|reflexivity|done|done].
  done.
Qed.

(** The end of the turn: [usleep] returns and [++it] reads the node. *)
Lemma run_kill_next K p nodes o g r :
  fate o = Alive → r = 0 ∨ r = -1 →
  run (Config o g
         (prog_bind K
            (_ ← sys (usleep 1000);
             g' ← read;
             if decide (p ∈ bgProcIDs g')
             then kill_each nodes (bgProcIDs g')
             else Crash (UseAfterFree "bgProcIDs")))
         None)
      [EMain (ASys r); EMain AMem]
    = Some (Config o g
              (if decide (p ∈ bgProcIDs g)
               then prog_bind K (kill_each nodes (bgProcIDs g))
               else Crash (UseAfterFree "bgProcIDs"))
              None).
Proof.
  intros Hal Hr. cbn [run].
  erewrite (step_main_sys _ (usleep 1000) _ r o);
    [|done|done|reflexivity|cbn; by rewrite decide_True|done].
  erewrite step_main_get; [|done|done|reflexivity].
  cbn [os mem]. by case_decide.
Qed.

(** The loop, forwards and without interruption: every [kill] is made and
    the flow reaches what follows the loop. *)
Lemma run_kill_events nodes : ∀ K o g,
  fate o = Alive → nodes ⊆ bgProcIDs g →
  run (Config o g (prog_bind K (kill_each nodes (bgProcIDs g))) None)
      (kill_events nodes)
    = Some (Config (requested nodes o) g (K tt) None).
Proof.
  induction nodes as [|p nodes IH]; intros K o g Hal Hsub; [done|].
  assert (p ∈ bgProcIDs g) as Hp by (apply Hsub; by left).
  change (kill_events (p :: nodes))
    with ([EMain AMem; EMain (ASys 0)] ++
          [EMain (ASys 0); EMain AMem] ++ kill_events nodes).
  rewrite run_app, run_kill_node by done.
  rewrite run_app, run_kill_next by (done || by left).
  rewrite decide_True by done. apply IH; [done|].
  intros x Hx. apply Hsub. by right.
Qed.
End killbg.

Lemma run_killBgProcs o g :
  fate o = Alive →
  run (start o g killBgProcs)
      (EMain AMem :: kill_events (bgProcIDs g) ++ [EMain AMem])
    = Some (start (requested (bgProcIDs g) o) (set_bgProcIDs list_clear g)
              (Ret tt)).
Proof.
  intros Hal. unfold start. cbn [run].
  erewrite step_main_get; [|done..].
  cbn [os mem flow]. rewrite run_app.
  change (Get Ret ≫= _) with
    (λ g0 : globals,
       prog_bind (λ _, modify (set_bgProcIDs list_clear))
         (kill_each (bgProcIDs g0) (bgProcIDs g0))).
  cbn beta. rewrite run_kill_events by done. cbn [run].
  erewrite step_main_upd; [done|..]; try done.
  cbn. by destruct (requested_fields (bgProcIDs g) o) as (_ & _ & _ & -> & _).
Qed.

(** C3.  [killBgProcs] walks the live list while [child_handler] is
    meant to run during its pauses (the comment of lines 187-189), and
    the handler's [remove] erases the node the iterator stands on.
    - When the job at the head of the table ends during the pause that
      follows its [kill] and the handler reaps it there, [++it] reads the
      node that was freed: the loop is at a fault after a single request,
      whatever the number of handles, and the rest of the table was
      neither signalled nor cleared.
    - Run without interruption from a table of N handles, [killBgProcs]
      makes exactly one [kill(pid, SIGINT)] per handle, in the order of
      the table, N in all, and leaves the table empty; the processes are
      as they were: their termination was requested, not awaited. *)
Theorem killBgProcs_requests_all o g :
  fate o = Alive →
  (∀ p rest st,
     bgProcIDs g = p :: rest → children o !! p = Some Running →
     ∃ c', run (start o g killBgProcs)
             ([EMain AMem; EMain AMem; EMain (ASys 0); EExit p st] ++
              handler_events p ++ [EMain (ASys 0); EMain AMem]) = Some c' ∧
           flow c' = Crash (UseAfterFree "bgProcIDs") ∧
           (∀ a, step c' (EMain a) = None) ∧
           signalled (os c') = signalled o ++ [(p, SIGINT)] ∧
           bgProcIDs (mem c') = list_remove p rest)
  ∧ ∃ c', run (start o g killBgProcs)
            (EMain AMem :: kill_events (bgProcIDs g) ++ [EMain AMem])
            = Some c' ∧
          flow c' = Ret tt ∧
          bgProcIDs (mem c') = [] ∧
          signalled (os c') = signalled o ++ requests (bgProcIDs g) ∧
          length (signalled (os c')) =
            (length (signalled o) + length (bgProcIDs g))%nat ∧
          children (os c') = children o.
Proof.
  intros Hal. split.
  - intros p rest st Hg Hp.
    set (o1 := add_signalled p SIGINT o).
    set (o2 := set_pending false (set_children (delete p)
                 (set_children <[p := Zombie st]> o1))).
    set (g2 := set_bgProcIDs (list_remove p) g).
    exists (Config o2 g2 (Crash (UseAfterFree "bgProcIDs")) None).
    split; [|split; [done|split; [|split]]].
    + unfold start.
      change ([EMain AMem; EMain AMem; EMain (ASys 0); EExit p st] ++
              handler_events p ++ [EMain (ASys 0); EMain AMem])
        with ([EMain AMem] ++ [EMain AMem; EMain (ASys 0)] ++ [EExit p st] ++
              handler_events p ++ [EMain (ASys 0); EMain AMem]).
      rewrite run_app. cbn [run].
      erewrite step_main_get; [|done|done|reflexivity]. cbn [os mem].
      change (Get Ret ≫= _) with
        (λ g0 : globals,
           prog_bind (λ _, modify (set_bgProcIDs list_clear))
             (kill_each (bgProcIDs g0) (bgProcIDs g0))).
      cbn beta. rewrite Hg. rewrite run_app.
      rewrite run_kill_node; [|done|by left|rewrite Hg; by left].
      fold o1. rewrite run_app. cbn [run].
      rewrite (step_child_exit _ p st) by done.
      cbn [os mem flow handler]. rewrite run_app.
      erewrite (run_handler_reaps _ p st);
        [|done|done|done|cbn; by rewrite lookup_insert_eq].
      cbn [os mem flow handler].
      erewrite (run_kill_next _ p rest _ _ 0); [|exact Hal|by left].
      cbn [bgProcIDs set_bgProcIDs]. rewrite Hg.
      rewrite decide_False.
      * done.
      * unfold list_remove. rewrite list_elem_of_filter. by intros [? _].
    + intros a. unfold step. cbn [os o2 fate set_pending set_children
                                  add_signalled o1].
      rewrite Hal. cbn. by destruct a.
    + done.
    + cbn. rewrite Hg. unfold list_remove. cbn.
      by rewrite decide_False by (intros H; by apply H).
  - destruct (requested_fields (bgProcIDs g) o) as (Hc & _ & _ & Hf & Hs).
    eexists. split; [by apply run_killBgProcs|]. cbn.
    repeat split; try done.
    rewrite Hs, length_app. unfold requests. by rewrite length_fmap.
Qed.

Lemma killBgProcs_requests_all_witness :
  let o := set_children (λ _, <[4 := Running]> (<[7 := Running]> ∅)) os0 in
  let g := set_bgProcIDs (λ _, [4; 7]) globals0 in
  ∃ c', run (start o g killBgProcs)
          ([EMain AMem; EMain AMem; EMain (ASys 0); EExit 4 2] ++
           handler_events 4 ++ [EMain (ASys 0); EMain AMem]) = Some c' ∧
        flow c' = Crash (UseAfterFree "bgProcIDs") ∧
        (∀ a, step c' (EMain a) = None) ∧
        signalled (os c') = signalled o ++ [(4, SIGINT)] ∧
        bgProcIDs (mem c') = list_remove 4 [7].
Proof.
  intros o g.
  destruct (killBgProcs_requests_all o g eq_refl) as [H _].
  apply (H 4 [7] 2).
  - reflexivity.
  - reflexivity.
Defined.

(** ** A command that cannot be loaded *)






(** ** The exit status of the interpreter *)

Section exits.
Context {A B : Type}.



End exits.















(** Case analysis on a call that returned. *)
Ltac split_call H :=
  cbn in H;
  repeat first
    [ case_decide
    | match type of H with
      | context [children ?o !! ?x] =>
          destruct (children o !! x) as [[|?]|] eqn:?
      end ];
  simplify_eq.

Lemma os_call_in_child o cl r o' :
  os_call o cl r = Some o' → in_child o = true → in_child o' = true.
Proof. intros Hcall Hin. destruct cl; split_call Hcall; done. Qed.

Lemma step_in_child {A} (c : config A) e c' :
  step c e = Some c' → in_child (os c) = true → in_child (os c') = true.
Proof.
  intros Hstep Hin. destruct e as [p st| |a|a];
    apply step_inv in Hstep as (_ & Hstep).
  - by destruct Hstep as (_ & ->).
  - by destruct Hstep as (_ & _ & ->).
  - destruct Hstep as (_ & q & o & g & Hfs & ->). cbn.
    apply flow_step_inv in Hfs
      as [(cl & k & r & _ & _ & Hcall & _)|[(k & _ & _ & _ & -> & _)|
          (f & k & _ & _ & _ & -> & _)]]; [|done..].
    by eapply os_call_in_child.
  - destruct Hstep as (h & _ & [(v & _ & _ & ->)|(h' & o & g & Hfs & ->)]);
      [done|]. cbn.
    apply flow_step_inv in Hfs
      as [(cl & k & r & _ & _ & Hcall & _)|[(k & _ & _ & _ & -> & _)|
          (f & k & _ & _ & _ & -> & _)]]; [|done..].
    by eapply os_call_in_child.
Qed.



(** ** Two sessions *)

(** An empty input: the shell clears the screen, prompts, reads the end of
    the input and returns 0. *)
Example session_empty :
  exit_code <$>
    run (start os0 globals0 (main (λ _, zeroed) "a"%char []))
      [EMain AMem; EMain (ASys 0); EMain (ASys 0); EMain (ASys 0);
       EMain (ASys 0); EMain (ASys 9); EMain AMem; EExit 9 0;
       EMain (ASys 9); EMain (ASys 10); EMain (ASys 0); EMain (ASys 1)]
  = Some (Some 0).
Proof. vm_compute. reflexivity. Qed.

(** The line "x &" and then the end of the input: the job 12 is left in
    the table, and the shell returns 0. *)
Example session_background :
  (λ c, (bgProcIDs (mem c), exit_code c)) <$>
    run (start os0 globals0
           (main (λ _, zeroed) "a"%char
              (String.list_ascii_of_string "x &" ++ [newline])))
      [EMain AMem; EMain (ASys 0); EMain (ASys 0); EMain (ASys 0);
       EMain (ASys 0); EMain (ASys 9); EMain AMem; EExit 9 0;
       EMain (ASys 9); EMain (ASys 10); EMain (ASys 0);
       EMain AMem; EMain AMem; EMain AMem; EMain (ASys 12); EMain AMem;
       EMain AMem; EMain AMem; EMain AMem; EMain (ASys 10); EMain (ASys 1)]
  = Some ([12], Some 0).
Proof. vm_compute. reflexivity. Qed.

(** The buffer is back to its initial contents after every line. *)
Lemma bzero_malloc (input : list ascii) :
  length input = CHARS_MAX → bzero input = malloc CHARS_MAX.
Proof. intros H. unfold bzero, malloc. by rewrite H. Qed.

(** * Further properties of the code *)

(** ** The parser and [resetArgs] *)

Section parser_extra.
Context (h : heap).
Implicit Types (toks pre post args : list string) (t body : string).

Lemma buf_strlen_terminated (l : list ascii) :
  is_Some (buf_strlen (l ++ [NUL])).
Proof.
  induction l as [|c l [n IH]]; cbn.
  - rewrite decide_True by done. by eexists.
  - case_decide; [by eexists|]. rewrite IH. by eexists.
Qed.

Lemma resetArgs_loop_terminated i args (tail : list (option (list ascii))) :
  resetArgs_loop i ((Some ∘ str_block <$> args) ++ None :: tail) =
    inr (replicate (length args) None ++ None :: tail).
Proof.
  revert i. induction args as [|a args IH]; intros i; [done|].
  cbn. destruct (buf_strlen_terminated (String.list_ascii_of_string a))
    as [n Hn].
  unfold str_block. rewrite Hn. cbn in IH. by rewrite IH.
Qed.

Lemma resetArgs_loop_full i args :
  resetArgs_loop i (Some ∘ str_block <$> args) =
    inl (OutOfBounds "my_argv" (i + length args)).
Proof.
  revert i. induction args as [|a args IH]; intros i; cbn.
  - by rewrite Nat.add_0_r.
  - destruct (buf_strlen_terminated (String.list_ascii_of_string a))
      as [n Hn].
    unfold str_block. rewrite Hn. cbn in IH. rewrite IH. do 2 f_equal. lia.
Qed.

Lemma resetArgs_loop_holding args :
  resetArgs_loop 0 (holding args) =
    if decide (length args < ARGS_MAX)%nat then inr no_args
    else inl (OutOfBounds "my_argv" (length args)).
Proof.
  unfold holding. case_decide as Hlen.
  - destruct (ARGS_MAX - length args)%nat as [|k] eqn:Hk; [lia|].
    cbn [replicate]. rewrite resetArgs_loop_terminated. f_equal.
    unfold no_args. replace ARGS_MAX with (length args + S k)%nat by lia.
    by rewrite replicate_add.
  - replace (ARGS_MAX - length args)%nat with 0%nat by lia.
    rewrite app_nil_r. apply resetArgs_loop_full.
Qed.

(** A token is its last character after all the others. *)
Lemma last_char_split t c :
  last_char t = Some c → t = all_but_last t +:+ String c EmptyString.
Proof.
  revert c. induction t as [|a t IH]; intros c; [done|].
  destruct t as [|b t].
  - cbn. by intros [= ->].
  - intros Hc.
    assert (last_char (String b t) = Some c) as Hc' by exact Hc.
    specialize (IH c Hc').
    assert (all_but_last (String a (String b t)) =
            String a (all_but_last (String b t))) as ->.
    { unfold all_but_last, strlen. cbn [String.length Nat.sub].
      cbn [String.substring]. by rewrite Nat.sub_0_r. }
    change (String a (all_but_last (String b t)) +:+ String c EmptyString)
      with (String a (all_but_last (String b t) +:+ String c EmptyString)).
    by rewrite <-IH.
Qed.

Lemma line_args_length toks :
  (length (line_args toks).1 ≤ length toks)%nat.
Proof.
  induction toks as [|t toks IH]; cbn [line_args]; [done|].
  case_decide; cbn [fst length]; [|lia].
  unfold marker_arg. case_decide; cbn [length]; lia.
Qed.

Lemma clean_cons (k : heap) t args :
  clean k (t :: args) ↔
  k 0%nat (strlen t) = NUL ∧ clean (λ i, k (S i)) args.
Proof.
  unfold clean. split.
  - intros H. split; [by apply (H 0%nat)|]. intros i a Hi. by apply (H (S i)).
  - intros [H0 H] [|i] a Hi; [by injection Hi as <-|]. by apply H.
Qed.

(** What the loop makes of the tokens [toks] when [my_argv] holds
    [args]: on a heap that is clean for the arguments of [toks] they are
    stored after [args]; on another heap the first block that does not
    end in NUL stops the loop; and in either case the array may be too
    short. *)
Lemma getArgs_loop_holding toks : ∀ args,
  Forall (λ t, is_Some (last_char t) ∧ c_string t) toks →
  (length args ≤ ARGS_MAX)%nat →
  match getArgs_loop h toks (length args) (holding args) with
  | inl e =>
      ((e = NullDereference "tok" ∨ e = OutOfBounds "my_argv" ARGS_MAX) ∧
       (ARGS_MAX ≤ length args + length toks)%nat)
      ∨ ((∃ k, e = OutOfBounds "my_argv[argNum]" k) ∧
         ¬ clean (λ i, h (length args + i)%nat) (line_args toks).1)
  | inr (argv, mode) =>
      argv = holding (args ++ (line_args toks).1) ∧
      mode = (line_args toks).2 ∧
      clean (λ i, h (length args + i)%nat) (line_args toks).1 ∧
      (length (args ++ (line_args toks).1) ≤ ARGS_MAX)%nat
  end.
Proof.
  induction toks as [|t toks IH]; intros args Hne Hlen.
  - cbn [getArgs_loop line_args fst snd]. case_decide.
    + left. split; [by left|cbn [length]; lia].
    + rewrite app_nil_r. by repeat split.
  - apply Forall_cons in Hne as [[[c Hc] Ht] Hne].
    cbn [line_args]. destruct (decide (c = ampersand)) as [->|Hamp].
    + rewrite decide_True by done. cbn [fst snd].
      pose proof (last_char_split _ _ Hc) as Hsplit.
      unfold ampersand in Hsplit.
      assert (c_string (all_but_last t)) as Hbody.
      { apply c_string_body. by rewrite <-Hsplit. }
      remember (all_but_last t) as body eqn:Hb0. clear Hb0. subst t.
      rewrite getArgs_loop_marker.
      unfold marker_arg. case_decide as Hb.
      * rewrite app_nil_r. by repeat split.
      * destruct (decide (length args < ARGS_MAX)%nat) as [Hlt|Hge].
        -- rewrite store_arg_holding by done. case_decide as Hj.
           ++ split; [done|]. split; [done|]. split.
              ** apply clean_cons. by rewrite Nat.add_0_r.
              ** rewrite length_app. cbn [length]. lia.
           ++ right. split; [by eexists|]. intros Hcl.
              apply clean_cons in Hcl as [H0 _].
              by rewrite Nat.add_0_r in H0.
        -- rewrite store_arg_outside by lia. left.
           replace (length args) with ARGS_MAX by lia.
           split; [by right|cbn [length]; lia].
    + assert (plain t) as Hplain.
      { unfold plain. rewrite Hc. intros [= ?]. done. }
      rewrite decide_False by exact Hplain. cbn [fst snd].
      rewrite getArgs_loop_plain_cons; [|by eexists|done].
      destruct (decide (length args < ARGS_MAX)%nat) as [Hlt|Hge].
      * rewrite store_arg_holding by done. case_decide as Hj.
        -- specialize (IH (args ++ [t]) Hne). rewrite length_app in IH.
           cbn [length] in IH. rewrite Nat.add_1_r in IH.
           specialize (IH ltac:(lia)).
           destruct (getArgs_loop h toks (S (length args))
                       (holding (args ++ [t]))) as [e|[argv mode]].
           ++ destruct IH as [[He Hn]|[He Hcl]].
              ** left. split; [done|cbn [length]; lia].
              ** right. split; [done|]. intros Hcl'. apply Hcl.
                 apply clean_cons in Hcl' as [_ Hcl'].
                 intros i a Hi. specialize (Hcl' i a Hi). cbn beta in *.
                 by replace (S (length args) + i)%nat
                      with (length args + S i)%nat by lia.
           ++ destruct IH as (-> & -> & Hcl & Hn).
              rewrite <-app_assoc in *. cbn [app] in *.
              split; [done|]. split; [done|]. split; [|done].
              apply clean_cons. split; [by rewrite Nat.add_0_r|].
              intros i a Hi. specialize (Hcl i a Hi). cbn beta in *.
              by replace (length args + S i)%nat
                   with (S (length args) + i)%nat by lia.
        -- right. split; [by eexists|]. intros Hcl.
           apply clean_cons in Hcl as [H0 _]. by rewrite Nat.add_0_r in H0.
      * rewrite store_arg_outside by lia. left.
        replace (length args) with ARGS_MAX by lia.
        split; [by right|cbn [length]; lia].
Qed.

Lemma strtok_all_ok input :
  Forall (λ t, is_Some (last_char t) ∧ c_string t) (strtok input).
Proof.
  apply Forall_forall. intros t Ht. split.
  - by eapply strtok_last_char.
  - by eapply strtok_c_string.
Qed.

End parser_extra.

Lemma getArgs_outcome h input g :
  my_argv g = no_args →
  match getArgs h input g with
  | inl e =>
      ((e = NullDereference "tok" ∨ e = OutOfBounds "my_argv" ARGS_MAX) ∧
       (ARGS_MAX ≤ length (strtok input))%nat)
      ∨ ((∃ k, e = OutOfBounds "my_argv[argNum]" k) ∧
         ¬ clean h (line_args (strtok input)).1)
  | inr g' =>
      g' = set_pt (line_args (strtok input)).2
             (set_my_argv (holding (line_args (strtok input)).1) g) ∧
      clean h (line_args (strtok input)).1 ∧
      (length (line_args (strtok input)).1 ≤ ARGS_MAX)%nat
  end.
Proof.
  intros Hg. unfold getArgs. rewrite Hg, <-holding_nil.
  pose proof (getArgs_loop_holding h (strtok input) []
                (strtok_all_ok input)) as H.
  cbn [length Nat.add app] in H. specialize (H ltac:(lia)).
  destruct (getArgs_loop h (strtok input) 0 (holding [])) as [e|[argv mode]];
    [done|].
  by destruct H as (-> & -> & ? & ?).
Qed.

(** X1.  [getArgs] from an empty [my_argv], whatever the line and
    whatever the heap.  It faults in three ways only: by dereferencing the
    NULL token or by accessing [my_argv[ARGS_MAX]], and then the line has
    at least ARGS_MAX tokens; or because the string of an argument runs
    past its block, and then the heap was not clean for the arguments of
    the line.  The read of the last character of a token is never out of
    bounds.  When it does not fault, [pt] is the mode of the line,
    [my_argv] holds exactly the arguments of the line in its first slots
    and NULL in the others, the job table is untouched, and the heap was
    clean for the arguments. *)
Theorem getArgs_faults_and_shape h input g :
  my_argv g = no_args →
  match getArgs h input g with
  | inl e =>
      ((e = NullDereference "tok" ∨ e = OutOfBounds "my_argv" ARGS_MAX) ∧
       (ARGS_MAX ≤ length (strtok input))%nat)
      ∨ ((∃ k, e = OutOfBounds "my_argv[argNum]" k) ∧
         ¬ clean h (line_args (strtok input)).1)
  | inr g' =>
      g' = set_pt (line_args (strtok input)).2
             (set_my_argv (holding (line_args (strtok input)).1) g) ∧
      clean h (line_args (strtok input)).1 ∧
      (length (line_args (strtok input)).1 ≤ ARGS_MAX)%nat
  end.
Proof. apply getArgs_outcome. Qed.

Lemma getArgs_faults_and_shape_witness :
  match getArgs recycled "exit" globals0 with
  | inl e =>
      ((e = NullDereference "tok" ∨ e = OutOfBounds "my_argv" ARGS_MAX) ∧
       (ARGS_MAX ≤ length (strtok "exit"))%nat)
      ∨ ((∃ k, e = OutOfBounds "my_argv[argNum]" k) ∧
         ¬ clean recycled (line_args (strtok "exit")).1)
  | inr g' =>
      g' = set_pt (line_args (strtok "exit")).2
             (set_my_argv (holding (line_args (strtok "exit")).1) globals0) ∧
      clean recycled (line_args (strtok "exit")).1 ∧
      (length (line_args (strtok "exit")).1 ≤ ARGS_MAX)%nat
  end.
Proof.
  apply (getArgs_faults_and_shape recycled "exit" globals0). reflexivity.
Defined.

(** X2.  A line of fewer than ARGS_MAX tokens, none of which ends in '&',
    parsed from an empty [my_argv] on a heap that is clean for its
    tokens: the mode is FORE, the argument vector is the list of all the
    tokens in order, and the command is the first of them. *)
Theorem getArgs_foreground_line h input g :
  my_argv g = no_args → Forall plain (strtok input) →
  (length (strtok input) < ARGS_MAX)%nat → clean h (strtok input) →
  ∃ g', getArgs h input g = inr g' ∧ pt g' = FORE ∧
        argv_of (my_argv g') = Some (strtok input) ∧
        (∀ cmd args, strtok input = cmd :: args →
           command_line g' = Some (cmd, cmd :: args, FORE)).
Proof.
  intros Hg Hplain Hlen Hh. eexists. split; [by apply getArgs_plain_line|].
  split; [done|]. cbn [my_argv set_pt set_my_argv].
  assert (argv_of (holding (strtok input)) = Some (strtok input)) as Hv.
  { rewrite argv_of_holding by apply strtok_all_c_string.
    by rewrite decide_True. }
  split; [done|]. intros cmd args Htok. unfold command_line.
  cbn [my_argv set_pt set_my_argv pt]. rewrite Hv, Htok.
  cbn. rewrite c_str_str_block; [done|].
  apply (strtok_c_string input). rewrite Htok. by left.
Qed.

Lemma getArgs_foreground_line_witness :
  ∃ g', getArgs zeroed "grep -n  x" globals0 = inr g' ∧ pt g' = FORE ∧
        argv_of (my_argv g') = Some (strtok "grep -n  x") ∧
        (∀ cmd args, strtok "grep -n  x" = cmd :: args →
           command_line g' = Some (cmd, cmd :: args, FORE)).
Proof.
  apply (getArgs_foreground_line zeroed "grep -n  x" globals0).
  - reflexivity.
  - unfold plain. compute_done.
  - vm_compute. lia.
  - by intros i a _.
Defined.

(** X3.  Parsing and resetting compose to nothing on [my_argv]: whenever
    [getArgs] has parsed a line of fewer than ARGS_MAX tokens without
    fault, on any heap, [resetArgs] leaves every slot NULL again, so the
    next line is parsed from an empty array; and on a heap that is clean
    for the arguments of the line [getArgs] does parse it without
    fault. *)
Theorem getArgs_then_resetArgs h input g :
  my_argv g = no_args →
  (length (strtok input) < ARGS_MAX)%nat →
  (∀ g1, getArgs h input g = inr g1 →
         resetArgs g1 = inr (set_my_argv no_args g1))
  ∧ (clean h (line_args (strtok input)).1 →
     ∃ g1, getArgs h input g = inr g1 ∧
           resetArgs g1 = inr (set_my_argv no_args g1)).
Proof.
  intros Hg Hlen. pose proof (getArgs_outcome h input g Hg) as H.
  pose proof (line_args_length (strtok input)) as Hle.
  assert (∀ g1, getArgs h input g = inr g1 →
                resetArgs g1 = inr (set_my_argv no_args g1)) as Hreset.
  { intros g1 Hparse. rewrite Hparse in H. destruct H as (-> & _ & _).
    unfold resetArgs. cbn [my_argv set_pt set_my_argv].
    rewrite resetArgs_loop_holding. by rewrite decide_True by lia. }
  split; [done|]. intros Hcl.
  destruct (getArgs h input g) as [e|g1]; [|exists g1; by auto].
  destruct H as [[_ ?]|[_ ?]]; [lia|done].
Qed.

Lemma getArgs_then_resetArgs_witness :
  (∀ g1, getArgs zeroed "make -j4 all &" globals0 = inr g1 →
         resetArgs g1 = inr (set_my_argv no_args g1))
  ∧ (clean zeroed (line_args (strtok "make -j4 all &")).1 →
     ∃ g1, getArgs zeroed "make -j4 all &" globals0 = inr g1 ∧
           resetArgs g1 = inr (set_my_argv no_args g1)).
Proof.
  apply (getArgs_then_resetArgs zeroed "make -j4 all &" globals0).
  - reflexivity.
  - vm_compute. lia.
Defined.

(** X4.  A background line with exactly ARGS_MAX arguments, on a heap
    that is clean for them, is parsed without fault but fills every slot
    of [my_argv]: the vector has no NULL terminator left for [execvp], and
    [resetArgs] then reads [my_argv[ARGS_MAX]], past the end of the
    array. *)
Theorem full_argv_has_no_terminator h input g pre body post :
  my_argv g = no_args →
  strtok input = pre ++ (body +:+ "&") :: post →
  Forall plain pre →
  length (pre ++ marker_arg body) = ARGS_MAX →
  clean h (pre ++ marker_arg body) →
  ∃ g1, getArgs h input g = inr g1 ∧ pt g1 = BACK ∧
        my_argv g1 = Some ∘ str_block <$> (pre ++ marker_arg body) ∧
        argv_of (my_argv g1) = None ∧
        resetArgs g1 = inl (OutOfBounds "my_argv" ARGS_MAX).
Proof.
  intros Hg Htok Hplain Hlen Hh. eexists.
  split; [apply (getArgs_marker_line h _ _ _ _ _ Hg Htok Hplain); [lia|done]|].
  split; [done|]. cbn [my_argv set_pt set_my_argv].
  split; [|split].
  - unfold holding. rewrite Hlen, Nat.sub_diag. apply app_nil_r.
  - rewrite argv_of_holding.
    + by rewrite decide_False by lia.
    + pose proof (strtok_all_c_string input) as Hc. rewrite Htok in Hc.
      apply Forall_app in Hc as [Hc1 Hc2]. apply Forall_app. split; [done|].
      apply marker_arg_c_string. exact (Forall_inv Hc2).
  - unfold resetArgs. cbn [my_argv set_pt set_my_argv].
    rewrite resetArgs_loop_holding, decide_False by lia. by rewrite Hlen.
Qed.

Lemma full_argv_has_no_terminator_witness :
  ∃ g1, getArgs zeroed "a b c d e f g h i j &" globals0 = inr g1 ∧
        pt g1 = BACK ∧
        my_argv g1 =
          Some ∘ str_block <$>
            (["a"; "b"; "c"; "d"; "e"; "f"; "g"; "h"; "i"; "j"]
               ++ marker_arg "") ∧
        argv_of (my_argv g1) = None ∧
        resetArgs g1 = inl (OutOfBounds "my_argv" ARGS_MAX).
Proof.
  apply (full_argv_has_no_terminator zeroed "a b c d e f g h i j &" globals0
           ["a"; "b"; "c"; "d"; "e"; "f"; "g"; "h"; "i"; "j"] "" []).
  - reflexivity.
  - reflexivity.
  - unfold plain. compute_done.
  - reflexivity.
  - by intros i a _.
Defined.

(** ** The input loop *)

Section input_loop_extra.
Context (hs : nat → heap).
Implicit Types (line rest filled : list ascii) (c : ascii).

Lemma text_char_not_NUL line :
  Forall text_char line → Forall (λ c, c ≠ NUL) line.
Proof. intros H. eapply Forall_impl; [exact H|]. by intros c [? _]. Qed.

(** [strncat] of a NUL byte appends nothing. *)
Lemma strncat_char_NUL filled k :
  Forall (λ c, c ≠ NUL) filled →
  strncat_char (filled ++ replicate (S k) NUL) NUL =
    inr (filled ++ replicate (S k) NUL).
Proof.
  intros Hf. unfold strncat_char. rewrite buf_strlen_filled by done.
  rewrite decide_True by done. unfold buf_write.
  rewrite decide_True by (rewrite length_app, length_replicate; lia).
  f_equal. rewrite insert_app_r_alt, Nat.sub_diag by lia. done.
Qed.

Lemma main_loop_drops_NUL line : ∀ rest filled k,
  Forall (λ c, c ≠ newline ∧ c ≠ EOF_char) line →
  Forall (λ c, c ≠ NUL) filled →
  main_loop hs (line ++ rest) (filled ++ replicate (S k) NUL) =
    main_loop hs (filter (λ c, c ≠ NUL) line ++ rest)
      (filled ++ replicate (S k) NUL).
Proof.
  induction line as [|c line IH]; intros rest filled k Hline Hfilled; [done|].
  apply Forall_cons in Hline as [[Hnl Heof] Hline].
  destruct (decide (c = NUL)) as [->|Hc].
  - rewrite filter_cons_False by (intros H; by apply H).
    rewrite <-IH by done. cbn [app main_loop].
    rewrite decide_False by done. rewrite strncat_char_NUL by done.
    cbn. by rewrite decide_False.
  - rewrite filter_cons_True by done. cbn [app].
    rewrite !main_loop_text by done.
    destruct k as [|k].
    + by rewrite strncat_char_full.
    + rewrite strncat_char_fits by done. apply IH; [done|].
      apply Forall_app. split; [done|]. by constructor.
Qed.
End input_loop_extra.

(** X5.  The loop hands every complete line over on its own: a line of
    fewer than CHARS_MAX text characters followed by a newline reaches the
    newline case in a buffer that holds exactly that line, and what
    follows it is read from an empty buffer again. *)
Theorem main_loop_hands_over_line hs (line rest : list ascii) :
  Forall text_char line → (length line < CHARS_MAX)%nat →
  let input := line ++ replicate (CHARS_MAX - length line) NUL in
  c_str input = String.string_of_list_ascii line ∧
  main_loop hs (line ++ newline :: rest) (malloc CHARS_MAX) =
    (_ ← on_newline (hs 0%nat) input;
     main_loop (later hs) rest (malloc CHARS_MAX)).
Proof.
  intros Hline Hlen input. pose proof (text_char_not_NUL _ Hline) as Hnn.
  split; [by apply c_str_filled|].
  pose proof (main_loop_line hs line (newline :: rest) [] (pred CHARS_MAX)
                Hline) as H.
  cbn [app length Nat.add] in H. specialize (H (Forall_nil_2 _)).
  rewrite decide_True in H by (unfold CHARS_MAX in *; cbn; lia).
  change (replicate (S (pred CHARS_MAX)) NUL) with (malloc CHARS_MAX) in H.
  change (S (pred CHARS_MAX)) with CHARS_MAX in H.
  rewrite H. fold input. cbn [main_loop]. rewrite decide_True by done.
  rewrite bzero_malloc; [done|].
  unfold input. rewrite length_app, length_replicate. lia.
Qed.

Lemma main_loop_hands_over_line_witness :
  let input := String.list_ascii_of_string "ls" ++ replicate 98 NUL in
  c_str input = "ls" ∧
  main_loop (λ _, zeroed) (String.list_ascii_of_string "ls" ++ newline :: [])
      (malloc CHARS_MAX) =
    (_ ← on_newline zeroed input;
     main_loop (later (λ _, zeroed)) [] (malloc CHARS_MAX)).
Proof.
  apply (main_loop_hands_over_line (λ _, zeroed)
           (String.list_ascii_of_string "ls") []).
  - repeat constructor; discriminate.
  - vm_compute. lia.
Defined.

(** X6.  At the end of the input the byte of [EOF] is appended to the
    buffer like any character before the loop test is made.  A last line
    without newline is therefore never executed: the shell prints a
    newline and returns 0; and if that line has CHARS_MAX - 1 characters
    the append writes [input[CHARS_MAX]]. *)
Theorem main_loop_unterminated_line hs (line : list ascii) :
  Forall text_char line →
  ((length line < CHARS_MAX - 1)%nat →
     main_loop hs line (malloc CHARS_MAX) = finish)
  ∧ ((length line = CHARS_MAX - 1)%nat →
     main_loop hs line (malloc CHARS_MAX) = Crash (OutOfBounds "input" CHARS_MAX)).
Proof.
  intros Hline. pose proof (text_char_not_NUL _ Hline) as Hnn.
  pose proof (main_loop_line hs line [] [] (pred CHARS_MAX) Hline) as H.
  cbn [app length Nat.add] in H. specialize (H (Forall_nil_2 _)).
  rewrite app_nil_r in H.
  change (replicate (S (pred CHARS_MAX)) NUL) with (malloc CHARS_MAX) in H.
  change (S (pred CHARS_MAX)) with CHARS_MAX in H.
  split; intros Hlen.
  - rewrite decide_True in H by (unfold CHARS_MAX in *; cbn; lia).
    rewrite H. cbn [main_loop].
    assert (∃ k, (CHARS_MAX - length line)%nat = S (S k)) as [k ->].
    { exists (CHARS_MAX - length line - 2)%nat. lia. }
    by rewrite strncat_char_fits.
  - rewrite decide_True in H by (unfold CHARS_MAX in *; cbn; lia).
    rewrite H. cbn [main_loop].
    replace (CHARS_MAX - length line)%nat with 1%nat
      by (unfold CHARS_MAX in *; lia).
    rewrite strncat_char_full by done. cbn [lift mbind prog_mbind prog_bind].
    do 2 f_equal. unfold CHARS_MAX in *. lia.
Qed.

Lemma main_loop_unterminated_line_witness :
  main_loop (λ _, zeroed) (String.list_ascii_of_string "exit")
    (malloc CHARS_MAX) = finish.
Proof.
  apply (main_loop_unterminated_line (λ _, zeroed)
           (String.list_ascii_of_string "exit")).
  - repeat constructor; discriminate.
  - vm_compute. lia.
Defined.

(** X7.  NUL bytes in the input are dropped: [strncat] appends nothing for
    them, so a line is read as if they were not there. *)
Theorem main_loop_ignores_NUL hs (line rest : list ascii) :
  Forall (λ c, c ≠ newline ∧ c ≠ EOF_char) line →
  main_loop hs (line ++ rest) (malloc CHARS_MAX) =
    main_loop hs (filter (λ c, c ≠ NUL) line ++ rest) (malloc CHARS_MAX).
Proof.
  intros Hline.
  apply (main_loop_drops_NUL hs line rest [] (pred CHARS_MAX) Hline).
  constructor.
Qed.

Lemma main_loop_ignores_NUL_witness :
  main_loop (λ _, zeroed) (["l"%char; NUL; "s"%char] ++ [newline])
      (malloc CHARS_MAX) =
    main_loop (λ _, zeroed)
      (filter (λ c, c ≠ NUL) ["l"%char; NUL; "s"%char] ++ [newline])
      (malloc CHARS_MAX).
Proof.
  apply (main_loop_ignores_NUL (λ _, zeroed) ["l"%char; NUL; "s"%char]
           [newline]).
  repeat constructor; discriminate.
Defined.

(** ** Whole lines *)

(** Every run of a flow is a run of that flow followed by [K]. *)
Lemma step_followed_by {A B} (K : A → prog B) (c : config A) e c' :
  step c e = Some c' →
  step (followed_by K c) e = Some (followed_by K c').
Proof.
  intros Hstep. pose proof (step_inv _ _ _ Hstep) as [Hal Hcase].
  unfold step, followed_by in *. cbn [os mem flow handler] in *.
  rewrite Hal in *. destruct e as [p st| |a|a].
  - destruct (children (os c) !! p) as [[|?]|]; by simplify_eq.
  - destruct (pending (os c)), (handler c); by simplify_eq.
  - destruct (handler c); [done|].
    destruct (flow c) as [v|err|cl k|k|f k], a as [r| |]; cbn in *;
      try done; [|by simplify_eq..].
    destruct (os_call (os c) cl r) as [o'|]; [|done]. simplify_eq.
    by destruct (fate o').
  - destruct (handler c) as [h|]; [|done].
    destruct h as [v|err|cl k|k|f k]; try by simplify_eq.
    + destruct a; by simplify_eq.
    + destruct (flow_step (Sys cl k) a (os c) (mem c)) as [[[? ?] ?]|];
        by simplify_eq.
    + destruct (flow_step (Get k) a (os c) (mem c)) as [[[? ?] ?]|];
        by simplify_eq.
    + destruct (flow_step (Upd f k) a (os c) (mem c)) as [[[? ?] ?]|];
        by simplify_eq.
Qed.

Lemma run_followed_by {A B} (K : A → prog B) evs : ∀ (c : config A) c',
  run c evs = Some c' →
  run (followed_by K c) evs = Some (followed_by K c').
Proof.
  induction evs as [|e evs IH]; intros c c' Hrun.
  - by injection Hrun as <-.
  - cbn in *. destruct (step c e) as [c1|] eqn:Hstep; [|done].
    rewrite (step_followed_by K _ _ _ Hstep). by apply IH.
Qed.

(** [getArgs] writes [pt] and [my_argv] only. *)
Lemma getArgs_writes h input g g1 :
  getArgs h input g = inr g1 →
  set_pt (pt g1) (set_my_argv (my_argv g1) g) = g1.
Proof.
  unfold getArgs. destruct (getArgs_loop _ _ _ _) as [e|[argv mode]]; [done|].
  by intros [= <-].
Qed.

Lemma resetArgs_writes g g1 :
  resetArgs g = inr g1 →
  set_pt (pt g1) (set_my_argv (my_argv g1) g) = g1.
Proof.
  unfold resetArgs. destruct (resetArgs_loop _ _) as [e|a]; [done|].
  intros [= <-]. by destruct g.
Qed.

(** [on_args f] in a flow: two memory steps. *)
Lemma run_on_args {B} f (K : unit → prog B) o g g' :
  fate o = Alive → f g = inr g' →
  run (start o g (prog_bind K (on_args f))) [EMain AMem; EMain AMem]
    = Some (start o (set_pt (pt g') (set_my_argv (my_argv g') g)) (K tt)).
Proof.
  intros Hal Hf. unfold start.
  change [EMain AMem; EMain AMem] with ([EMain AMem] ++ [EMain AMem]).
  rewrite run_app. cbn [run].
  erewrite step_main_get; [|done|done|reflexivity].
  cbn [os mem flow]. rewrite Hf. cbn [lift prog_bind].
  erewrite step_main_upd; [|done|done|reflexivity]. done.
Qed.

Lemma run_prompt o g :
  fate o = Alive →
  run (start o g prompt) [EMain (ASys (Z.of_nat (strlen (prmpt +:+ " "))))]
    = Some (start (add_stdout (prmpt +:+ " ") o) g (Ret tt)).
Proof.
  intros Hal. unfold start. cbn [run].
  rewrite (step_main_sys _ (printf (prmpt +:+ " ")) (λ _, Ret tt) _
             (add_stdout (prmpt +:+ " ") o)); try done.
Qed.

(** After the dispatch: the arguments are reset and the prompt is
    printed. *)
Lemma run_wrapup o g :
  fate o = Alive → (∃ args, my_argv g = holding args ∧
                            (length args < ARGS_MAX)%nat) →
  run (start o g (after_dispatch tt)) wrapup_events
    = Some (start (add_stdout (prmpt +:+ " ") o) (set_my_argv no_args g)
              (Ret tt)).
Proof.
  intros Hal (args & Hargs & Hlen).
  assert (resetArgs g = inr (set_my_argv no_args g)) as Hreset.
  { unfold resetArgs. rewrite Hargs, resetArgs_loop_holding.
    by rewrite decide_True. }
  change wrapup_events with
    ([EMain AMem; EMain AMem] ++
     [EMain (ASys (Z.of_nat (strlen (prmpt +:+ " "))))]).
  rewrite run_app.
  change (after_dispatch tt) with (prog_bind (λ _, prompt) (on_args resetArgs)).
  rewrite (run_on_args _ _ _ _ _ Hal Hreset).
  rewrite (resetArgs_writes _ _ Hreset). by apply run_prompt.
Qed.

(** The newline case up to the dispatch. *)
Lemma run_parse h o g c tl g1 :
  fate o = Alive → c ≠ NUL →
  getArgs h (c_str (c :: tl)) g = inr g1 →
  run (start o g (on_newline h (c :: tl))) parse_events
    = Some (start o g1
              match my_argv g1 !! 0%nat with
              | Some (Some b) =>
                  match buf_strlen b with
                  | Some _ => prog_bind after_dispatch (dispatch (c_str b))
                  | None => Crash (OutOfBounds "my_argv[0]" (length b))
                  end
              | _ => Crash (NullDereference "my_argv[0]")
              end).
Proof.
  intros Hal Hc Hparse. unfold on_newline. rewrite decide_False by done.
  change parse_events with ([EMain AMem; EMain AMem] ++ [EMain AMem]).
  rewrite run_app.
  match goal with
  | |- context [start o g (mbind ?K (on_args ?f))] =>
      change (start o g (mbind K (on_args f)))
        with (start o g (prog_bind K (on_args f)))
  end.
  rewrite (run_on_args _ _ _ _ _ Hal Hparse).
  rewrite (getArgs_writes _ _ _ _ Hparse). unfold start. cbn [run].
  erewrite step_main_get; [|exact Hal|done|reflexivity]. cbn [mem os].
  by destruct (my_argv g1 !! 0%nat) as [[b|]|].
Qed.

Lemma dispatch_external cmd : ¬ builtin cmd → dispatch cmd = execute cmd.
Proof.
  intros Hb. unfold dispatch, builtin in *.
  repeat case_decide; try done; exfalso; apply Hb; auto.
Qed.

(** A line with a token fills the first byte of the buffer. *)
Lemma tokens_nonempty_input input t ts :
  strtok (c_str input) = t :: ts → ∃ c tl, input = c :: tl ∧ c ≠ NUL.
Proof.
  destruct input as [|c tl]; [done|]. cbn [c_str]. case_decide; [done|].
  intros _. by exists c, tl.
Qed.

Lemma forget_forked_child (m : gmap Z pstatus) p st :
  m !! p = None → delete p (<[p := Zombie st]> (<[p := Running]> m)) = m.
Proof.
  intros H. rewrite insert_insert_eq, delete_insert_eq. by apply delete_id.
Qed.

(** [execute] in the foreground, the child collected by [waitpid]. *)
Lemma run_execute_foreground cmd o g p st :
  fate o = Alive → pt g = FORE → 0 < p → children o !! p = None →
  run (start o g (execute cmd))
      [EMain (ASys p); EMain AMem; EExit p st; EMain (ASys p)]
    = Some (start (set_pending true o) g (Ret tt)).
Proof.
  intros Hal Hpt Hp Hc. unfold start. cbn [run].
  rewrite (step_main_sys _ fork
             (λ pid, if decide (pid = 0) then execute_child cmd
                     else if decide (pid > 0) then execute_parent pid
                     else Ret tt) p (set_children <[p := Running]> o));
    try done.
  2:{ cbn. rewrite decide_False, decide_True by lia. by rewrite Hc. }
  rewrite decide_False, decide_True by lia.
  erewrite step_main_get; [|done|done|reflexivity]. cbn [os mem flow].
  rewrite Hpt. rewrite (step_child_exit _ p st); [|done|apply lookup_insert_eq].
  cbn [os mem flow handler].
  rewrite (step_main_sys _ (waitpid p 0) (λ _, Ret tt) p (set_pending true o));
    try done.
  cbn. rewrite lookup_insert_eq, !decide_True by done. f_equal.
  destruct o. unfold set_children, set_pending. cbn in *. f_equal.
  by apply forget_forked_child.
Qed.


(** A parsed line whose command is [cmd]: the flow that runs [p] for
    [dispatch cmd], then resets the arguments and prompts. *)
Lemma run_line {h o g} input g1 cmd evs o2 g2 :
  fate o = Alive → fate o2 = Alive →
  getArgs h (c_str input) g = inr g1 →
  strtok (c_str input) ≠ [] →
  my_argv g1 !! 0%nat = Some (Some (str_block cmd)) → c_string cmd →
  run (start o g1 (dispatch cmd)) evs = Some (start o2 g2 (Ret tt)) →
  (∃ args, my_argv g2 = holding args ∧ (length args < ARGS_MAX)%nat) →
  run (start o g (on_newline h input)) (parse_events ++ evs ++ wrapup_events)
    = Some (start (add_stdout (prmpt +:+ " ") o2) (set_my_argv no_args g2)
              (Ret tt)).
Proof.
  intros Hal Hal2 Hparse Htok H0 Hcmd Hrun Hargs.
  destruct (strtok (c_str input)) as [|t ts] eqn:Ht; [done|].
  apply tokens_nonempty_input in Ht as (c & tl & -> & Hc).
  rewrite run_app, (run_parse _ _ _ _ _ _ Hal Hc Hparse), H0.
  rewrite buf_strlen_str_block, c_str_str_block by done.
  apply (run_followed_by after_dispatch) in Hrun.
  rewrite run_app. unfold followed_by, start in *.
  cbn [os mem flow handler] in Hrun. rewrite Hrun.
  by apply run_wrapup.
Qed.

(** X8.  A line that is not empty but has no word, or whose first token is
    a lone '&', leaves [my_argv[0]] NULL, and the shell then takes
    [strlen(my_argv[0])]: it dereferences NULL. *)
Theorem wordless_line_crashes h o g c tl :
  fate o = Alive → c ≠ NUL → my_argv g = no_args →
  (strtok (c_str (c :: tl)) = [] ∨
   ∃ post, strtok (c_str (c :: tl)) = "&" :: post) →
  ∃ mode,
    run (start o g (on_newline h (c :: tl))) parse_events
      = Some (start o (set_pt mode g) (Crash (NullDereference "my_argv[0]"))).
Proof.
  intros Hal Hc Hg [Htok|[post Htok]].
  - exists FORE.
    assert (getArgs h (c_str (c :: tl)) g =
            inr (set_pt FORE (set_my_argv (holding []) g))) as Hparse.
    { rewrite <-Htok. apply getArgs_plain_line; rewrite ?Htok; try done.
      unfold ARGS_MAX. cbn [length]. lia. }
    rewrite (run_parse _ _ _ _ _ _ Hal Hc Hparse). do 2 f_equal.
    destruct g. cbn in *. by subst.
  - exists BACK.
    assert (getArgs h (c_str (c :: tl)) g =
            inr (set_pt BACK (set_my_argv (holding []) g))) as Hparse.
    { apply (getArgs_marker_line h _ _ [] "" post); try done.
      vm_compute. lia. }
    rewrite (run_parse _ _ _ _ _ _ Hal Hc Hparse). do 2 f_equal.
    destruct g. cbn in *. by subst.
Qed.

Lemma wordless_line_crashes_witness :
  ∃ mode,
    run (start os0 globals0 (on_newline recycled (buffer_of "  ")))
      parse_events
      = Some (start os0 (set_pt mode globals0)
                (Crash (NullDereference "my_argv[0]"))).
Proof.
  apply (wordless_line_crashes recycled os0 globals0 " "%char
           (" "%char :: replicate 98 NUL)).
  - reflexivity.
  - discriminate.
  - reflexivity.
  - left. reflexivity.
Defined.

Lemma holding_head cmd args :
  holding (cmd :: args) !! 0%nat = Some (Some (str_block cmd)).
Proof. done. Qed.

Lemma restore_globals g mode args fl :
  my_argv g = no_args →
  set_my_argv no_args (set_bgProcIDs fl (set_pt mode (set_my_argv args g)))
    = set_bgProcIDs fl (set_pt mode g).
Proof. intros H. destruct g. cbn in *. by subst. Qed.

(** The calls made along a run. *)
Lemma calls_made_app {A} (c : config A) evs1 evs2 c1 :
  run c evs1 = Some c1 →
  calls_made c (evs1 ++ evs2) = calls_made c evs1 ++ calls_made c1 evs2.
Proof.
  revert c. induction evs1 as [|e evs1 IH]; intros c Hrun.
  - by injection Hrun as <-.
  - cbn in *. destruct (step c e) as [c2|]; [|done].
    by rewrite (IH c2 Hrun), app_assoc.
Qed.

Lemma call_at_followed_by {A B} (K : A → prog B) (c : config A) e c' :
  step c e = Some c' → call_at (followed_by K c) e = call_at c e.
Proof.
  intros Hstep. unfold call_at, followed_by. cbn [handler flow].
  destruct e as [| |[r| |]|]; try done.
  destruct (handler c); [done|].
  apply step_inv in Hstep as (_ & _ & q & o & g & Hfs & _).
  by destruct (flow c).
Qed.

Lemma calls_made_followed_by {A B} (K : A → prog B) evs :
  ∀ (c : config A) c',
  run c evs = Some c' → calls_made (followed_by K c) evs = calls_made c evs.
Proof.
  induction evs as [|e evs IH]; intros c c' Hrun; [done|].
  cbn in *. destruct (step c e) as [c1|] eqn:Hstep; [|done].
  rewrite (step_followed_by K _ _ _ Hstep).
  by rewrite (call_at_followed_by K _ _ _ Hstep), (IH c1 c').
Qed.

(** Accesses to the globals are no calls. *)
Lemma calls_made_mem {A} evs : ∀ (c : config A),
  Forall (λ e, e = EMain AMem) evs → calls_made c evs = [].
Proof.
  induction evs as [|e evs IH]; intros c Hevs; [done|].
  apply Forall_cons in Hevs as [-> Hevs]. cbn.
  destruct (step c (EMain AMem)); [by apply IH|done].
Qed.

Lemma calls_made_sys {A} (c : config A) cl k r o' :
  fate (os c) = Alive → handler c = None → flow c = Sys cl k →
  os_call (os c) cl r = Some o' → fate o' = Alive →
  calls_made c [EMain (ASys r)] = [cl].
Proof.
  intros Hal Hh Hfl Hcall Hal'. cbn [calls_made].
  rewrite (step_main_sys c cl k r o') by done.
  unfold call_at. by rewrite Hh, Hfl.
Qed.

Lemma calls_wrapup o g :
  fate o = Alive → (∃ args, my_argv g = holding args ∧
                            (length args < ARGS_MAX)%nat) →
  calls_made (start o g (after_dispatch tt)) wrapup_events
    = [printf (prmpt +:+ " ")].
Proof.
  intros Hal (args & Hargs & Hlen).
  assert (resetArgs g = inr (set_my_argv no_args g)) as Hreset.
  { unfold resetArgs. rewrite Hargs, resetArgs_loop_holding.
    by rewrite decide_True. }
  change wrapup_events with
    ([EMain AMem; EMain AMem] ++
     [EMain (ASys (Z.of_nat (strlen (prmpt +:+ " "))))]).
  change (after_dispatch tt) with (prog_bind (λ _, prompt) (on_args resetArgs)).
  rewrite (calls_made_app _ _ _ _ (run_on_args _ _ _ _ _ Hal Hreset)).
  rewrite calls_made_mem by (by repeat constructor). cbn [app].
  by apply (calls_made_sys _ (printf (prmpt +:+ " ")) (λ _, Ret tt) _
              (add_stdout (prmpt +:+ " ") o)).
Qed.

(** The calls of a parsed line: those of the command, then the prompt. *)
Lemma calls_line {h o g} input g1 cmd evs o2 g2 :
  fate o = Alive → fate o2 = Alive →
  getArgs h (c_str input) g = inr g1 →
  strtok (c_str input) ≠ [] →
  my_argv g1 !! 0%nat = Some (Some (str_block cmd)) → c_string cmd →
  run (start o g1 (dispatch cmd)) evs = Some (start o2 g2 (Ret tt)) →
  (∃ args, my_argv g2 = holding args ∧ (length args < ARGS_MAX)%nat) →
  calls_made (start o g (on_newline h input))
      (parse_events ++ evs ++ wrapup_events)
    = calls_made (start o g1 (dispatch cmd)) evs ++ [printf (prmpt +:+ " ")].
Proof.
  intros Hal Hal2 Hparse Htok H0 Hcmd Hrun Hargs.
  destruct (strtok (c_str input)) as [|t ts] eqn:Ht; [done|].
  apply tokens_nonempty_input in Ht as (c & tl & -> & Hc).
  pose proof (run_parse _ _ _ _ _ _ Hal Hc Hparse) as Hp.
  rewrite H0, buf_strlen_str_block, c_str_str_block in Hp by done.
  rewrite (calls_made_app _ _ _ _ Hp).
  rewrite calls_made_mem by (by repeat constructor). cbn [app].
  pose proof (run_followed_by after_dispatch _ _ _ Hrun) as Hrun'.
  change (start o g1 (prog_bind after_dispatch (dispatch cmd)))
    with (followed_by after_dispatch (start o g1 (dispatch cmd))).
  rewrite (calls_made_app _ _ _ _ Hrun').
  rewrite (calls_made_followed_by _ _ _ _ Hrun). f_equal.
  by apply calls_wrapup.
Qed.

(** A line that names an external command, without marker, on a heap
    that is clean for its tokens. *)
Lemma run_foreground_line h o g input cmd args p st :
  fate o = Alive → my_argv g = no_args →
  strtok (c_str input) = cmd :: args →
  Forall plain (cmd :: args) → (length (cmd :: args) < ARGS_MAX)%nat →
  clean h (cmd :: args) →
  ¬ builtin cmd → 0 < p → children o !! p = None →
  run (start o g (on_newline h input))
      (parse_events ++
       [EMain (ASys p); EMain AMem; EExit p st; EMain (ASys p)] ++
       wrapup_events)
    = Some (start (add_stdout (prmpt +:+ " ") (set_pending true o))
              (set_pt FORE g) (Ret tt)).
Proof.
  intros Hal Hg Htok Hplain Hlen Hh Hb Hp Hc.
  assert (getArgs h (c_str input) g =
          inr (set_pt FORE (set_my_argv (holding (cmd :: args)) g))) as Hparse.
  { rewrite <-Htok. apply getArgs_plain_line; by rewrite ?Htok. }
  assert (c_string cmd) as Hcmd.
  { apply (strtok_c_string (c_str input)). rewrite Htok. by left. }
  rewrite (run_line input _ cmd
             [EMain (ASys p); EMain AMem; EExit p st; EMain (ASys p)]
             (set_pending true o)
             (set_pt FORE (set_my_argv (holding (cmd :: args)) g))
             Hal Hal Hparse).
  - do 2 f_equal. apply (restore_globals g FORE _ id Hg).
  - by rewrite Htok.
  - done.
  - done.
  - rewrite dispatch_external by done.
    by apply run_execute_foreground.
  - by exists (cmd :: args).
Qed.



(** X9.  A line that names an external command, without marker, on a
    heap that is clean for its tokens, run to its end with the child
    collected by [waitpid]: the shell forks once, waits, resets the
    arguments and prints the prompt; its globals are then as before the
    line (with [pt = FORE]), the job table is untouched and the process
    table is as before. *)
Theorem foreground_line h o g input cmd args p st :
  fate o = Alive → my_argv g = no_args →
  strtok (c_str input) = cmd :: args →
  Forall plain (cmd :: args) → (length (cmd :: args) < ARGS_MAX)%nat →
  clean h (cmd :: args) →
  ¬ builtin cmd → 0 < p → children o !! p = None →
  run (start o g (on_newline h input))
      (parse_events ++
       [EMain (ASys p); EMain AMem; EExit p st; EMain (ASys p)] ++
       wrapup_events)
    = Some (start (add_stdout (prmpt +:+ " ") (set_pending true o))
              (set_pt FORE g) (Ret tt)).
Proof. apply run_foreground_line. Qed.

Lemma foreground_line_witness :
  run (start os0 globals0 (on_newline zeroed (buffer_of "ls -l")))
      (parse_events ++
       [EMain (ASys 7); EMain AMem; EExit 7 2; EMain (ASys 7)] ++
       wrapup_events)
    = Some (start (add_stdout (prmpt +:+ " ") (set_pending true os0))
              (set_pt FORE globals0) (Ret tt)).
Proof.
  apply (foreground_line zeroed os0 globals0 (buffer_of "ls -l") "ls" ["-l"]
           7 2).
  - reflexivity.
  - reflexivity.
  - reflexivity.
  - unfold plain. compute_done.
  - vm_compute. lia.
  - by intros i a _.
  - unfold builtin. intros [H|[H|H]]; discriminate.
  - lia.
  - reflexivity.
Defined.



Lemma holding_second cmd args :
  (length (cmd :: args) < ARGS_MAX)%nat →
  holding (cmd :: args) !! 1%nat = Some (str_block <$> head args).
Proof.
  intros Hlen. destruct args as [|a args]; [|done]. unfold holding.
  cbn [length] in *. destruct (ARGS_MAX - 1)%nat eqn:Hk; [lia|done].
Qed.

Lemma run_changeDir_no_path o g :
  fate o = Alive → my_argv g !! 1%nat = Some None →
  run (start o g changeDir) [EMain AMem] = Some (start o g (Ret tt)).
Proof.
  intros Hal H1. unfold start. cbn [run].
  erewrite step_main_get; [|done|done|reflexivity]. cbn [os mem].
  by rewrite H1.
Qed.

(** The events of [changeDir] when [chdir(path)] returns [r]. *)
Lemma run_changeDir_path o g path r :
  fate o = Alive → my_argv g !! 1%nat = Some (Some (str_block path)) →
  c_string path → r = 0 ∨ r = -1 →
  let evs := [EMain AMem; EMain (ASys r)] ++
             if decide (r = 0) then []
             else [EMain (ASys (Z.of_nat (strlen (cd_failed path))))] in
  run (start o g changeDir) evs
    = Some (start (if decide (r = 0) then o
                   else add_stdout (cd_failed path) o) g (Ret tt))
  ∧ calls_made (start o g changeDir) evs
    = chdir path :: if decide (r = 0) then [] else [printf (cd_failed path)].
Proof.
  intros Hal H1 Hpath Hr evs. unfold evs, start.
  assert (step (Config o g changeDir None) (EMain AMem)
          = Some (Config o g
                    (r ← sys (chdir path);
                     if decide (r ≠ 0)
                     then _ ← sys (printf (cd_failed path)); Ret tt
                     else Ret tt) None)) as Hs1.
  { erewrite step_main_get; [|done|done|reflexivity]. cbn [os mem].
    by rewrite H1, c_str_str_block. }
  assert (os_call o (chdir path) r = Some o) as Hcall.
  { cbn. by rewrite decide_True. }
  destruct Hr as [-> | ->].
  - rewrite (decide_True (P := 0 = 0)) by done. cbn [app run calls_made].
    rewrite Hs1.
    rewrite (step_main_sys _ (chdir path)
               (λ r, if decide (r ≠ 0)
                     then _ ← sys (printf (cd_failed path)); Ret tt
                     else Ret tt) 0 o) by done.
    by rewrite (decide_False (P := 0 ≠ 0)) by (by intros H; apply H).
  - rewrite (decide_False (P := -1 = 0)) by done. cbn [app run calls_made].
    rewrite Hs1.
    rewrite (step_main_sys _ (chdir path)
               (λ r, if decide (r ≠ 0)
                     then _ ← sys (printf (cd_failed path)); Ret tt
                     else Ret tt) (-1) o) by done.
    rewrite (decide_True (P := -1 ≠ 0)) by done.
    rewrite (step_main_sys _ (printf (cd_failed path)) (λ _, Ret tt) _
               (add_stdout (cd_failed path) o)); try done.
    cbn. by rewrite decide_True.
Qed.

(** X11.  The line [cd], with or without arguments (fewer than ARGS_MAX
    tokens in all, none ending in '&'), on a heap that is clean for its
    tokens.  Without argument no call is made before the prompt.  With
    arguments the one call made is [chdir] on the first of them, the
    others being ignored, followed when it fails by the [printf] of "cd:
    path: No such file or directory".  In every case the arguments are
    reset, the prompt follows, and the globals and the children are as
    before the line. *)
Theorem cd_line h o g input args r :
  fate o = Alive → my_argv g = no_args →
  strtok (c_str input) = "cd" :: args →
  Forall plain args → (length ("cd" :: args) < ARGS_MAX)%nat →
  clean h ("cd" :: args) →
  r = 0 ∨ r = -1 →
  let evs :=
    match args with
    | [] => [EMain AMem]
    | path :: _ =>
        [EMain AMem; EMain (ASys r)] ++
        if decide (r = 0) then []
        else [EMain (ASys (Z.of_nat (strlen (cd_failed path))))]
    end in
  let report :=
    match args with
    | path :: _ =>
        chdir path :: if decide (r = 0) then [] else [printf (cd_failed path)]
    | [] => []
    end in
  let o' :=
    match args with
    | path :: _ =>
        if decide (r = 0) then o else add_stdout (cd_failed path) o
    | [] => o
    end in
  run (start o g (on_newline h input)) (parse_events ++ evs ++ wrapup_events)
    = Some (start (add_stdout (prmpt +:+ " ") o') (set_pt FORE g) (Ret tt))
  ∧ calls_made (start o g (on_newline h input))
      (parse_events ++ evs ++ wrapup_events)
    = report ++ [printf (prmpt +:+ " ")].
Proof.
  intros Hal Hg Htok Hplain Hlen Hh Hr evs report o'.
  assert (Forall plain ("cd" :: args)) as Hplain'.
  { constructor; [|done]. unfold plain. compute_done. }
  assert (getArgs h (c_str input) g =
          inr (set_pt FORE (set_my_argv (holding ("cd" :: args)) g)))
    as Hparse.
  { rewrite <-Htok. apply getArgs_plain_line; by rewrite ?Htok. }
  assert (c_string "cd") as Hcd.
  { apply (strtok_c_string (c_str input)). rewrite Htok. by left. }
  assert (fate o' = Alive) as Hal'.
  { unfold o'. destruct args; [done|]. by case_decide. }
  set (g1 := set_pt FORE (set_my_argv (holding ("cd" :: args)) g)).
  assert (run (start o g1 (dispatch "cd")) evs = Some (start o' g1 (Ret tt))
          ∧ calls_made (start o g1 (dispatch "cd")) evs = report)
    as [Hrun Hcalls].
  { change (dispatch "cd") with changeDir.
    pose proof (holding_second "cd" args Hlen) as H1.
    unfold evs, o', report. destruct args as [|path more].
    - split; [by apply run_changeDir_no_path|].
      by apply calls_made_mem; repeat constructor.
    - apply run_changeDir_path; try done.
      apply (strtok_c_string (c_str input)). rewrite Htok. right. by left. }
  split.
  - rewrite (run_line input _ "cd" evs o' g1 Hal Hal' Hparse); try done.
    + do 2 f_equal. apply (restore_globals g FORE _ id Hg).
    + by rewrite Htok.
    + by exists ("cd" :: args).
  - rewrite (calls_line input _ "cd" evs o' g1 Hal Hal' Hparse); try done.
    + f_equal. exact Hcalls.
    + by rewrite Htok.
    + by exists ("cd" :: args).
Qed.

Lemma cd_line_witness :
  run (start os0 globals0 (on_newline zeroed (buffer_of "cd /nowhere x")))
      (parse_events ++
       ([EMain AMem; EMain (ASys (-1))] ++
        [EMain (ASys (Z.of_nat (strlen (cd_failed "/nowhere"))))]) ++
       wrapup_events)
    = Some (start (add_stdout (prmpt +:+ " ")
                     (add_stdout (cd_failed "/nowhere") os0))
              (set_pt FORE globals0) (Ret tt))
  ∧ calls_made (start os0 globals0
                  (on_newline zeroed (buffer_of "cd /nowhere x")))
      (parse_events ++
       ([EMain AMem; EMain (ASys (-1))] ++
        [EMain (ASys (Z.of_nat (strlen (cd_failed "/nowhere"))))]) ++
       wrapup_events)
    = [chdir "/nowhere"; printf (cd_failed "/nowhere")] ++
      [printf (prmpt +:+ " ")].
Proof.
  apply (cd_line zeroed os0 globals0 (buffer_of "cd /nowhere x")
           ["/nowhere"; "x"] (-1)).
  - reflexivity.
  - reflexivity.
  - reflexivity.
  - unfold plain. compute_done.
  - vm_compute. lia.
  - by intros i a _.
  - by right.
Defined.

(** X12.  The line [exit], alone or followed by tokens (fewer than
    ARGS_MAX in all, none ending in '&'), on a heap that is clean for
    them: the shell ends with status 0 at once.  Nothing is printed, no
    signal is sent and no child is waited for: the background jobs are
    left as they are. *)
Theorem exit_line h o g input args :
  fate o = Alive → my_argv g = no_args →
  strtok (c_str input) = "exit" :: args →
  Forall plain args → (length ("exit" :: args) < ARGS_MAX)%nat →
  clean h ("exit" :: args) →
  ∃ c', run (start o g (on_newline h input))
          (parse_events ++ [EMain (ASys 0)]) = Some c' ∧
        os c' = set_fate (Exited 0) o ∧
        bgProcIDs (mem c') = bgProcIDs g.
Proof.
  intros Hal Hg Htok Hplain Hlen Hh.
  assert (Forall plain ("exit" :: args)) as Hplain'.
  { constructor; [|done]. unfold plain. compute_done. }
  assert (getArgs h (c_str input) g =
          inr (set_pt FORE (set_my_argv (holding ("exit" :: args)) g)))
    as Hparse.
  { rewrite <-Htok. apply getArgs_plain_line; by rewrite ?Htok. }
  assert (c_string "exit") as Hcmd.
  { apply (strtok_c_string (c_str input)). rewrite Htok. by left. }
  pose proof Htok as Hin.
  apply tokens_nonempty_input in Hin as (c & tl & -> & Hc).
  rewrite run_app, (run_parse _ _ _ _ _ _ Hal Hc Hparse).
  cbn [my_argv set_pt set_my_argv]. rewrite holding_head.
  rewrite buf_strlen_str_block, c_str_str_block by done.
  change (dispatch "exit") with (_ ← sys (exit 0); Ret tt).
  eexists. split.
  - unfold start. cbn [run]. unfold step. cbn [os]. rewrite Hal. cbn.
    reflexivity.
  - done.
Qed.

Lemma exit_line_witness :
  ∃ c', run (start os0 globals0 (on_newline zeroed (buffer_of "exit now")))
          (parse_events ++ [EMain (ASys 0)]) = Some c' ∧
        os c' = set_fate (Exited 0) os0 ∧
        bgProcIDs (mem c') = bgProcIDs globals0.
Proof.
  apply (exit_line zeroed os0 globals0 (buffer_of "exit now") ["now"]).
  - reflexivity.
  - reflexivity.
  - reflexivity.
  - unfold plain. compute_done.
  - vm_compute. lia.
  - by intros i a _.
Defined.

Lemma requested_eq l : ∀ o,
  requested l o = OS (children o) (pending o) (stdout o)
                    (signalled o ++ requests l) (in_child o) (fate o).
Proof.
  induction l as [|p l IH]; intros o.
  - cbn. rewrite app_nil_r. by destruct o.
  - change (requested (p :: l) o) with (requested l (add_signalled p SIGINT o)).
    rewrite IH. cbn. by rewrite <-app_assoc.
Qed.

(** X13.  The line [killbg], alone or followed by tokens (fewer than
    ARGS_MAX in all, none ending in '&'), on a heap that is clean for
    them, run without interruption: one [kill(pid, SIGINT)] per entry of
    the job table, in the order of the table, each followed by a pause;
    then the table is empty, the arguments are reset and the prompt is
    printed.  No child is waited for: the process table is as before the
    line. *)
Theorem killbg_line h o g input args :
  fate o = Alive → my_argv g = no_args →
  strtok (c_str input) = "killbg" :: args →
  Forall plain args → (length ("killbg" :: args) < ARGS_MAX)%nat →
  clean h ("killbg" :: args) →
  run (start o g (on_newline h input))
      (parse_events ++
       (EMain AMem :: kill_events (bgProcIDs g) ++ [EMain AMem]) ++
       wrapup_events)
    = Some (start (OS (children o) (pending o) (stdout o ++ [prmpt +:+ " "])
                     (signalled o ++ requests (bgProcIDs g))
                     (in_child o) (fate o))
              (Globals FORE [] no_args) (Ret tt)).
Proof.
  intros Hal Hg Htok Hplain Hlen Hh.
  destruct (requested_fields (bgProcIDs g) o) as (Hch & Hpe & Hso & Hf & Hs).
  assert (Forall plain ("killbg" :: args)) as Hplain'.
  { constructor; [|done]. unfold plain. compute_done. }
  assert (getArgs h (c_str input) g =
          inr (set_pt FORE (set_my_argv (holding ("killbg" :: args)) g)))
    as Hparse.
  { rewrite <-Htok. apply getArgs_plain_line; by rewrite ?Htok. }
  assert (c_string "killbg") as Hcmd.
  { apply (strtok_c_string (c_str input)). rewrite Htok. by left. }
  rewrite (run_line input _ "killbg"
             (EMain AMem :: kill_events (bgProcIDs g) ++ [EMain AMem])
             (requested (bgProcIDs g) o)
             (set_bgProcIDs list_clear
                (set_pt FORE (set_my_argv (holding ("killbg" :: args)) g)))
             Hal (eq_trans Hf Hal) Hparse).
  - rewrite requested_eq. do 2 f_equal.
  - by rewrite Htok.
  - done.
  - done.
  - change (dispatch "killbg") with killBgProcs.
    by apply (run_killBgProcs o
                (set_pt FORE (set_my_argv (holding ("killbg" :: args)) g))).
  - by exists ("killbg" :: args).
Qed.

Lemma killbg_line_witness :
  run (start os0 (set_bgProcIDs (λ _, [4; 7]) globals0)
         (on_newline zeroed (buffer_of "killbg")))
      (parse_events ++
       (EMain AMem :: kill_events [4; 7] ++ [EMain AMem]) ++ wrapup_events)
    = Some (start (OS (children os0) (pending os0)
                     (stdout os0 ++ [prmpt +:+ " "])
                     (signalled os0 ++ requests [4; 7])
                     (in_child os0) (fate os0))
              (Globals FORE [] no_args) (Ret tt)).
Proof.
  apply (killbg_line zeroed os0 (set_bgProcIDs (λ _, [4; 7]) globals0)
           (buffer_of "killbg") []).
  - reflexivity.
  - reflexivity.
  - reflexivity.
  - constructor.
  - vm_compute. lia.
  - by intros i a _.
Defined.

(** ** What happens behind the main flow *)

Lemma step_not_main_quiet {A} (c : config A) e c' :
  handler_stage (handler c) → ¬ is_main e → step c e = Some c' →
  stdout (os c') = stdout (os c) ∧ signalled (os c') = signalled (os c) ∧
  bgProcIDs (mem c') `sublist_of` bgProcIDs (mem c) ∧
  dom (children (os c')) ⊆ dom (children (os c)).
Proof.
  intros Hst Hnm Hstep. destruct e as [p st| |a|a].
  - apply step_inv in Hstep as (_ & Hp & ->). cbn.
    repeat split; [done|]. rewrite dom_insert.
    apply elem_of_dom_2 in Hp. set_solver.
  - apply step_inv in Hstep as (_ & _ & _ & ->). done.
  - by destruct Hnm.
  - apply step_handler_inv in Hstep as (_ & Hc); [|done].
    destruct Hc as [(_ & _ & ->)|[(r & st & _ & _ & _ & ->)|[(_ & _ & _ & ->)|
                   [(r & _ & _ & ->)|(_ & _ & ->)]]]]; cbn;
      repeat split; try done.
    + rewrite dom_delete. set_solver.
    + apply sublist_filter.
Qed.

(** X14.  Whatever happens behind the main flow (children terminating,
    SIGCHLD delivered, [child_handler] running, any number of times)
    prints nothing, sends no signal, leaves the main flow, [pt] and
    [my_argv] alone, adds no entry to the job table and no child to the
    process: the table and the process table can only lose entries. *)
Theorem background_activity_is_silent {A} (c c' : config A) evs :
  handler_stage (handler c) → Forall (λ e, ¬ is_main e) evs →
  run c evs = Some c' →
  flow c' = flow c ∧ pt (mem c') = pt (mem c) ∧
  my_argv (mem c') = my_argv (mem c) ∧
  stdout (os c') = stdout (os c) ∧ signalled (os c') = signalled (os c) ∧
  bgProcIDs (mem c') `sublist_of` bgProcIDs (mem c) ∧
  dom (children (os c')) ⊆ dom (children (os c)).
Proof.
  intros Hst Hnm Hrun.
  destruct (run_not_main _ _ _ Hst Hnm Hrun) as (Hf & Hp & Ha & _).
  do 3 (split; [done|]). clear Hf Hp Ha.
  revert c Hst Hrun. induction Hnm as [|e evs He Hnm IH]; intros c Hst Hrun.
  - by injection Hrun as <-.
  - cbn in Hrun. destruct (step c e) as [c1|] eqn:Hstep; [|done].
    destruct (step_not_main_quiet _ _ _ Hst He Hstep) as (Ho & Hk & Hs & Hd).
    destruct (IH c1) as (Ho' & Hk' & Hs' & Hd');
      [by eapply handler_stage_step|done|].
    repeat split; [congruence|congruence|by etrans|by etrans].
Qed.

Lemma background_activity_is_silent_witness :
  let c := start (set_children <[5 := Running]> os0)
             (set_bgProcIDs (push_back 5) globals0) (prompt) in
  let c' := start os0 globals0 prompt in
  flow c' = flow c ∧ pt (mem c') = pt (mem c) ∧
  my_argv (mem c') = my_argv (mem c) ∧
  stdout (os c') = stdout (os c) ∧ signalled (os c') = signalled (os c) ∧
  bgProcIDs (mem c') `sublist_of` bgProcIDs (mem c) ∧
  dom (children (os c')) ⊆ dom (children (os c)).
Proof.
  apply (background_activity_is_silent
           (start (set_children <[5 := Running]> os0)
              (set_bgProcIDs (push_back 5) globals0) prompt)
           (start os0 globals0 prompt)
           (EExit 5 0 :: handler_events 5)).
  - exact I.
  - unfold handler_events. repeat (constructor; [by intros []|]). constructor.
  - vm_compute. reflexivity.
Defined.

(** X15.  With a SIGCHLD pending, no child reapable and at least one
    child running (the state of the shell right after [waitpid] has
    collected a foreground command while a background job runs), the
    delivery of the signal takes the shell into [child_handler], which
    re-installs itself and calls [wait]; from there nothing can happen but
    the termination of a running child: the main flow does not advance
    and no prompt is printed until then. *)
Theorem handler_wait_blocks {A} (c : config A) s :
  fate (os c) = Alive → handler c = None → pending (os c) = true →
  none_reapable (os c) → children (os c) ≠ ∅ →
  ∃ c1, run c [EDeliver; EHandler (ASys s)] = Some c1 ∧
        handler c1 = Some child_handler_reap ∧
        flow c1 = flow c ∧ stdout (os c1) = stdout (os c) ∧
        ∀ e c2, step c1 e = Some c2 →
                ∃ p st, e = EExit p st ∧
                        children (os c) !! p = Some Running.
Proof.
  intros Hal Hh Hp Hz Hne. destruct c as [o g fl h]. cbn in *. subst h.
  exists (Config (set_pending false o) g fl (Some child_handler_reap)).
  split.
  { unfold step. cbn. rewrite Hal, Hp. cbn. by rewrite Hal. }
  do 3 (split; [done|]).
  intros e c2 Hstep. destruct e as [p st| |a|a].
  - apply step_inv in Hstep as (_ & Hr & _). by exists p, st.
  - by apply step_inv in Hstep as (_ & ? & _).
  - by apply step_inv in Hstep as (_ & ? & _).
  - apply step_handler_inv in Hstep as (_ & Hc); [|cbn; auto].
    cbn in Hc.
    destruct Hc as [(? & _)|[(r & st & _ & _ & Hr & _)|[(_ & _ & He & _)|
                   [(r & Hrm & _)|(? & _)]]]]; simplify_eq.
    by destruct (Hz r st).
Qed.

Lemma handler_wait_blocks_witness :
  ∃ c1, run (start (set_pending true (set_children <[7 := Running]> os0))
               (set_bgProcIDs (push_back 7) globals0) prompt)
          [EDeliver; EHandler (ASys 0)] = Some c1 ∧
        handler c1 = Some child_handler_reap ∧
        flow c1 = prompt ∧ stdout (os c1) = [] ∧
        ∀ e c2, step c1 e = Some c2 →
                ∃ p st, e = EExit p st ∧
                        children (set_children <[7 := Running]> os0) !! p
                          = Some Running.
Proof.
  refine (handler_wait_blocks
           (start (set_pending true (set_children <[7 := Running]> os0))
              (set_bgProcIDs (push_back 7) globals0) prompt) 0 _ _ _ _ _).
  - reflexivity.
  - reflexivity.
  - reflexivity.
  - intros p st. cbn. destruct (decide (p = 7)) as [->|Hp].
    + by rewrite lookup_insert.
    + by rewrite lookup_insert_ne, lookup_empty.
  - cbn. apply insert_non_empty.
Defined.

(** ** The calls the shell makes *)

Section calls_of_flows.
Context {A B : Type} (everywhere : bool) (P : call → Prop).

Lemma calls_bind (K : A → prog B) (p : prog A) :
  calls everywhere P p → (∀ a, calls everywhere P (K a)) →
  calls everywhere P (prog_bind K p).
Proof.
  intros Hp HK. induction p as [a|e|cl k IH|k IH|f k IH]; cbn in *; auto.
  destruct Hp as [Hcl Hk]. split; [done|]. destruct cl; auto.
Qed.

Lemma calls_lift (r : fault + A) : calls everywhere P (lift r).
Proof. by destruct r. Qed.
End calls_of_flows.

Section calls_of_functions.
Context (everywhere : bool) (P : call → Prop).

Lemma calls_on_args f : calls everywhere P (on_args f).
Proof. cbn. intros g. by destruct (f g). Qed.

Lemma calls_prompt : (∀ t, P (printf t)) → calls everywhere P prompt.
Proof. intros Hp. by cbn. Qed.

Lemma calls_changeDir :
  (∀ path, P (chdir path)) → (∀ t, P (printf t)) →
  calls everywhere P changeDir.
Proof.
  intros Hc Hp. cbn. intros g.
  destruct (my_argv g !! 1%nat) as [[path|]|]; cbn; try done.
  split; [done|]. intros r. by destruct (decide (r ≠ 0)).
Qed.

Lemma calls_kill_each nodes :
  (∀ p s, P (kill p s)) → (∀ us, P (usleep us)) →
  ∀ linked, calls everywhere P (kill_each nodes linked).
Proof.
  intros Hk Hu. induction nodes as [|p l IH]; intros linked; cbn; [done|].
  case_decide; [|apply IH]. cbn. intros g. case_decide; [|done]. cbn.
  split; [done|]. intros _. split; [done|]. intros _ g'.
  case_decide; [apply IH|done].
Qed.

Lemma calls_killBgProcs :
  (∀ p s, P (kill p s)) → (∀ us, P (usleep us)) →
  calls everywhere P killBgProcs.
Proof.
  intros Hk Hu. cbn. intros g. apply (calls_bind (A := unit)); [|done].
  by apply calls_kill_each.
Qed.

(** [execute] calls [fork] and [waitpid]; [execvp], [printf] and [exit]
    are called in the forked copy only. *)
Lemma calls_execute cmd :
  P fork → (∀ p opts, P (waitpid p opts)) →
  (everywhere = true →
   (∀ f a, P (execvp f a)) ∧ (∀ t, P (printf t)) ∧ ∀ s, P (exit s)) →
  calls everywhere P (execute cmd).
Proof.
  intros Hf Hw Hchild. cbn. split; [done|]. intros r Hr.
  destruct (decide (r = 0)) as [->|Hr0].
  - destruct Hr as [He|]; [|done]. destruct (Hchild He) as (? & ? & ?).
    by cbn.
  - destruct (decide (r > 0)) as [Hpos|]; [|done]. cbn. intros g.
    by destruct (pt g).
Qed.
End calls_of_functions.

Section calls_of_shell.
Context (P : call → Prop).
Hypothesis P_parent : ∀ c, ¬ is_execvp c → P c.

Local Ltac parent_call := intros; apply P_parent; intros [].

Lemma calls_dispatch cmd : calls false P (dispatch cmd).
Proof.
  unfold dispatch. repeat case_decide.
  - apply calls_changeDir; parent_call.
  - apply calls_killBgProcs; parent_call.
  - cbn. split; [parent_call|done].
  - apply calls_execute; try done; parent_call.
Qed.

Lemma calls_read {A} (K : globals → prog A) :
  (∀ g, calls false P (K g)) → calls false P (g ← read; K g).
Proof. intros H. cbn. exact H. Qed.

Lemma calls_on_newline h input : calls false P (on_newline h input).
Proof.
  unfold on_newline. destruct input as [|c tl]; [done|].
  assert (calls false P prompt) as Hprompt.
  { apply calls_prompt. parent_call. }
  case_decide; [done|].
  apply (calls_bind (A := unit)); [apply calls_on_args|]. intros _.
  apply calls_read. intros g.
  destruct (my_argv g !! 0%nat) as [[b|]|]; try done.
  destruct (buf_strlen b); [|done].
  apply (calls_bind (A := unit)); [apply calls_dispatch|]. intros _.
  apply (calls_bind (A := unit)); [apply calls_on_args|]. by intros _.
Qed.

Lemma calls_finish : calls false P finish.
Proof. cbn. split; [parent_call|done]. Qed.

Lemma calls_main_loop stdin :
  ∀ hs input, calls false P (main_loop hs stdin input).
Proof.
  induction stdin as [|c rest IH]; intros hs input; cbn [main_loop].
  - apply (calls_bind (A := list ascii)); [apply calls_lift|].
    intros _. apply calls_finish.
  - case_decide.
    + apply (calls_bind (A := unit)); [apply calls_on_newline|].
      intros _. apply IH.
    + apply (calls_bind (A := list ascii)); [apply calls_lift|].
      intros input'. case_decide; [apply calls_finish|apply IH].
Qed.

Lemma calls_main hs c0 stdin : calls false P (main hs c0 stdin).
Proof.
  unfold main.
  apply (calls_bind (A := unit)); [done|]. intros _.
  do 4 (apply (calls_bind (A := Z));
        [cbn; split; [parent_call|done]|]; intros _).
  apply (calls_bind (A := unit)).
  { apply calls_execute; try done; parent_call. }
  intros _.
  apply (calls_bind (A := unit)).
  { apply calls_prompt. parent_call. }
  intros _.
  apply (calls_bind (A := Z)); [cbn; split; [parent_call|done]|].
  intros _. case_decide; [apply calls_finish|apply calls_main_loop].
Qed.
End calls_of_shell.

Section calls_run.
Context {A : Type} (everywhere : bool) (P : call → Prop).
Context (I : os_state → Prop).
Hypothesis I_call : ∀ o cl r o',
  P cl → I o → os_call o cl r = Some o' → I o'.
Hypothesis I_exit : ∀ o p st,
  children o !! p = Some Running → I o →
  I (set_pending true (set_children <[p := Zombie st]> o)).
Hypothesis I_deliver : ∀ o, I o → I (set_pending false o).
Hypothesis I_reap : ∀ o r, I o → I (set_children (delete r) o).

Lemma calls_inv_step (c : config A) e c' :
  calls_inv everywhere P I c → step c e = Some c' →
  calls_inv everywhere P I c'.
Proof.
  intros [[He Hin]|(Hst & Hc & HI)] Hstep.
  { left. split; [done|]. by eapply step_in_child. }
  destruct e as [p st| |a|a].
  - apply step_inv in Hstep as (_ & Hp & ->). right. cbn.
    repeat split; try done. by apply I_exit.
  - apply step_inv in Hstep as (_ & _ & _ & ->). right. cbn.
    split; [by left|]. split; [done|]. by apply I_deliver.
  - apply step_inv in Hstep as (Hal & _ & q & o & g & Hfs & ->). cbn in *.
    apply flow_step_inv in Hfs
      as [(cl & k & r & Hfl & _ & Hcall & _ & ->)|[(k & Hfl & _ & -> & -> & _)|
          (f & k & Hfl & _ & -> & -> & _)]]; rewrite Hfl in Hc; cbn in Hc.
    + destruct Hc as [Hcl Hk].
      assert (I o) as HI' by (by eapply I_call).
      destruct (fate o) eqn:Hf.
      2,3: right; (split; [done|]);
        split; [cbn; rewrite Hfl; exact (conj Hcl Hk)|done].
      destruct cl; try (right; split; [done|]; split; [by apply Hk|done]).
      * destruct (decide (r = 0)) as [->|Hr].
        -- destruct everywhere eqn:He.
           ++ right. split; [done|]. split; [apply Hk; by left|done].
           ++ left. split; [done|]. cbn in Hcall.
              rewrite decide_True in Hcall by done. by simplify_eq.
        -- right. split; [done|]. split; [apply Hk; by right|done].
      * cbn in Hcall. case_decide; simplify_eq.
    + right. split; [done|]. split; [apply Hc|done].
    + right. done.
  - apply step_handler_inv in Hstep as (_ & Hcase); [|done]. right.
    destruct Hcase as [(_ & _ & ->)|[(r & st & _ & _ & _ & ->)|
      [(_ & _ & _ & ->)|[(r & _ & _ & ->)|(_ & _ & ->)]]]]; cbn;
      (split; [by eauto|]); (split; [done|]); by try apply I_reap.
Qed.

Lemma calls_inv_run evs : ∀ (c c' : config A),
  calls_inv everywhere P I c → run c evs = Some c' →
  calls_inv everywhere P I c'.
Proof.
  induction evs as [|e evs IH]; intros c c' Hinv Hrun.
  - by injection Hrun as <-.
  - cbn in Hrun. destruct (step c e) as [c1|] eqn:Hstep; [|done].
    eapply IH; [|done]. by eapply calls_inv_step.
Qed.
End calls_run.

Lemma image_kept_call o cl r o' :
  ¬ is_execvp cl → image_kept o → os_call o cl r = Some o' → image_kept o'.
Proof.
  intros Hcl HI Hcall. unfold image_kept in *.
  destruct cl; split_call Hcall; cbn in *; done.
Qed.

(** X16.  The shell never replaces its own program: in every run of
    [main], on any input and with any scheduling of the children and of
    the handler, the process that is not a forked copy either still runs
    or has ended by [exit] or by returning from [main].  [execvp] is
    reached in the forked copy only, where it receives the command and the
    whole of [my_argv]. *)
Theorem shell_keeps_its_image o g :
  fate o = Alive →
  (∀ hs c0 stdin evs c',
     run (start o g (main hs c0 stdin)) evs = Some c' →
     in_child (os c') = false → image_kept (os c'))
  ∧ (∀ cmd, ∃ c',
       run (start o g (execute cmd))
         [EMain (ASys 0); EMain AMem; EMain (ASys 0)] = Some c' ∧
       in_child (os c') = true ∧
       fate (os c') = Execed cmd (arg_strings (my_argv g))).
Proof.
  intros Hal. split.
  - intros hs c0 stdin evs c' Hrun Hin.
    apply (calls_inv_run false (λ c, ¬ is_execvp c) image_kept) in Hrun.
    + destruct Hrun as [[_ ?]|(_ & _ & HI)]; [congruence|done].
    + apply image_kept_call.
    + done.
    + done.
    + done.
    + right. split; [by cbn|]. split; [apply calls_main; auto|].
      unfold image_kept. cbn. by rewrite Hal.
  - intros cmd. eexists. split; [|split].
    + unfold start. cbn [run].
      erewrite (step_main_sys _ fork _ 0 (as_child o));
        [|done|done|reflexivity|cbn; by rewrite decide_True|done].
      cbn [mem prog_bind]. rewrite (decide_True (P := 0 = 0)) by done.
      erewrite step_main_get; [|done|done|reflexivity].
      cbn [os mem]. unfold step. cbn [os handler flow mem as_child fate].
      rewrite Hal. cbn.
      rewrite (decide_False (P := 0 = -1)) by done.
      rewrite (decide_True (P := 0 = 0)) by done.
      cbn. reflexivity.
    + done.
    + done.
Qed.

Lemma shell_keeps_its_image_witness :
  (∀ hs c0 stdin evs c',
     run (start os0 globals0 (main hs c0 stdin)) evs = Some c' →
     in_child (os c') = false → image_kept (os c'))
  ∧ (∀ cmd, ∃ c',
       run (start os0 globals0 (execute cmd))
         [EMain (ASys 0); EMain AMem; EMain (ASys 0)] = Some c' ∧
       in_child (os c') = true ∧
       fate (os c') = Execed cmd (arg_strings (my_argv globals0))).
Proof.
  apply (shell_keeps_its_image os0 globals0).
  reflexivity.
Defined.

Ltac call_ok := cbn; intros; repeat split; intros; tauto.

Lemma calls_dispatch_no_kill cmd :
  cmd ≠ "killbg" → calls true (λ c, ¬ is_kill c) (dispatch cmd).
Proof.
  intros Hcmd. unfold dispatch. repeat case_decide.
  - apply calls_changeDir; call_ok.
  - done.
  - call_ok.
  - apply calls_execute; call_ok.
Qed.

(** X17.  No command but [killbg] sends a signal: while [cd], [exit] or
    an external command is carried out, in the shell and in its forked
    copy, with any scheduling of the children and of the handler, no
    [kill] is called. *)
Theorem only_killbg_signals o g cmd evs c' :
  cmd ≠ "killbg" →
  run (start o g (dispatch cmd)) evs = Some c' →
  signalled (os c') = signalled o.
Proof.
  intros Hcmd Hrun.
  apply (calls_inv_run true (λ c, ¬ is_kill c)
           (λ o', signalled o' = signalled o)) in Hrun.
  - by destruct Hrun as [[? _]|(_ & _ & HI)].
  - intros o1 cl r o2 Hcl HI Hcall.
    destruct cl; split_call Hcall; cbn in *; done.
  - done.
  - done.
  - done.
  - right. split; [done|]. split; [by apply calls_dispatch_no_kill|done].
Qed.

Lemma only_killbg_signals_witness :
  signalled (os (start (set_pending true os0) globals0 (Ret tt)))
    = signalled os0.
Proof.
  apply (only_killbg_signals os0 globals0 "ls"
           [EMain (ASys 5); EMain AMem; EExit 5 0; EMain (ASys 5)]
           (start (set_pending true os0) globals0 (Ret tt))).
  - done.
  - vm_compute. reflexivity.
Defined.

Lemma calls_dispatch_no_fork cmd :
  builtin cmd → calls true (λ c, ¬ is_fork c) (dispatch cmd).
Proof.
  intros [-> | [-> | ->]].
  - apply calls_changeDir; call_ok.
  - apply calls_killBgProcs; call_ok.
  - call_ok.
Qed.

(** X18.  The built-in commands create no process: while [cd], [killbg]
    or [exit] is carried out, with any scheduling of the children and of
    the handler, [fork] is not called: the process stays the one it was and
    gets no new child. *)
Theorem builtins_never_fork o g cmd evs c' :
  builtin cmd →
  run (start o g (dispatch cmd)) evs = Some c' →
  in_child (os c') = in_child o ∧
  dom (children (os c')) ⊆ dom (children o).
Proof.
  intros Hcmd Hrun.
  apply (calls_inv_run true (λ c, ¬ is_fork c)
           (λ o', in_child o' = in_child o ∧
                  dom (children o') ⊆ dom (children o))) in Hrun.
  - by destruct Hrun as [[? _]|(_ & _ & HI)].
  - intros o1 cl r o2 Hcl [Hin Hdom] Hcall.
    destruct cl; split_call Hcall; cbn in *; try done.
    all: split; [done|]; rewrite dom_delete; set_solver.
  - intros o1 p st Hp [Hin Hdom]. cbn. split; [done|].
    rewrite dom_insert. apply elem_of_dom_2 in Hp. set_solver.
  - done.
  - intros o1 r [Hin Hdom]. cbn. split; [done|].
    rewrite dom_delete. set_solver.
  - right. split; [done|]. split; [by apply calls_dispatch_no_fork|done].
Qed.

Lemma builtins_never_fork_witness :
  in_child (os (start os0 globals0 (Ret tt))) = in_child os0 ∧
  dom (children (os (start os0 globals0 (Ret tt)))) ⊆ dom (children os0).
Proof.
  apply (builtins_never_fork os0 globals0 "cd" [EMain AMem]
           (start os0 globals0 (Ret tt))).
  - by left.
  - vm_compute. reflexivity.
Defined.

(** ** The start of [main] *)

Lemma run_bind {A B} (K : A → prog B) o g (p : prog A) evs o' g' v :
  run (start o g p) evs = Some (start o' g' (Ret v)) →
  run (start o g (p ≫= K)) evs = Some (start o' g' (K v)).
Proof. intros H. apply (run_followed_by K) in H. exact H. Qed.

Lemma run_modify o g f :
  fate o = Alive →
  run (start o g (modify f)) [EMain AMem] = Some (start o (f g) (Ret tt)).
Proof.
  intros Hal. unfold start. cbn [run].
  by erewrite step_main_upd; [|done|done|reflexivity].
Qed.

Lemma run_sys o g cl r o' :
  fate o = Alive → os_call o cl r = Some o' → fate o' = Alive →
  run (start o g (sys cl)) [EMain (ASys r)] = Some (start o' g (Ret r)).
Proof.
  intros Hal Hcall Hal'. unfold start. cbn [run].
  by rewrite (step_main_sys _ cl Ret r o').
Qed.

Lemma calls_made_quiet {A} evs : ∀ (c : config A),
  Forall (λ e, match e with EMain (ASys _) => False | _ => True end) evs →
  calls_made c evs = [].
Proof.
  induction evs as [|e evs IH]; intros c Hevs; [done|].
  apply Forall_cons in Hevs as [He Hevs]. cbn.
  destruct (step c e); [|done]. rewrite IH by done.
  by destruct e as [| |[| |]|].
Qed.

Lemma calls_made_bind {A B} (K : A → prog B) o g (p : prog A) evs o' g' v
    rest :
  run (start o g p) evs = Some (start o' g' (Ret v)) →
  calls_made (start o g (p ≫= K)) (evs ++ rest)
    = calls_made (start o g p) evs ++ calls_made (start o' g' (K v)) rest.
Proof.
  intros Hrun.
  rewrite (calls_made_app _ _ _ _ (run_bind K _ _ _ _ _ _ _ Hrun)).
  f_equal. exact (calls_made_followed_by K _ _ _ Hrun).
Qed.

Lemma calls_made_modify o g f :
  calls_made (start o g (modify f)) [EMain AMem] = [].
Proof. apply calls_made_mem. by repeat constructor. Qed.

Lemma calls_made_one o g cl r o' :
  fate o = Alive → os_call o cl r = Some o' → fate o' = Alive →
  calls_made (start o g (sys cl)) [EMain (ASys r)] = [cl].
Proof. intros. by apply (calls_made_sys _ cl Ret r o'). Qed.

Lemma calls_made_prompt o g :
  fate o = Alive →
  calls_made (start o g prompt)
      [EMain (ASys (Z.of_nat (strlen (prmpt +:+ " "))))]
    = [printf (prmpt +:+ " ")].
Proof.
  intros Hal.
  by apply (calls_made_sys _ (printf (prmpt +:+ " ")) (λ _, Ret tt) _
              (add_stdout (prmpt +:+ " ") o)).
Qed.

Lemma calls_made_execute_foreground cmd o g p st :
  fate o = Alive → pt g = FORE → 0 < p → children o !! p = None →
  calls_made (start o g (execute cmd))
      [EMain (ASys p); EMain AMem; EExit p st; EMain (ASys p)]
    = [fork; waitpid p 0].
Proof.
  intros Hal Hpt Hp Hc. unfold start. cbn [calls_made].
  rewrite (step_main_sys _ fork
             (λ pid, if decide (pid = 0) then execute_child cmd
                     else if decide (pid > 0) then execute_parent pid
                     else Ret tt) p (set_children <[p := Running]> o));
    try done.
  2:{ cbn. rewrite decide_False, decide_True by lia. by rewrite Hc. }
  rewrite decide_False, decide_True by lia.
  erewrite step_main_get; [|done|done|reflexivity]. cbn [os mem flow].
  rewrite Hpt. rewrite (step_child_exit _ p st); [|done|apply lookup_insert_eq].
  cbn [os mem flow handler].
  rewrite (step_main_sys _ (waitpid p 0) (λ _, Ret tt) p (set_pending true o));
    try done.
  cbn. rewrite lookup_insert_eq, !decide_True by done. f_equal.
  destruct o. unfold set_children, set_pending. cbn in *. f_equal.
  by apply forget_forked_child.
Qed.

(** One whole invocation of [child_handler] with no child left: [wait]
    returns -1. *)
Lemma run_handler_no_child {A} (c : config A) :
  fate (os c) = Alive → handler c = None → pending (os c) = true →
  children (os c) = ∅ →
  run c (handler_events (-1))
    = Some (Config (set_pending false (os c))
              (set_bgProcIDs (list_remove (-1)) (mem c)) (flow c) None).
Proof.
  intros Hal Hh Hp Hch. unfold handler_events. cbn [run].
  rewrite step_deliver by done.
  erewrite (step_handler_sys _ (signal SIGCHLD to_child_handler) _ 0
              (set_pending false (os c))); [|done|reflexivity|done|done].
  cbn [os mem flow handler].
  erewrite (step_handler_sys _ wait _ (-1) (set_pending false (os c)));
    [|done|reflexivity| |done].
  2:{ cbn. rewrite Hch, lookup_empty. by rewrite decide_True. }
  cbn [os mem flow handler].
  erewrite step_handler_upd; [|done|reflexivity].
  cbn [os mem flow handler].
  by erewrite step_handler_ret; [|done|reflexivity].
Qed.

(** [execute] in the forked copy, when [execvp] succeeds. *)
Lemma run_execute_child cmd o g :
  fate o = Alive →
  ∃ c', run (start o g (execute cmd))
          [EMain (ASys 0); EMain AMem; EMain (ASys 0)] = Some c' ∧
        os c' = set_fate (Execed cmd (arg_strings (my_argv g))) (as_child o).
Proof.
  intros Hal. eexists. split.
  - unfold start. cbn [run].
    erewrite (step_main_sys _ fork _ 0 (as_child o));
      [|done|done|reflexivity|cbn; by rewrite decide_True|done].
    cbn [mem prog_bind]. rewrite (decide_True (P := 0 = 0)) by done.
    erewrite step_main_get; [|done|done|reflexivity].
    cbn [os mem]. unfold step. cbn [os handler flow mem as_child fate].
    rewrite Hal. cbn.
    rewrite (decide_False (P := 0 = -1)) by done.
    rewrite (decide_True (P := 0 = 0)) by done.
    cbn. reflexivity.
  - done.
Qed.

(** X19.  From its first statement to the first test of its loop, in a
    process that has no child yet and an empty job table, with every call
    succeeding.  The calls [main] makes are, in this order: [signal] for
    SIGINT with SIG_IGN and then with [interrupt_handler], [signal] for
    SIGCHLD with SIG_IGN and then with [child_handler], [fork], [waitpid]
    for the child [fork] returned, [printf] of the prompt, [fflush].  The
    forked copy loads the program "clear" with [my_argv] as its
    arguments.  The SIGCHLD of that child is handled as [waitpid]
    returns: [child_handler] finds nothing to wait for and leaves the job
    table empty.  When the loop is entered [pt] is [FORE], there is no
    child and no pending signal, and the prompt is the one thing printed.
    The loop test then reads [c] before anything was assigned to it: if
    that byte happens to be EOF the shell ends without reading a line. *)
Theorem main_startup hs o g c0 stdin p st :
  fate o = Alive → children o = ∅ → bgProcIDs g = [] → 0 < p →
  run (start o g (main hs c0 stdin)) (startup_events p st)
    = Some (start (OS ∅ false (stdout o ++ [prmpt +:+ " "]) (signalled o)
                     (in_child o) Alive)
              (Globals FORE [] (my_argv g))
              (if decide (c0 = EOF_char) then finish
               else main_loop hs stdin (malloc CHARS_MAX)))
  ∧ calls_made (start o g (main hs c0 stdin)) (startup_events p st)
    = [signal SIGINT SIG_IGN; signal SIGINT to_interrupt_handler;
       signal SIGCHLD SIG_IGN; signal SIGCHLD to_child_handler;
       fork; waitpid p 0; printf (prmpt +:+ " "); fflush]
  ∧ ∃ c', run (start o g (main hs c0 stdin)) startup_child_events = Some c' ∧
          in_child (os c') = true ∧
          fate (os c') = Execed "clear" (arg_strings (my_argv g)).
Proof.
  intros Hal Hch Hbg Hp.
  assert (children o !! p = None) as Hc by (by rewrite Hch, lookup_empty).
  unfold main.
  change (startup_events p st) with
    ([EMain AMem] ++ [EMain (ASys 0)] ++ [EMain (ASys 0)] ++
     [EMain (ASys 0)] ++ [EMain (ASys 0)] ++
     [EMain (ASys p); EMain AMem; EExit p st; EMain (ASys p)] ++
     handler_events (-1) ++
     [EMain (ASys (Z.of_nat (strlen (prmpt +:+ " "))))] ++
     [EMain (ASys 0)] ++ []).
  change startup_child_events with
    ([EMain AMem] ++ [EMain (ASys 0)] ++ [EMain (ASys 0)] ++
     [EMain (ASys 0)] ++ [EMain (ASys 0)] ++
     [EMain (ASys 0); EMain AMem; EMain (ASys 0)]).
  split; [|split].
  - rewrite run_app. erewrite run_bind; [|by apply run_modify].
    do 4 (rewrite run_app; erewrite run_bind; [|by apply run_sys]).
    rewrite run_app. erewrite run_bind; [|by apply run_execute_foreground].
    rewrite run_app. unfold start at 1. rewrite run_handler_no_child by done.
    cbn [os mem flow].
    rewrite run_app.
    change (Config ?o1 ?g1 ?f None) with (start o1 g1 f).
    erewrite run_bind; [|by apply run_prompt].
    rewrite run_app. erewrite run_bind; [|by apply run_sys].
    unfold start. cbn [run]. do 2 f_equal.
    + destruct o. cbn in *. by subst.
    + destruct g. cbn in *. by subst.
  - rewrite (calls_made_bind _ _ _ _ _ _ _ _ _ (run_modify o g _ Hal)).
    rewrite calls_made_modify. cbn beta.
    do 4 (erewrite calls_made_bind; [|by apply run_sys];
          rewrite (calls_made_one _ _ _ _ o) by done; cbn beta).
    rewrite (calls_made_bind _ _ _ _ _ _ _ _ _
               (run_execute_foreground "clear" o (set_pt FORE g) p st
                  Hal eq_refl Hp Hc)).
    rewrite calls_made_execute_foreground by done. cbn beta.
    unfold start at 1.
    erewrite calls_made_app; [|by apply run_handler_no_child].
    rewrite calls_made_quiet by (by repeat constructor).
    cbn [os mem flow].
    change (Config ?o1 ?g1 ?f None) with (start o1 g1 f).
    rewrite (calls_made_bind _ _ _ _ _ _ _ _ _
               (run_prompt (set_pending false (set_pending true o))
                  (set_bgProcIDs (list_remove (-1)) (set_pt FORE g)) Hal)).
    rewrite calls_made_prompt by done. cbn beta.
    erewrite calls_made_bind; [|by apply run_sys].
    rewrite (calls_made_one _ _ _ _ (add_stdout (prmpt +:+ " ")
                                       (set_pending false (set_pending true o))))
      by done.
    done.
  - rewrite run_app. erewrite run_bind; [|by apply run_modify].
    do 4 (rewrite run_app; erewrite run_bind; [|by apply run_sys]).
    destruct (run_execute_child "clear" o (set_pt FORE g) Hal)
      as (c1 & Hrun & Hos).
    eexists. split; [exact (run_followed_by _ _ _ _ Hrun)|].
    cbn [followed_by os]. by rewrite Hos.
Qed.

Lemma main_startup_witness :
  run (start os0 globals0 (main (λ _, zeroed) EOF_char []))
      (startup_events 9 0)
    = Some (start (OS ∅ false (stdout os0 ++ [prmpt +:+ " "]) (signalled os0)
                     (in_child os0) Alive)
              (Globals FORE [] (my_argv globals0))
              (if decide (EOF_char = EOF_char) then finish
               else main_loop (λ _, zeroed) [] (malloc CHARS_MAX)))
  ∧ calls_made (start os0 globals0 (main (λ _, zeroed) EOF_char []))
      (startup_events 9 0)
    = [signal SIGINT SIG_IGN; signal SIGINT to_interrupt_handler;
       signal SIGCHLD SIG_IGN; signal SIGCHLD to_child_handler;
       fork; waitpid 9 0; printf (prmpt +:+ " "); fflush]
  ∧ ∃ c', run (start os0 globals0 (main (λ _, zeroed) EOF_char []))
            startup_child_events = Some c' ∧
          in_child (os c') = true ∧
          fate (os c') = Execed "clear" (arg_strings (my_argv globals0)).
Proof.
  apply (main_startup (λ _, zeroed) os0 globals0 EOF_char [] 9 0).
  - reflexivity.
  - reflexivity.
  - reflexivity.
  - lia.
Defined.
